(** * Enchive: the envelope, the key derivation and the key file of enchive.c

    A shallow embedding of [src/enchive.c] and the properties its
    specification states about it.

    Modelling conventions.
    - A byte ([u8]) is a [Z] in [0, 256); a buffer is a [list Z].  A pointer
      into a buffer is an offset, and [load]/[store] are the reads and writes
      ([memcpy], the output argument of a callee) at that offset.
    - A C string is the list of its characters before the terminating NUL.
    - The file descriptors are ideal: [read] delivers what is left of the stream
      and [write] takes everything; [malloc] succeeds.  The branches of the
      source that report an I/O or allocation failure are therefore not taken.
    - [fatal] ends the run: an effectful function returns [Fatal e] together
      with the world as it was left (what was already written stays written).
    - The terminal hands [get_passphrase] one entry per [read], the bytes as
      they are typed; the passphrase is the string the function leaves in
      the buffer of its caller.  A write outside that buffer is undefined in
      C: the model ends the run there with an error of its own.
    - SHA-256, ChaCha20 and Curve25519 live in other files of the repository
      (sha256.c, chacha.c, curve25519-donna.c) that are not embedded here;
      they are the fields of the class [Externals], and what a proof needs of
      them is stated as a named law and assumed where it is used.
    - A loop of the source whose end is not a bound on a counter is a
      [Fixpoint] on fuel; the function that runs it supplies enough fuel for
      the loop to end by its own test, which the lemmas on the loops show. *)

From Stdlib Require Import ZArith Lia.
From stdpp Require Import base list strings gmap.

Local Open Scope Z_scope.

(** ** Bytes and buffers *)

Definition is_u8 (b : Z) : Prop := 0 <= b < 256.

(** The [len] bytes of [m] at offset [off]. *)
Definition load (m : list Z) (off : Z) (len : nat) : list Z :=
  take len (drop (Z.to_nat off) m).

(** [m] with [data] written at offset [off]. *)
Definition store (m : list Z) (off : Z) (data : list Z) : list Z :=
  take (Z.to_nat off) m ++ data ++ drop (Z.to_nat off + length data) m.

(** [strlen] of a C string given by its characters. *)
Definition strlen (s : list Z) : nat := length s.

(** [memcmp(a, b, n) == 0]. *)
Definition memcmp_eq (a b : list Z) (n : nat) : bool :=
  bool_decide (take n a = take n b).

(** ** The passphrase buffer *)

(** A buffer after the write of one byte, or the index of a write that falls
    outside the buffer (undefined behaviour in C). *)
Inductive written : Type :=
| Buffer (buf : list Z)
| WriteOutOfBounds (i : nat).

(** [buf[i] = b]. *)
Definition write_byte (buf : list Z) (i : nat) (b : Z) : written :=
  if bool_decide (i < length buf)%nat then Buffer (<[i := b]> buf)
  else WriteOutOfBounds i.

(** [strchr(buf, c)]: the index of the first [c] of the string in [buf]. *)
Fixpoint strchr (buf : list Z) (c : Z) : option nat :=
  match buf with
  | [] => None
  | b :: buf' =>
      if bool_decide (b = c) then Some 0%nat
      else if bool_decide (b = 0) then None
      else S <$> strchr buf' c
  end.

(** The string a buffer holds: its bytes before the first NUL. *)
Fixpoint cstring (buf : list Z) : list Z :=
  match buf with
  | [] => []
  | b :: buf' => if bool_decide (b = 0) then [] else b :: cstring buf'
  end.

(** [get_passphrase(buf, len, prompt)] from its [read] on.  [buf] is the
    buffer of the caller, whose size is the [len] it passes, and [typed] is
    what the terminal delivers to the one call of [read], which takes up to
    [len] bytes of it.  The result is the buffer the caller finds. *)
Definition get_passphrase_buf (buf typed : list Z) : written :=
  let len := length buf in
  let got := take len typed in
  let z := length got in
  let buf := got ++ drop z buf in
  if bool_decide (z = 0%nat) then write_byte buf z 0
  else
    match write_byte buf z 0 with
    | WriteOutOfBounds i => WriteOutOfBounds i
    | Buffer buf =>
        match strchr buf 13 with
        | Some e => write_byte buf e 0
        | None =>
            match strchr buf 10 with
            | Some e => write_byte buf e 0
            | None => Buffer buf
            end
        end
    end.

(** The passphrase the caller of [get_passphrase] finds in a buffer of [len]
    bytes when the terminal delivers [typed]: the string the buffer holds, or
    nothing when the function wrote outside the buffer.  The buffer is an
    array the caller has not initialised; the string left in it is the same
    for every state the array was in ([get_passphrase_buf_spec]). *)
Definition typed_passphrase (len : nat) (typed : list Z) : option (list Z) :=
  match get_passphrase_buf (repeat 0 len) typed with
  | Buffer buf => Some (cstring buf)
  | WriteOutOfBounds _ => None
  end.

(** For the proofs: [s] up to its first [c], and the line of a typed entry:
    its string, cut at the first carriage return or, when it has none, at the
    first line feed. *)
Fixpoint upto (c : Z) (s : list Z) : list Z :=
  match s with
  | [] => []
  | b :: s' => if bool_decide (b = c) then [] else b :: upto c s'
  end.

Definition typed_line (typed : list Z) : list Z :=
  let s := cstring typed in
  if bool_decide (elem_of 13 s) then upto 13 s else upto 10 s.

(** ** The world of a run and the monad of the effectful functions *)

(** The messages of [fatal], by the place that raises them. *)
Inductive error : Type :=
| ErrEntropy                 (* failed to gather entropy *)
| ErrPassphrasesDontMatch    (* passphrases don't match *)
| ErrWrongPassphrase         (* wrong passphrase *)
| ErrKeyFileOpen             (* failed to open key file for reading *)
| ErrKeyFileRead             (* failed to read key file *)
| ErrVersionMismatch (expected got : Z)
                             (* secret key version mismatch -- expected %d, got %d *)
| ErrReadIV                  (* failed to read IV from archive *)
| ErrReadEphemeral           (* failed to read ephemeral key from archive *)
| ErrInvalidMasterKey        (* invalid master key or format *)
| ErrCiphertextTooShort      (* ciphertext file too short *)
| ErrChecksumMismatch        (* checksum mismatch! *)
| ErrExclusive               (* --edit and --derive are mutually exclusive *)
| ErrClobber (file : string) (* operation would clobber %s *)
| ErrEditMissing             (* cannot edit non-existing file %s *)
| ErrOutOfFuel               (* not a message of the source: a loop of the model
                                ran out of fuel; [symmetric_encrypt_loop_ends]
                                and [symmetric_decrypt_loop_ends] show that the
                                loops end by their own tests *)
| ErrPassphraseOverflow.     (* not a message of the source: [get_passphrase]
                                wrote outside the buffer of its caller, which
                                is undefined in C; the run is followed no
                                further *)

(** What a run does to its surroundings besides reading and writing. *)
Inductive event : Type :=
| EvPrompt (prompt : string)          (* get_passphrase *)
| EvAgentRead (iv : list Z)           (* agent_read *)
| EvAgentRun (key iv : list Z)        (* agent_run *)
| EvFingerprint (key : list Z).       (* print_fingerprint *)

Record world : Type := World {
  fd_in : list Z;               (* what is left to read from [in] *)
  fd_out : list Z;              (* what was written to [out] *)
  urandom : list Z;             (* what is left of /dev/urandom *)
  tty : list (list Z);          (* what the terminal delivers to each [read] *)
  agent_socket : option (list Z); (* what a key agent would send, if one runs *)
  global_agent_timeout : Z;
  files : gmap string (list Z); (* the key files, by path *)
  trace : list event
}.

Inductive outcome (A : Type) : Type :=
| Done (a : A)
| Fatal (e : error).
Arguments Done {A} a.
Arguments Fatal {A} e.

Definition M (A : Type) : Type := world -> outcome A * world.

Definition ret {A} (a : A) : M A := fun w => (Done a, w).

Definition bind {A B} (m : M A) (k : A -> M B) : M B :=
  fun w => match m w with
           | (Done a, w') => k a w'
           | (Fatal e, w') => (Fatal e, w')
           end.

Definition fatal {A} (e : error) : M A := fun w => (Fatal e, w).

Notation "'let*' x ':=' m 'in' k" := (bind m (fun x => k))
  (at level 10, x pattern, m at level 100, k at level 200).

(** [m] leaves the component [f] of the world as it found it. *)
Definition preserves {A B} (f : world -> B) (m : M A) : Prop :=
  forall w, f (m w).2 = f w.

Definition set_fd_in (w : world) (x : list Z) : world :=
  World x (fd_out w) (urandom w) (tty w) (agent_socket w) (global_agent_timeout w)
    (files w) (trace w).
Definition set_fd_out (w : world) (x : list Z) : world :=
  World (fd_in w) x (urandom w) (tty w) (agent_socket w) (global_agent_timeout w)
    (files w) (trace w).
Definition set_urandom (w : world) (x : list Z) : world :=
  World (fd_in w) (fd_out w) x (tty w) (agent_socket w) (global_agent_timeout w)
    (files w) (trace w).
Definition set_tty (w : world) (x : list (list Z)) : world :=
  World (fd_in w) (fd_out w) (urandom w) x (agent_socket w) (global_agent_timeout w)
    (files w) (trace w).
Definition set_files (w : world) (x : gmap string (list Z)) : world :=
  World (fd_in w) (fd_out w) (urandom w) (tty w) (agent_socket w)
    (global_agent_timeout w) x (trace w).
Definition log (e : event) : M unit :=
  fun w => (Done tt,
            World (fd_in w) (fd_out w) (urandom w) (tty w) (agent_socket w)
              (global_agent_timeout w) (files w) (trace w ++ [e])).

(** [full_read(in, buf, len)]: the bytes read, up to [len] of them. *)
Definition full_read (len : nat) : M (list Z) :=
  fun w => (Done (take len (fd_in w)), set_fd_in w (drop len (fd_in w))).

(** [write(out, buf, len)]. *)
Definition write_out (data : list Z) : M unit :=
  fun w => (Done tt, set_fd_out w (fd_out w ++ data)).

(** [secure_entropy(buf, len)]. *)
Definition secure_entropy (len : nat) : M (list Z) :=
  fun w =>
    let got := take len (urandom w) in
    if bool_decide (length got = len)
    then (Done got, set_urandom w (drop len (urandom w)))
    else (Fatal ErrEntropy, w).

(** [get_passphrase(buf, len, prompt)], for a buffer of [len] bytes: the
    prompt, then one [read] of what the terminal delivers, which is nothing
    when it is at its end.  The caller goes on with the string left in the
    buffer. *)
Definition get_passphrase (len : nat) (prompt : string) : M (list Z) :=
  let* _ := log (EvPrompt prompt) in
  fun w =>
    let '(typed, w) := match tty w with
                       | [] => ([], w)
                       | typed :: rest => (typed, set_tty w rest)
                       end in
    match typed_passphrase len typed with
    | Some pass => (Done pass, w)
    | None => (Fatal ErrPassphraseOverflow, w)
    end.

(** [agent_read(key, iv)]: the key when the agent sent 32 bytes. *)
Definition agent_read (iv : list Z) : M (option (list Z)) :=
  let* _ := log (EvAgentRead (take 8 iv)) in
  fun w => match agent_socket w with
           | Some sent =>
               if bool_decide (32 <= length sent)%nat
               then (Done (Some (take 32 sent)), w)
               else (Done None, w)
           | None => (Done None, w)
           end.

(** [agent_run(key, iv)]: the parent returns at once; the agent is another
    process. *)
Definition agent_run (key iv : list Z) : M unit :=
  log (EvAgentRun (take 32 key) (take 8 iv)).

(** ** What the source takes from other files *)

Class Externals := {
  (** sha256.c: the digest of a whole message. *)
  SHA256 : list Z -> list Z;
  (** chacha.c: the cipher state and its three entry points. *)
  chacha_ctx : Type;
  chacha_keysetup : list Z -> Z -> chacha_ctx;
  chacha_ivsetup : chacha_ctx -> list Z -> chacha_ctx;
  chacha_encrypt_bytes : chacha_ctx -> list Z -> chacha_ctx * list Z;
  (** curve25519-donna.c: [curve25519_donna(p, s, b)] returns [p]. *)
  curve25519_donna : list Z -> list Z -> list Z;
  (** config.h. *)
  ENCHIVE_FORMAT_VERSION : Z;
  (** config.h: the size of the passphrase buffers, positive as the size of
      an array is. *)
  ENCHIVE_PASSPHRASE_MAX : positive;
  (** chacha.h. *)
  CHACHA_BLOCKLENGTH : nat;
  (** The width of [unsigned long] on the platform. *)
  ULONG_BITS : Z
}.

(** Modelled from the spec: sha256.h, which defines [SHA256_BLOCK_SIZE], is
    not embedded here.  The spec gives 32 wherever the source
    writes the constant (the blocks of the key derivation, the MAC, the
    trailing window of the decryption), and the source stores a digest in
    [u8 x[SHA256_BLOCK_SIZE]] and copies [SHA256_BLOCK_SIZE] bytes into
    [u8 protect[32]]. *)
Definition SHA256_BLOCK_SIZE : nat := 32.

Section Enchive.
Context `{Externals}.

Definition ulong (x : Z) : Z := x mod 2 ^ ULONG_BITS.

(** [sizeof(pass)] and [sizeof(pass[0])] for the passphrase buffers
    [char pass[ENCHIVE_PASSPHRASE_MAX]] and
    [char pass[2][ENCHIVE_PASSPHRASE_MAX]]. *)
Definition sizeof_pass : nat := Pos.to_nat ENCHIVE_PASSPHRASE_MAX.

(** Modelled from the spec: the streaming interface of sha256.c
    ([sha256_init], [sha256_update], [sha256_final]) is not embedded here.
    Section 2 of the spec has SHA-256 as a pure function over byte buffers:
    a context stands for the message absorbed so far, and [sha256_final]
    gives the digest of that message. *)
Definition SHA256_CTX : Type := list Z.

Definition sha256_init : SHA256_CTX := [].

Definition sha256_update (ctx : SHA256_CTX) (data : list Z) (len : nat) : SHA256_CTX :=
  ctx ++ take len data.

Definition sha256_final (ctx : SHA256_CTX) : list Z := SHA256 ctx.

(** The laws of the primitives: a digest is 32 bytes. *)
Definition sha256_sized : Prop :=
  forall m, length (SHA256 m) = 32%nat /\ Forall is_u8 (SHA256 m).

(** Decrypting a chunk from the state it was encrypted from gives the chunk
    back and leaves the cipher in the same next state: ChaCha20 XORs its input
    with a keystream that depends on the state and the length only. *)
Definition chacha_lockstep : Prop :=
  forall c m,
    chacha_encrypt_bytes c (chacha_encrypt_bytes c m).2
    = ((chacha_encrypt_bytes c m).1, m).

(** The cipher keeps the length of what it encrypts. *)
Definition chacha_sized : Prop :=
  forall c m, length (chacha_encrypt_bytes c m).2 = length m.

Definition basepoint : list Z := 9 :: repeat 0 31.

(** A point is 32 bytes. *)
Definition donna_sized : Prop :=
  forall s b, length (curve25519_donna s b) = 32%nat.

(** Diffie-Hellman agreement. *)
Definition donna_agree : Prop :=
  forall a b, length a = 32%nat -> length b = 32%nat ->
    curve25519_donna a (curve25519_donna b basepoint)
    = curve25519_donna b (curve25519_donna a basepoint).

(** ** HMAC *)

(** [hmac_init]: the context after the inner pad. *)
Definition hmac_init (key : list Z) : SHA256_CTX :=
  let ctx := sha256_init in
  let pad := (fun b => Z.lxor b 0x36) <$> take SHA256_BLOCK_SIZE key in
  sha256_update ctx pad SHA256_BLOCK_SIZE.

(** [hmac_final]: the MAC written to [hash]. *)
Definition hmac_final (ctx : SHA256_CTX) (key : list Z) : list Z :=
  let hash := sha256_final ctx in
  let ctx := sha256_init in
  let pad := (fun b => Z.lxor b 0x5c) <$> take SHA256_BLOCK_SIZE key in
  let ctx := sha256_update ctx pad SHA256_BLOCK_SIZE in
  let ctx := sha256_update ctx hash SHA256_BLOCK_SIZE in
  sha256_final ctx.

(** The MAC of a whole message as the source computes it: [hmac_init], the
    message absorbed, [hmac_final].  Its pads span [SHA256_BLOCK_SIZE] = 32
    bytes.  This is the construction of HMAC with short pads; it is not
    HMAC-SHA-256, whose pads span the 64-byte block of the hash
    ([HMAC_SHA256] below). *)
Definition hmac_pad32 (key msg : list Z) : list Z :=
  hmac_final (sha256_update (hmac_init key) msg (length msg)) key.

(** ** Key derivation *)

(** The first loop of [key_derive]: [p] runs from [SHA256_BLOCK_SIZE] in steps
    of [SHA256_BLOCK_SIZE] while [p < memlen + SHA256_BLOCK_SIZE]. *)
Fixpoint key_derive_fill (fuel : nat) (memlen : Z) (memory : list Z) (p : Z)
  : list Z * Z :=
  match fuel with
  | O => (memory, p)
  | S fuel' =>
      if p <? memlen + Z.of_nat SHA256_BLOCK_SIZE then
        let ctx := sha256_init in
        let ctx := sha256_update ctx
                     (load memory (p - Z.of_nat SHA256_BLOCK_SIZE) SHA256_BLOCK_SIZE)
                     SHA256_BLOCK_SIZE in
        let memory := store memory p (sha256_final ctx) in
        key_derive_fill fuel' memlen memory (p + Z.of_nat SHA256_BLOCK_SIZE)
      else (memory, p)
  end.

(** The offset read from [memptr[0..3]]. *)
Definition key_derive_offset (memory : list Z) (memptr : Z) : Z :=
  let b i := nth (Z.to_nat (memptr + i)) memory 0 in
  ulong (Z.lor (Z.lor (Z.lor (ulong (Z.shiftl (b 3) 24))
                             (ulong (Z.shiftl (b 2) 16)))
                      (ulong (Z.shiftl (b 1) 8)))
               (ulong (Z.shiftl (b 0) 0))).

(** The second loop of [key_derive], [i] counting up to [iterations]. *)
Fixpoint key_derive_mix (iterations : nat) (mask : Z) (memory : list Z) (memptr : Z)
  : list Z * Z :=
  match iterations with
  | O => (memory, memptr)
  | S n =>
      let ctx := sha256_init in
      let ctx := sha256_update ctx (load memory memptr SHA256_BLOCK_SIZE)
                   SHA256_BLOCK_SIZE in
      let memory := store memory memptr (sha256_final ctx) in
      let offset := key_derive_offset memory memptr in
      key_derive_mix n mask memory (Z.land offset mask)
  end.

Definition key_derive (passphrase : list Z) (iexp : Z) (salt : option (list Z))
  : list Z :=
  let salt32 := repeat 0 SHA256_BLOCK_SIZE in
  let memlen := ulong (Z.shiftl 1 iexp) in
  let mask := ulong (memlen - 1) in
  let iterations := ulong (Z.shiftl 1 (iexp - 5)) in
  let memory := repeat 0 (Z.to_nat (memlen + Z.of_nat SHA256_BLOCK_SIZE)) in
  let salt32 := match salt with
                | Some s => store salt32 0 (take 8 s)
                | None => salt32
                end in
  let ctx := hmac_init salt32 in
  let ctx := sha256_update ctx passphrase (strlen passphrase) in
  let memory := store memory 0 (hmac_final ctx salt32) in
  let '(memory, _) :=
    key_derive_fill (Z.to_nat (memlen / Z.of_nat SHA256_BLOCK_SIZE) + 1) memlen memory
      (Z.of_nat SHA256_BLOCK_SIZE) in
  let memptr := memlen - Z.of_nat SHA256_BLOCK_SIZE in
  let '(memory, memptr) := key_derive_mix (Z.to_nat iterations) mask memory memptr in
  load memory memptr SHA256_BLOCK_SIZE.

(** ** Keys *)

(** The three statements [s[0] &= 248; s[31] &= 127; s[31] |= 64;] that
    [generate_secret] and [command_keygen] both apply. *)
Definition clamp (s : list Z) : list Z :=
  let s := <[0%nat := Z.land (s !!! 0%nat) 248]> s in
  let s := <[31%nat := Z.land (s !!! 31%nat) 127]> s in
  <[31%nat := Z.lor (s !!! 31%nat) 64]> s.

Definition clamped (s : list Z) : Prop :=
  Z.land (s !!! 0%nat) 7 = 0 /\
  Z.land (s !!! 31%nat) 128 = 0 /\
  Z.land (s !!! 31%nat) 64 = 64.

Definition generate_secret : M (list Z) :=
  let* s := secure_entropy 32 in
  ret (clamp s).

Definition compute_public (s : list Z) : list Z :=
  curve25519_donna s basepoint.

Definition compute_shared (s p : list Z) : list Z :=
  curve25519_donna s p.

(** ** The symmetric envelope *)

(** The loop of [symmetric_encrypt].  [buffer[0]] holds what was read,
    [buffer[1]] its encryption. *)
Fixpoint symmetric_encrypt_loop (fuel : nat) (ctx : chacha_ctx) (hmac : SHA256_CTX)
  : M SHA256_CTX :=
  match fuel with
  | O => fatal ErrOutOfFuel
  | S fuel' =>
      let* buffer0 := full_read (CHACHA_BLOCKLENGTH * 1024) in
      let z := length buffer0 in
      if bool_decide (z = 0%nat) then ret hmac
      else
        let hmac := sha256_update hmac buffer0 z in
        let '(ctx, buffer1) := chacha_encrypt_bytes ctx (take z buffer0) in
        let* _ := write_out (take z buffer1) in
        if bool_decide (z < CHACHA_BLOCKLENGTH * 1024)%nat then ret hmac
        else symmetric_encrypt_loop fuel' ctx hmac
  end.

Definition symmetric_encrypt (key iv : list Z) : M unit :=
  let ctx := chacha_keysetup (take 32 key) 256 in
  let ctx := chacha_ivsetup ctx (take 8 iv) in
  let hmac := hmac_init key in
  let* hmac := (fun w => symmetric_encrypt_loop (S (length (fd_in w))) ctx hmac w) in
  let mac := hmac_final hmac key in
  write_out (take SHA256_BLOCK_SIZE mac).

(** The loop of [symmetric_decrypt].  [buffer0] is the front of [buffer[0]]:
    the [SHA256_BLOCK_SIZE] bytes kept back from the previous round. *)
Fixpoint symmetric_decrypt_loop (fuel : nat) (ctx : chacha_ctx) (hmac : SHA256_CTX)
  (buffer0 : list Z) : M (SHA256_CTX * list Z) :=
  match fuel with
  | O => fatal ErrOutOfFuel
  | S fuel' =>
      let* p := full_read (CHACHA_BLOCKLENGTH * 1024 + SHA256_BLOCK_SIZE
                           - SHA256_BLOCK_SIZE) in
      let z := length p in
      if bool_decide (z = 0%nat) then ret (hmac, buffer0)
      else
        let buffer0 := store buffer0 (Z.of_nat SHA256_BLOCK_SIZE) p in
        let '(ctx, buffer1) := chacha_encrypt_bytes ctx (take z buffer0) in
        let hmac := sha256_update hmac buffer1 z in
        let* _ := write_out (take z buffer1) in
        let buffer0 := load buffer0 (Z.of_nat z) SHA256_BLOCK_SIZE in
        if bool_decide (z < CHACHA_BLOCKLENGTH * 1024 + SHA256_BLOCK_SIZE
                            - SHA256_BLOCK_SIZE)%nat
        then ret (hmac, buffer0)
        else symmetric_decrypt_loop fuel' ctx hmac buffer0
  end.

Definition symmetric_decrypt (key iv : list Z) : M unit :=
  let ctx := chacha_keysetup (take 32 key) 256 in
  let ctx := chacha_ivsetup ctx (take 8 iv) in
  let hmac := hmac_init key in
  let* buffer0 := full_read SHA256_BLOCK_SIZE in
  if bool_decide (length buffer0 <> SHA256_BLOCK_SIZE) then fatal ErrCiphertextTooShort
  else
    let* (hmac, buffer0) :=
      (fun w => symmetric_decrypt_loop (S (length (fd_in w))) ctx hmac buffer0 w) in
    let mac := hmac_final hmac key in
    if memcmp_eq buffer0 mac SHA256_BLOCK_SIZE then ret tt
    else fatal ErrChecksumMismatch.

(** ** Key files *)

(** [open(file, O_CREAT | O_WRONLY, 0600)] followed by one [write]: the file is
    not truncated, what it held beyond the written bytes stays. *)
Definition write_file (file : string) (data : list Z) : M unit :=
  fun w =>
    let old := default [] (files w !! file) in
    (Done tt, set_files w (<[file := data ++ drop (length data) old]> (files w))).

Definition file_exists (file : string) : M bool :=
  fun w => (Done (bool_decide (is_Some (files w !! file))), w).

Definition write_pubkey (file : string) (key : list Z) : M unit :=
  write_file file (take 32 key).

Definition SECFILE_IV : Z := 0.
Definition SECFILE_ITERATIONS : Z := 8.
Definition SECFILE_VERSION : Z := 9.
Definition SECFILE_PROTECT_HASH : Z := 12.
Definition SECFILE_SECKEY : Z := 32.

(** [buf + off], as far as the callee reads it. *)
Definition at_offset (buf : list Z) (off : Z) : list Z := drop (Z.to_nat off) buf.

Definition write_seckey (file : string) (seckey : list Z) (iexp : Z) : M unit :=
  let buf := repeat 0 (8 + 1 + 3 + 20 + 32) in
  let protect := repeat 0 32 in
  let buf := store buf SECFILE_VERSION [ENCHIVE_FORMAT_VERSION mod 256] in
  let* (buf, protect, iexp) :=
    if bool_decide (iexp <> 0) then
      let* pass0 := get_passphrase sizeof_pass "passphrase (empty for none): " in
      if bool_decide (pass0 = []) then ret (buf, protect, 0)
      else
        let* pass1 := get_passphrase sizeof_pass "passphrase (repeat): " in
        if bool_decide (pass0 <> pass1) then fatal ErrPassphrasesDontMatch
        else
          let* iv := secure_entropy 8 in
          let buf := store buf SECFILE_IV iv in
          let protect := key_derive pass0 iexp (Some (at_offset buf SECFILE_IV)) in
          let buf := store buf SECFILE_ITERATIONS [iexp mod 256] in
          let sha := sha256_init in
          let sha := sha256_update sha protect 32 in
          let buf := store buf SECFILE_PROTECT_HASH (sha256_final sha) in
          ret (buf, protect, iexp)
    else ret (buf, protect, iexp) in
  let buf :=
    if bool_decide (iexp <> 0) then
      let cha := chacha_keysetup (take 32 protect) 256 in
      let cha := chacha_ivsetup cha (take 8 (at_offset buf SECFILE_IV)) in
      store buf SECFILE_SECKEY (chacha_encrypt_bytes cha (take 32 seckey)).2
    else store buf SECFILE_SECKEY (take 32 seckey) in
  write_file file (take (8 + 1 + 3 + 20 + 32) buf).

Definition load_pubkey (file : string) : M (list Z) :=
  fun w => match files w !! file with
           | None => (Fatal ErrKeyFileOpen, w)
           | Some contents =>
               if bool_decide (length contents < 32)%nat then (Fatal ErrKeyFileRead, w)
               else (Done (take 32 contents), w)
           end.

Definition load_seckey (file : string) : M (list Z) :=
  let* buf := (fun w => match files w !! file with
                        | None => (Fatal ErrKeyFileOpen, w)
                        | Some contents =>
                            if bool_decide (length contents < 8 + 4 + 20 + 32)%nat
                            then (Fatal ErrKeyFileRead, w)
                            else (Done (take (8 + 4 + 20 + 32) contents), w)
                        end) in
  let buf_iv := at_offset buf SECFILE_IV in
  let buf_protect_hash := at_offset buf SECFILE_PROTECT_HASH in
  let buf_seckey := at_offset buf SECFILE_SECKEY in
  let version := buf !!! Z.to_nat SECFILE_VERSION in
  if bool_decide (version <> ENCHIVE_FORMAT_VERSION)
  then fatal (ErrVersionMismatch ENCHIVE_FORMAT_VERSION version)
  else
    let iexp := buf !!! Z.to_nat SECFILE_ITERATIONS in
    if bool_decide (iexp <> 0) then
      let* got := agent_read buf_iv in
      let '(agent_success, protect) :=
        match got with
        | Some protect =>
            let sha := sha256_init in
            let sha := sha256_update sha protect 32 in
            let protect_hash := sha256_final sha in
            (memcmp_eq protect_hash buf_protect_hash 20, protect)
        | None => (false, repeat 0 32)
        end in
      let* protect :=
        if negb agent_success then
          let* pass := get_passphrase sizeof_pass "passphrase: " in
          let protect := key_derive pass iexp (Some buf_iv) in
          let sha := sha256_init in
          let sha := sha256_update sha protect 32 in
          let protect_hash := sha256_final sha in
          if negb (memcmp_eq protect_hash buf_protect_hash 20)
          then fatal ErrWrongPassphrase
          else ret protect
        else ret protect in
      let* timeout := (fun w => (Done (global_agent_timeout w), w)) in
      let* _ := if negb agent_success && bool_decide (timeout <> 0)
                then agent_run protect buf_iv else ret tt in
      let cha := chacha_keysetup (take 32 protect) 256 in
      let cha := chacha_ivsetup cha (take 8 buf_iv) in
      ret (chacha_encrypt_bytes cha (take 32 buf_seckey)).2
    else ret (take 32 buf_seckey).

(** ** Commands *)

(** [print_fingerprint(key)]: what is printed is a function of the first 16
    bytes of the digest of the key. *)
Definition print_fingerprint (key : list Z) : M unit :=
  log (EvFingerprint (take 16 (SHA256 (take 32 key)))).

Record keygen_options : Type := KeygenOptions {
  kg_pubfile : string;
  kg_secfile : string;
  kg_clobber : bool;
  kg_derive : bool;
  kg_edit : bool;
  kg_protect : bool;
  kg_fingerprint : bool;
  kg_key_derive_iterations : Z;
  kg_seckey_derive_iterations : Z
}.

(** The branch of [command_keygen] that fills [secret]. *)
Definition command_keygen_secret (o : keygen_options) (secfile_exists : bool)
  : M (list Z) :=
  if kg_edit o then
    if negb secfile_exists then fatal ErrEditMissing
    else load_seckey (kg_secfile o)
  else if kg_derive o then
    let* pass0 := get_passphrase sizeof_pass "secret key passphrase: " in
    let* pass1 := get_passphrase sizeof_pass "secret key passphrase (repeat): " in
    if bool_decide (pass0 <> pass1) then fatal ErrPassphrasesDontMatch
    else
      let secret := key_derive pass0 (kg_seckey_derive_iterations o) None in
      ret (clamp secret)
  else generate_secret.

(** [command_keygen], once the options are parsed. *)
Definition command_keygen (o : keygen_options) : M unit :=
  if kg_edit o && kg_derive o then fatal ErrExclusive
  else
    let* pubfile_exists := file_exists (kg_pubfile o) in
    let* secfile_exists := file_exists (kg_secfile o) in
    if negb (kg_edit o) && negb (kg_clobber o) && pubfile_exists
    then fatal (ErrClobber (kg_pubfile o))
    else if negb (kg_edit o) && negb (kg_clobber o) && secfile_exists
    then fatal (ErrClobber (kg_secfile o))
    else
      let* secret := command_keygen_secret o secfile_exists in
      let public := compute_public secret in
      let* _ := if kg_fingerprint o then print_fingerprint public else ret tt in
      let* _ := write_seckey (kg_secfile o) secret
                  (if kg_protect o then kg_key_derive_iterations o else 0) in
      write_pubkey (kg_pubfile o) public.

(** [command_archive], from the loading of the public key on; [in] and [out]
    are the descriptors of the world. *)
Definition command_archive (pubfile : string) : M unit :=
  let* public := load_pubkey pubfile in
  let* esecret := generate_secret in
  let epublic := compute_public esecret in
  let shared := compute_shared esecret public in
  let sha := sha256_init in
  let sha := sha256_update sha shared 32 in
  let iv := sha256_final sha in
  let iv := <[0%nat := (iv !!! 0%nat + ENCHIVE_FORMAT_VERSION) mod 256]> iv in
  let* _ := write_out (take 8 iv) in
  let* _ := write_out (take 32 epublic) in
  symmetric_encrypt shared iv.

(** [command_extract], from the loading of the secret key on. *)
Definition command_extract (secfile : string) : M unit :=
  let* secret := load_seckey secfile in
  let* iv := full_read 8 in
  if bool_decide (length iv <> 8%nat) then fatal ErrReadIV
  else
    let* epublic := full_read 32 in
    if bool_decide (length epublic <> 32%nat) then fatal ErrReadEphemeral
    else
      let shared := compute_shared secret epublic in
      let sha := sha256_init in
      let sha := sha256_update sha shared 32 in
      let check_iv := sha256_final sha in
      let check_iv :=
        <[0%nat := (check_iv !!! 0%nat + ENCHIVE_FORMAT_VERSION) mod 256]> check_iv in
      if negb (memcmp_eq iv check_iv 8) then fatal ErrInvalidMasterKey
      else symmetric_decrypt shared iv.

(** ** The specification's side

    What the specification says the HMAC, the key derivation and the archive
    are, written from its words, to compare the source with. *)

(** What the inner and the outer hash of the standard HMAC absorb: the key
    zero-extended to the 64-byte block of SHA-256 and XORed with 64 bytes of
    0x36, then the message; the same with 0x5c, then the inner digest. *)
Definition hmac_standard_inner (key msg : list Z) : list Z :=
  zip_with Z.lxor (take 64 (key ++ repeat 0 64)) (repeat 0x36 64) ++ msg.

Definition hmac_standard_outer (key digest : list Z) : list Z :=
  zip_with Z.lxor (take 64 (key ++ repeat 0 64)) (repeat 0x5c 64) ++ digest.

(** HMAC-SHA-256 of section 4.2, "the standard 64-byte ipad/opad
    discipline", for a key of at most 64 bytes: the digest of the outer pad
    followed by the digest of the inner pad followed by the message. *)
Definition HMAC_SHA256 (key msg : list Z) : list Z :=
  SHA256 (hmac_standard_outer key (SHA256 (hmac_standard_inner key msg))).

(** The 32-bit little-endian integer in the first four bytes of [b]. *)
Definition le32 (b : list Z) : Z :=
  nth 0 b 0 + 256 * nth 1 b 0 + 65536 * nth 2 b 0 + 16777216 * nth 3 b 0.

(** Steps 2 and 3 of section 4.2: the seed, then each block the digest of the
    block before it ([kdf_chain]: the first [k] blocks), up to the block at
    [memlen]. *)
Definition kdf_chain (seed : list Z) (k : nat) : list Z :=
  concat ((fun k => Nat.iter k SHA256 seed) <$> seq 0 k).

Definition kdf_fill (seed : list Z) (memlen : nat) : list Z :=
  kdf_chain seed (memlen / 32 + 1).

(** Step 1 of section 4.2: the 8 bytes of the salt, then zeros; all zeros
    without a salt. *)
Definition salt_block (salt : option (list Z)) : list Z :=
  match salt with
  | Some s => take 8 s ++ repeat 0 24
  | None => repeat 0 32
  end.

(** Step 5 of section 4.2, once. *)
Definition kdf_step (mask : Z) (st : list Z * Z) : list Z * Z :=
  let B := store st.1 st.2 (SHA256 (load st.1 st.2 32)) in
  (B, Z.land (le32 (load B st.2 4)) mask).

(** Steps 2 to 6 of section 4.2, from the seed on. *)
Definition kdf_from_seed (seed : list Z) (iexp : Z) : list Z :=
  let memlen := 2 ^ iexp in
  let mask := memlen - 1 in
  let iterations := 2 ^ (iexp - 5) in
  let B := kdf_fill seed (Z.to_nat memlen) in
  let st := Nat.iter (Z.to_nat iterations) (kdf_step mask) (B, memlen - 32) in
  load st.1 st.2 32.

(** Section 4.2, given the salt block: the seed of step 1 is the HMAC-SHA-256
    of the passphrase under the salt block. *)
Definition kdf_spec (passphrase : list Z) (iexp : Z) (salt_block : list Z) : list Z :=
  kdf_from_seed (HMAC_SHA256 salt_block passphrase) iexp.

(** The invariant of section 3 on the archive IV: the first 8 bytes of the
    digest of the shared secret, byte 0 offset by the format version. *)
Definition archive_iv (shared : list Z) : list Z :=
  let digest := SHA256 (take 32 shared) in
  take 8 (<[0%nat := (digest !!! 0%nat + ENCHIVE_FORMAT_VERSION) mod 256]> digest).

(** Steps 4 and 5 of the encryption of section 4.1: the ciphertext of a
    plaintext that is encrypted block after block of [n] bytes. *)
Fixpoint chacha_stream (fuel n : nat) (ctx : chacha_ctx) (m : list Z) : list Z :=
  match fuel with
  | O => []
  | S fuel' =>
      match m with
      | [] => []
      | _ => (chacha_encrypt_bytes ctx (take n m)).2
             ++ chacha_stream fuel' n (chacha_encrypt_bytes ctx (take n m)).1 (drop n m)
      end
  end.

(** The archive of section 4.1 for a shared secret [shared], the ephemeral
    public key [epublic] and a plaintext; its last 32 bytes are the MAC as
    the source computes it. *)
Definition archive_of (shared epublic plaintext : list Z) : list Z :=
  let iv := archive_iv shared in
  let ctx := chacha_ivsetup (chacha_keysetup shared 256) iv in
  iv ++ epublic
     ++ chacha_stream (S (length plaintext)) (CHACHA_BLOCKLENGTH * 1024) ctx plaintext
     ++ hmac_pad32 shared plaintext.

(** What [command_extract] reports for an input of fewer than 72 bytes, by
    the length of the input and the IV it starts with. *)
Definition short_archive_error (secret input : list Z) : error :=
  if bool_decide (length input < 8)%nat then ErrReadIV
  else if bool_decide (length input < 40)%nat then ErrReadEphemeral
  else if bool_decide
            (take 8 input
             = archive_iv (compute_shared secret (take 32 (drop 8 input))))
  then ErrCiphertextTooShort
  else ErrInvalidMasterKey.

(** No agent answers, or the key it sends does not hash to the tag. *)
Definition agent_declined (w : world) (tag : list Z) : Prop :=
  match agent_socket w with
  | Some sent => (length sent < 32)%nat \/ take 20 (SHA256 (take 32 sent)) <> tag
  | None => True
  end.

(** The secret-key file of section 4.3 for a protected key. *)
Definition protected_seckey_file (iv : list Z) (iexp : Z) (protect seckey : list Z)
  : list Z :=
  iv ++ [iexp; ENCHIVE_FORMAT_VERSION; 0; 0] ++ take 20 (SHA256 protect)
     ++ (chacha_encrypt_bytes
           (chacha_ivsetup (chacha_keysetup protect 256) iv) seckey).2.

End Enchive.

(** ** Command names *)

Definition COMMAND_UNKNOWN : Z := -2.
Definition COMMAND_AMBIGUOUS : Z := -1.
Definition COMMAND_KEYGEN : Z := 0.
Definition COMMAND_FINGERPRINT : Z := 1.
Definition COMMAND_ARCHIVE : Z := 2.
Definition COMMAND_EXTRACT : Z := 3.

Definition command_names : list string :=
  ["keygen"; "fingerprint"; "archive"; "extract"].

(** [strncmp(a, b, n) == 0]. *)
Fixpoint strncmp_eq (a b : string) (n : nat) : bool :=
  match n with
  | O => true
  | S n' =>
      match a, b with
      | EmptyString, EmptyString => true
      | String x a', String y b' => if Ascii.eqb x y then strncmp_eq a' b' n' else false
      | _, _ => false
      end
  end.

(** What a read of the table gives: an entry, or a fault when the index lies
    outside the array (undefined behaviour in C). *)
Inductive parsed : Type :=
| Returned (found : Z)
| OutOfBounds (i : nat).

(** The loop of [parse_command] over the values [i] still to come. *)
Fixpoint parse_command_loop (todo : list nat) (command : string) (found : Z) : parsed :=
  match todo with
  | [] => Returned found
  | i :: todo' =>
      match command_names !! i with
      | None => OutOfBounds i
      | Some name =>
          if strncmp_eq command name (String.length command) then
            if 0 <=? found then Returned COMMAND_AMBIGUOUS
            else parse_command_loop todo' command (Z.of_nat i)
          else parse_command_loop todo' command found
      end
  end.

Definition parse_command (command : string) : parsed :=
  parse_command_loop (seq 0 5) command COMMAND_UNKNOWN.

(** The command names a string is a prefix of. *)
Definition matching_names (command : string) : list string :=
  List.filter (String.prefix command) command_names.

(** ** The command line, the terminal and the files around the commands

    What the commands do before and after the parts above: the names and the
    files they work on, what they print, where the key files and the agent
    are found.
    Text that is printed and the names of files are strings; the environment
    of the process is the function [getenv]; the options of a command are
    given as parsed (optparse.h is not part of this file). *)

Section CommandLine.
Context `{Externals}.

(** *** What [printf] writes *)

(** The hexadecimal digit [d] under [%x]. *)
Definition hex_digit (d : Z) : string :=
  String.substring (Z.to_nat d) 1 "0123456789abcdef".

(** The hexadecimal digits of [n], most significant first, in front of
    [acc]. *)
Fixpoint hex_digits (fuel : nat) (n : Z) (acc : string) : string :=
  match fuel with
  | O => acc
  | S fuel' =>
      let acc := hex_digit (n mod 16) +:+ acc in
      if n / 16 =? 0 then acc else hex_digits fuel' (n / 16) acc
  end.

(** [n] characters 0. *)
Fixpoint zeros (n : nat) : string :=
  match n with
  | O => ""
  | S n' => "0" +:+ zeros n'
  end.

(** [printf] of an unsigned [n] under [%02x] ([width] 2) and [%08lx]
    ([width] 8): the digits of [n], with zeros in front of them up to
    [width] characters. *)
Definition printf_0x (width : nat) (n : Z) : string :=
  let digits := hex_digits (S (Z.to_nat (Z.log2 n))) n "" in
  zeros (width - String.length digits) +:+ digits.

(** The bytes of [l] in hexadecimal, two digits each, in their order. *)
Definition hex_bytes (l : list Z) : string :=
  foldr (fun b s => printf_0x 2 b +:+ s) "" l.

(** For the proofs: the [k] low hexadecimal digits of [n], most significant
    first, in front of [acc]. *)
Fixpoint hex_fixed (k : nat) (n : Z) (acc : string) : string :=
  match k with
  | O => acc
  | S k' => hex_fixed k' (n / 16) (hex_digit (n mod 16) +:+ acc)
  end.

(** *** The fingerprint *)

(** The [chunk] of [print_fingerprint] at [i]. *)
Definition fingerprint_chunk (hash : list Z) (i : nat) : Z :=
  ulong (Z.lor (Z.lor (Z.lor (ulong (Z.shiftl (hash !!! (i + 0)%nat) 24))
                             (ulong (Z.shiftl (hash !!! (i + 1)%nat) 16)))
                      (ulong (Z.shiftl (hash !!! (i + 2)%nat) 8)))
               (ulong (Z.shiftl (hash !!! (i + 3)%nat) 0))).

(** What the loop of [print_fingerprint] prints, [i] stepping by 4 below 16. *)
Definition fingerprint_text (hash : list Z) : string :=
  foldl (fun out i =>
           out +:+ (if bool_decide (i <> 0%nat) then "-" else "")
               +:+ printf_0x 8 (fingerprint_chunk hash i))
    "" [0; 4; 8; 12]%nat.

(** The text [print_fingerprint(key)] prints. *)
Definition print_fingerprint_text (key : list Z) : string :=
  let sha := sha256_init in
  let sha := sha256_update sha key 32 in
  let hash := sha256_final sha in
  fingerprint_text hash.

(** [command_fingerprint], once the options are parsed. *)
Definition command_fingerprint (pubfile : string) : M unit :=
  let* public := load_pubkey pubfile in
  print_fingerprint public.

(** *** The address of the key agent *)

(** [agent_addr(addr, iv)]: the socket path put in [addr->sun_path], an
    array of [sun_path_size] characters, or nothing when the function returns
    0.  [getenv] is the environment of the process. *)
Definition agent_addr (getenv : string -> option string) (sun_path_size : nat)
  (iv : list Z) : option string :=
  let dir := match getenv "XDG_RUNTIME_DIR" with
             | Some dir => dir
             | None => match getenv "TMPDIR" with
                       | Some dir => dir
                       | None => "/tmp"
                       end
             end in
  if bool_decide (sun_path_size < String.length dir + 1 + 16 + 1)%nat then None
  else Some (dir +:+ "/" +:+ printf_0x 2 (iv !!! 0%nat) +:+ printf_0x 2 (iv !!! 1%nat)
                 +:+ printf_0x 2 (iv !!! 2%nat) +:+ printf_0x 2 (iv !!! 3%nat)
                 +:+ printf_0x 2 (iv !!! 4%nat) +:+ printf_0x 2 (iv !!! 5%nat)
                 +:+ printf_0x 2 (iv !!! 6%nat) +:+ printf_0x 2 (iv !!! 7%nat)).

(** *** Reading in pieces *)

(** The loop of [full_read(fd, buf, len)] over a descriptor whose [read]
    hands over the bytes left in pieces: [pieces] gives, call after call, the
    most that [read] will deliver, and [z] is the count of the bytes in
    [buf].  A [read] returns 0 at the end of the stream only.  The result is
    [buf] and what is left of the stream; the return value is the length of
    [buf]. *)
Fixpoint full_read_loop (pieces : list nat) (stream buf : list Z) (z len : nat)
  : list Z * list Z :=
  match pieces with
  | [] => (buf, stream)
  | piece :: pieces' =>
      if bool_decide (z < len)%nat then
        let got := take (piece `min` (len - z)) stream in
        let r := length got in
        if bool_decide (r = 0%nat) then (buf, stream)
        else full_read_loop pieces' (drop r stream) (buf ++ got) (z + r) len
      else (buf, stream)
  end.

(** *** The names of the output files *)

Definition enchive_suffix : string := ".enchive".

(** [joinstr(n, ...)]: the [n] strings, one after the other. *)
Definition joinstr (l : list string) : string := foldr String.append "" l.

(** The output name of [command_archive]: the second argument of the command
    line or, without one, the input name with the suffix. *)
Definition archive_outfile (infile outfile : option string) : option string :=
  match outfile with
  | Some name => Some name
  | None =>
      match infile with
      | Some name => Some (joinstr [name; enchive_suffix])
      | None => None
      end
  end.

(** The output name of [command_extract], or the [fatal] for an input name it
    cannot take the suffix from. *)
Inductive output_name : Type :=
| CouldNotDetermine (infile : string)
| OutputName (outfile : option string).

Definition extract_outfile (infile outfile : option string) : output_name :=
  match outfile with
  | Some name => OutputName (Some name)
  | None =>
      match infile with
      | Some name =>
          let slen := String.length enchive_suffix in
          let len := String.length name in
          if bool_decide (len <= slen)%nat
             || bool_decide (enchive_suffix <> String.substring (len - slen) slen name)
          then CouldNotDetermine name
          else OutputName (Some (String.substring 0 (len - slen) name))
      | None => OutputName None
      end
  end.

(** *** The default key files *)

(** The messages of [fatal] in [storage_directory] before its loop. *)
Inductive storage_error : Type :=
| ErrNoHome              (* no $HOME or $XDG_CONFIG_HOME, giving up *)
| ErrHomeNotAbsolute     (* $HOME is not absolute *)
| ErrXdgNotAbsolute.     (* $XDG_CONFIG_HOME is not absolute *)

(** The path [storage_directory(file)] builds from the environment and
    returns, or the [fatal] of an environment it cannot use.  The loop that
    follows in the source, below, makes the directories of the path; its
    [mkdir] and [opendir] are taken to succeed, like the other calls of the
    system. *)
Definition storage_directory (getenv : string -> option string) (file : string)
  : storage_error + string :=
  match getenv "XDG_CONFIG_HOME" with
  | None =>
      match getenv "HOME" with
      | None => inl ErrNoHome
      | Some home =>
          if bool_decide (String.substring 0 1 home <> "/") then inl ErrHomeNotAbsolute
          else inr (joinstr [home; "/.config"; "/enchive/"; file])
      end
  | Some xdg_config_home =>
      if bool_decide (String.substring 0 1 xdg_config_home <> "/")
      then inl ErrXdgNotAbsolute
      else inr (joinstr [xdg_config_home; "/enchive/"; file])
  end.

(** The loop of [storage_directory]: [s] runs over the slashes of [path]
    after its first character, and at each of them the directory named by
    what precedes the slash is looked up, made when it is not there, and
    opened.  [seen] is the part of [path] before the character looked at; the
    result is the directories, in the order of the loop. *)
Fixpoint storage_directory_loop (seen rest : string) : list string :=
  match rest with
  | EmptyString => []
  | String c rest' =>
      (if bool_decide (String c "" = "/") then [seen] else [])
      ++ storage_directory_loop (seen +:+ String c "") rest'
  end.

(** The directories of the loop for [path], from [strchr(path + 1, '/')]
    on. *)
Definition storage_directory_dirs (path : string) : list string :=
  match path with
  | EmptyString => []
  | String c rest => storage_directory_loop (String c "") rest
  end.

(** [default_pubfile()] and [default_secfile()]. *)
Definition default_pubfile (getenv : string -> option string) : storage_error + string :=
  storage_directory getenv "enchive.pub".

Definition default_secfile (getenv : string -> option string) : storage_error + string :=
  storage_directory getenv "enchive.sec".

(** *** The commands on files *)

(** The option and the arguments of [command_archive] and
    [command_extract]. *)
Record file_options : Type := FileOptions {
  fo_delete : bool;
  fo_infile : option string;
  fo_outfile : option string
}.

(** How such a command ends: well, or with a [fatal]. *)
Inductive exit_status : Type :=
| ExitSuccess
| ExitFatal (e : error)              (* a message of the functions above *)
| ExitOpenInput (infile : string)    (* could not open input file *)
| ExitOutputName (infile : string).  (* could not determine output filename *)

(** [in = open(infile, O_RDONLY)], when there is an [infile]: from then on
    the descriptor [in] of the world reads the file. *)
Definition open_in (infile : option string) (w : world) : option world :=
  match infile with
  | None => Some w
  | Some name =>
      match files w !! name with
      | Some contents => Some (set_fd_in w contents)
      | None => None
      end
  end.

(** [out = open(outfile, O_CREAT | O_WRONLY, 0600)], when there is an
    [outfile]: a file that is not there is created, one that is there is left
    as it is, and the descriptor [out] of the world writes from its start. *)
Definition open_out (outfile : option string) (w : world) : world :=
  match outfile with
  | None => w
  | Some name =>
      set_fd_out (set_files w (<[name := default [] (files w !! name)]> (files w))) []
  end.

(** The output file once what went to [out] is in it. *)
Definition close_out (outfile : option string) (w : world) : world :=
  match outfile with
  | None => w
  | Some name => (write_file name (fd_out w) w).2
  end.

(** [remove(name)], for a name that is given. *)
Definition remove (name : option string) (w : world) : world :=
  match name with
  | None => w
  | Some name => set_files w (delete name (files w))
  end.

(** [command_archive] from the ephemeral key pair on, and [command_extract]
    from the header of the archive on: the parts that work on [in] and
    [out]. *)
Definition command_archive_stream (public : list Z) : M unit :=
  let* esecret := generate_secret in
  let epublic := compute_public esecret in
  let shared := compute_shared esecret public in
  let sha := sha256_init in
  let sha := sha256_update sha shared 32 in
  let iv := sha256_final sha in
  let iv := <[0%nat := (iv !!! 0%nat + ENCHIVE_FORMAT_VERSION) mod 256]> iv in
  let* _ := write_out (take 8 iv) in
  let* _ := write_out (take 32 epublic) in
  symmetric_encrypt shared iv.

Definition command_extract_stream (secret : list Z) : M unit :=
  let* iv := full_read 8 in
  if bool_decide (length iv <> 8%nat) then fatal ErrReadIV
  else
    let* epublic := full_read 32 in
    if bool_decide (length epublic <> 32%nat) then fatal ErrReadEphemeral
    else
      let shared := compute_shared secret epublic in
      let sha := sha256_init in
      let sha := sha256_update sha shared 32 in
      let check_iv := sha256_final sha in
      let check_iv :=
        <[0%nat := (check_iv !!! 0%nat + ENCHIVE_FORMAT_VERSION) mod 256]> check_iv in
      if negb (memcmp_eq iv check_iv 8) then fatal ErrInvalidMasterKey
      else symmetric_decrypt shared iv.

(** [command_archive] and [command_extract] with their files, once the
    options are parsed.  A [fatal] removes the output file from the moment it
    is opened ([cleanup_outfile]).  The descriptor [in] reads the input file
    as it was when it was opened, and what went to [out] is in the output
    file when the command ends: this is the run of the source when the input
    and the output are different files. *)
Definition command_archive_files (pubfile : string) (o : file_options)
  : world -> exit_status * world :=
  fun w =>
    match load_pubkey pubfile w with
    | (Fatal e, w) => (ExitFatal e, w)
    | (Done public, w) =>
        match open_in (fo_infile o) w with
        | None => (ExitOpenInput (default "" (fo_infile o)), w)
        | Some w =>
            let outfile := archive_outfile (fo_infile o) (fo_outfile o) in
            let w := open_out outfile w in
            match command_archive_stream public w with
            | (Fatal e, w) => (ExitFatal e, remove outfile w)
            | (Done _, w) =>
                let w := close_out outfile w in
                (ExitSuccess, if fo_delete o then remove (fo_infile o) w else w)
            end
        end
    end.

Definition command_extract_files (secfile : string) (o : file_options)
  : world -> exit_status * world :=
  fun w =>
    match load_seckey secfile w with
    | (Fatal e, w) => (ExitFatal e, w)
    | (Done secret, w) =>
        match open_in (fo_infile o) w with
        | None => (ExitOpenInput (default "" (fo_infile o)), w)
        | Some w =>
            match extract_outfile (fo_infile o) (fo_outfile o) with
            | CouldNotDetermine infile => (ExitOutputName infile, w)
            | OutputName outfile =>
                let w := open_out outfile w in
                match command_extract_stream secret w with
                | (Fatal e, w) => (ExitFatal e, remove outfile w)
                | (Done _, w) =>
                    let w := close_out outfile w in
                    (ExitSuccess, if fo_delete o then remove (fo_infile o) w else w)
                end
            end
        end
    end.

(** The program built with another [ENCHIVE_FORMAT_VERSION], all else being
    the same. *)
Definition with_version (v : Z) : Externals := {|
  SHA256 := SHA256;
  chacha_ctx := chacha_ctx;
  chacha_keysetup := chacha_keysetup;
  chacha_ivsetup := chacha_ivsetup;
  chacha_encrypt_bytes := chacha_encrypt_bytes;
  curve25519_donna := curve25519_donna;
  ENCHIVE_FORMAT_VERSION := v;
  ENCHIVE_PASSPHRASE_MAX := ENCHIVE_PASSPHRASE_MAX;
  CHACHA_BLOCKLENGTH := CHACHA_BLOCKLENGTH;
  ULONG_BITS := ULONG_BITS
|}.

(** *** A frame condition

    [m] only adds to the trace. *)
Definition trace_grows {A} (m : M A) : Prop :=
  forall w, exists t, trace (m w).2 = trace w ++ t.

End CommandLine.

(** ** A small instance of the externals

    Stand-ins of the right shape for the three primitives, to run the
    development on concrete inputs: a digest of 32 bytes, a cipher that XORs
    with a byte of its state, and a commutative scalar action on 32 bytes. *)

Definition toy_sum (l : list Z) : Z := foldr Z.add 0 l.

Definition toy_sha256 (m : list Z) : list Z :=
  let h := foldl (fun acc b => (acc * 257 + b + 1) mod 1000003) 7 m in
  (fun i => ((h + 1) * (2 * Z.of_nat i + 3) / 8) mod 256) <$> seq 0 32.

Definition toy_keysetup (key : list Z) (kbits : Z) : Z := toy_sum key mod 256.

Definition toy_ivsetup (c : Z) (iv : list Z) : Z := (c + toy_sum iv) mod 256.

Definition toy_encrypt_bytes (c : Z) (m : list Z) : Z * list Z :=
  ((c + Z.of_nat (length m)) mod 256, Z.lxor c <$> m).

Definition toy_donna (s b : list Z) : list Z :=
  (fun x => (x + toy_sum s) mod 256) <$> take 32 (b ++ repeat 0 32).

Definition toy : Externals := {|
  SHA256 := toy_sha256;
  chacha_ctx := Z;
  chacha_keysetup := toy_keysetup;
  chacha_ivsetup := toy_ivsetup;
  chacha_encrypt_bytes := toy_encrypt_bytes;
  curve25519_donna := toy_donna;
  ENCHIVE_FORMAT_VERSION := 3;
  ENCHIVE_PASSPHRASE_MAX := 1024;
  CHACHA_BLOCKLENGTH := 64;
  ULONG_BITS := 64
|}.

(** Concrete inputs: a passphrase, a salt, a secret scalar, an unprotected
    key file holding it, and the worlds of an archive and of an extract run. *)
Definition toy_passphrase : list Z := [112; 97; 115; 115; 119; 111; 114; 100].

(** The passphrase as it is typed: with the line feed of the terminal. *)
Definition toy_typed : list Z := toy_passphrase ++ [10].

Definition toy_salt : list Z := [0; 1; 2; 3; 4; 5; 6; 7].

Definition toy_sec : list Z := clamp (Z.of_nat <$> seq 1 32).

Definition toy_plain_secfile (version : Z) : list Z :=
  repeat 0 8 ++ [0; version; 0; 0] ++ repeat 0 20 ++ toy_sec.

Definition toy_archive_world (plaintext : list Z) : world :=
  World plaintext [] (Z.of_nat <$> seq 100 40) [] None 0
    {["pub" := @compute_public toy toy_sec]} [].

Definition toy_extract_world (version : Z) (input : list Z) : world :=
  World input [] [] [] None 0 {["sec" := toy_plain_secfile version]} [].

(** The archive of the two bytes "hi". *)
Definition toy_archive : list Z :=
  fd_out (@command_archive toy "pub" (toy_archive_world [104; 105])).2.

(** The archive of the empty plaintext. *)
Definition toy_empty_archive : list Z :=
  fd_out (@command_archive toy "pub" (toy_archive_world [])).2.

Definition toy_keygen_world : world :=
  World [] [] (Z.of_nat <$> seq 7 48) [toy_typed; toy_typed] None 0 ∅ [].

Definition toy_keygen_options : keygen_options :=
  KeygenOptions "pub" "sec" false false false true false 5 5.

(** A world whose key file is the one of [files], with one entry at the
    terminal and no agent. *)
Definition toy_load_world (files : gmap string (list Z)) (typed : list Z) : world :=
  World [] [] [] [typed] None 0 files [].

(** Further inputs: an archive whose MAC is replaced by zeros; a protected
    key file, the key that protects it and worlds to load it in; the options
    of [command_keygen] without protection; a world with files to archive
    and to extract. *)
Definition toy_tampered_archive : list Z := take 42 toy_archive ++ repeat 0 32.

Definition toy_protect : list Z := @key_derive toy toy_passphrase 5 (Some toy_salt).

Definition toy_protected_secfile : list Z :=
  @protected_seckey_file toy toy_salt 5 toy_protect toy_sec.

Definition toy_agent_world (sent : option (list Z)) (timeout : Z) : world :=
  World [] [] [] [toy_typed] sent timeout {["sec" := toy_protected_secfile]} [].

Definition toy_mismatch_world : world :=
  World [] [] (Z.of_nat <$> seq 7 48) [toy_typed; [120; 10]] None 0 ∅ [].

Definition toy_plain_options (fingerprint : bool) : keygen_options :=
  KeygenOptions "pub" "sec" false false false false fingerprint 5 5.

Definition toy_files_world : world :=
  World [] [] (Z.of_nat <$> seq 100 40) [] None 0
    {["pub" := (@compute_public toy toy_sec); "sec" := (toy_plain_secfile 3);
      "a" := [104; 105]; "b.enchive" := (repeat 0 40); "b" := [1; 2; 3]]} [].

Definition toy_edit_options : keygen_options :=
  KeygenOptions "pub" "sec" false false true false false 5 5.

Definition toy_derive_options : keygen_options :=
  KeygenOptions "pub" "sec" false true false false false 5 5.

Definition toy_getenv (name : string) : option string :=
  if bool_decide (name = "HOME") then Some "/home/u" else None.

(** * Properties *)

(** ** Buffers *)

Lemma length_load m off len :
  (Z.to_nat off + len <= length m)%nat -> length (load m off len) = len.
Proof. unfold load. intros. rewrite length_take, length_drop. lia. Qed.

Lemma length_store m off data :
  (Z.to_nat off + length data <= length m)%nat ->
  length (store m off data) = length m.
Proof. unfold store. intros. rewrite !length_app, length_take, length_drop. lia. Qed.

Lemma load_store m off data :
  (Z.to_nat off <= length m)%nat ->
  load (store m off data) off (length data) = data.
Proof.
  unfold load, store. intros.
  rewrite drop_app_length' by (rewrite length_take; lia).
  apply take_app_length.
Qed.

Lemma load_store_prefix m off data n :
  (Z.to_nat off <= length m)%nat -> (n <= length data)%nat ->
  load (store m off data) off n = take n data.
Proof.
  unfold load, store. intros.
  rewrite drop_app_length' by (rewrite length_take; lia).
  by rewrite take_app_le.
Qed.

Lemma nth_store m off data i :
  0 <= off -> (Z.to_nat off <= length m)%nat -> 0 <= i < Z.of_nat (length data) ->
  nth (Z.to_nat (off + i)) (store m off data) 0 = nth (Z.to_nat i) data 0.
Proof.
  unfold store. intros.
  rewrite app_nth2 by (rewrite length_take; lia).
  rewrite length_take, app_nth1 by lia.
  f_equal. lia.
Qed.

Lemma store_app_l a b data :
  store (a ++ b) (Z.of_nat (length a)) data = a ++ data ++ drop (length data) b.
Proof.
  unfold store. rewrite Nat2Z.id, take_app_length, drop_app_ge by lia.
  do 3 f_equal. lia.
Qed.

Lemma load_app_r a b len :
  load (a ++ b) (Z.of_nat (length a)) len = take len b.
Proof. unfold load. by rewrite Nat2Z.id, drop_app_length. Qed.

(** ** Command names *)

Lemma parse_command_nonempty a s :
  parse_command (String a s) = OutOfBounds 4.
Proof.
  unfold parse_command. simpl.
  destruct a as [[] [] [] [] [] [] [] []]; simpl; try reflexivity;
    destruct (strncmp_eq s _ _); reflexivity.
Qed.

(** ** Clamping *)

Lemma land_248_idem x : Z.land (Z.land x 248) 248 = Z.land x 248.
Proof. by rewrite <- Z.land_assoc. Qed.

Lemma clamp_high_idem x :
  Z.lor (Z.land (Z.lor (Z.land x 127) 64) 127) 64 = Z.lor (Z.land x 127) 64.
Proof.
  rewrite Z.land_lor_distr_l, <- Z.land_assoc, <- Z.lor_assoc. reflexivity.
Qed.

Lemma clamp_eq s :
  clamp s = <[31%nat := Z.lor (Z.land (s !!! 31%nat) 127) 64]>
              (<[0%nat := Z.land (s !!! 0%nat) 248]> s).
Proof.
  unfold clamp. cbv zeta.
  rewrite (list_lookup_total_insert_ne s 0 31) by lia.
  rewrite list_lookup_total_insert. case_decide as Hin.
  - by rewrite list_insert_insert_eq.
  - rewrite length_insert in Hin.
    rewrite !(list_insert_ge _ 31); rewrite ?length_insert; [done | lia..].
Qed.

Lemma clamp_idempotent s : clamp (clamp s) = clamp s.
Proof.
  rewrite (clamp_eq (clamp s)), (clamp_eq s).
  set (f0 := Z.land (s !!! 0%nat) 248).
  set (f31 := Z.lor (Z.land (s !!! 31%nat) 127) 64).
  destruct (decide (31 < length s)%nat) as [Hlen | Hlen].
  - rewrite list_lookup_total_insert_eq by (rewrite length_insert; lia).
    rewrite (list_lookup_total_insert_ne _ 31 0) by lia.
    rewrite list_lookup_total_insert_eq by lia.
    subst f0 f31. rewrite land_248_idem, clamp_high_idem.
    rewrite (list_insert_insert_ne _ 0 31) by lia.
    by rewrite !list_insert_insert_eq.
  - rewrite !(list_insert_ge _ 31) by (rewrite ?length_insert; lia).
    destruct s as [| x s']; [done |].
    simpl. subst f0. simpl. by rewrite land_248_idem.
Qed.

Lemma clamp_clamped s : length s = 32%nat -> clamped (clamp s).
Proof.
  intros Hlen. rewrite clamp_eq. unfold clamped.
  rewrite (list_lookup_total_insert_ne _ 31 0) by lia.
  rewrite !list_lookup_total_insert_eq by (rewrite ?length_insert; lia).
  repeat split.
  - rewrite <- Z.land_assoc. apply Z.land_0_r.
  - rewrite Z.land_lor_distr_l, <- Z.land_assoc.
    change (Z.land 127 128) with 0. by rewrite Z.land_0_r.
  - rewrite Z.land_lor_distr_l, <- Z.land_assoc.
    change (Z.land 127 64) with 64. change (Z.land 64 64) with 64.
    apply Z.bits_inj'. intros n _.
    rewrite Z.lor_spec, Z.land_spec.
    destruct (Z.testbit _ n), (Z.testbit 64 n); reflexivity.
Qed.

Lemma length_clamp s : length (clamp s) = length s.
Proof. unfold clamp. by rewrite !length_insert. Qed.

(** ** Little-endian words *)

Lemma lor_shiftl_add a b n :
  0 <= n -> 0 <= b < 2 ^ n -> Z.lor (Z.shiftl a n) b = a * 2 ^ n + b.
Proof.
  intros Hn Hb.
  assert (Hdisj : Z.land (Z.shiftl a n) b = 0).
  { apply Z.bits_inj'. intros m Hm. rewrite Z.land_spec, Z.bits_0.
    destruct (Z.lt_ge_cases m n).
    - by rewrite Z.shiftl_spec_low by lia.
    - rewrite <- (Z.mod_small b (2 ^ n)) by lia.
      rewrite Z.mod_pow2_bits_high by lia. apply andb_false_r. }
  rewrite <- Z.lxor_lor, <- Z.add_nocarry_lxor by done.
  by rewrite Z.shiftl_mul_pow2.
Qed.

Lemma le32_of_bytes b0 b1 b2 b3 :
  is_u8 b0 -> is_u8 b1 -> is_u8 b2 -> is_u8 b3 ->
  Z.lor (Z.lor (Z.lor (Z.shiftl b3 24) (Z.shiftl b2 16)) (Z.shiftl b1 8))
        (Z.shiftl b0 0)
  = b0 + 256 * b1 + 65536 * b2 + 16777216 * b3.
Proof.
  unfold is_u8. intros.
  replace (Z.shiftl b3 24) with (Z.shiftl (Z.shiftl (Z.shiftl b3 8) 8) 8)
    by (rewrite !Z.shiftl_shiftl by lia; reflexivity).
  replace (Z.shiftl b2 16) with (Z.shiftl (Z.shiftl b2 8) 8)
    by (rewrite !Z.shiftl_shiftl by lia; reflexivity).
  rewrite Z.shiftl_0_r, <- !Z.shiftl_lor.
  rewrite !lor_shiftl_add by lia. lia.
Qed.

Section Properties.
Context `{Externals}.

Lemma ulong_small x : 32 <= ULONG_BITS -> 0 <= x < 2 ^ 32 -> ulong x = x.
Proof.
  unfold ulong. intros Hw Hx. apply Z.mod_small. split; [lia |].
  eapply Z.lt_le_trans; [apply Hx |]. apply Z.pow_le_mono_r; lia.
Qed.

Lemma key_derive_offset_le32 b0 b1 b2 b3 :
  32 <= ULONG_BITS -> is_u8 b0 -> is_u8 b1 -> is_u8 b2 -> is_u8 b3 ->
  ulong (Z.lor (Z.lor (Z.lor (ulong (Z.shiftl b3 24)) (ulong (Z.shiftl b2 16)))
                      (ulong (Z.shiftl b1 8)))
               (ulong (Z.shiftl b0 0)))
  = b0 + 256 * b1 + 65536 * b2 + 16777216 * b3.
Proof.
  unfold is_u8. intros Hw ? ? ? ?.
  rewrite !(ulong_small (Z.shiftl _ _)) by (rewrite ?Z.shiftl_mul_pow2; lia).
  rewrite le32_of_bytes by done.
  apply ulong_small; lia.
Qed.

(** ** Key derivation *)

Lemma length_kdf_block seed k :
  sha256_sized -> length seed = 32%nat -> length (Nat.iter k SHA256 seed) = 32%nat.
Proof. intros Hsha Hseed. destruct k; [done |]. simpl. apply Hsha. Qed.

Lemma kdf_chain_S seed k :
  kdf_chain seed (S k) = kdf_chain seed k ++ Nat.iter k SHA256 seed.
Proof.
  unfold kdf_chain. rewrite seq_S, fmap_app, concat_app. simpl.
  by rewrite app_nil_r.
Qed.

Lemma length_kdf_chain seed k :
  sha256_sized -> length seed = 32%nat -> length (kdf_chain seed k) = (32 * k)%nat.
Proof.
  intros Hsha Hseed. induction k as [| k IH]; [done |].
  rewrite kdf_chain_S, length_app, IH, length_kdf_block by done. lia.
Qed.

Lemma key_derive_fill_S fuel memlen memory p :
  key_derive_fill (S fuel) memlen memory p
  = if p <? memlen + 32 then
      key_derive_fill fuel memlen
        (store memory p (SHA256 (take 32 (load memory (p - 32) 32)))) (p + 32)
    else (memory, p).
Proof. reflexivity. Qed.

Lemma key_derive_fill_chain seed n fuel :
  sha256_sized -> length seed = 32%nat ->
  forall k rest,
    (k <= n)%nat -> (n - k < fuel)%nat -> length rest = (32 * (n - k))%nat ->
    key_derive_fill fuel (32 * Z.of_nat n) (kdf_chain seed (S k) ++ rest)
      (32 * Z.of_nat (S k))
    = (kdf_chain seed (S n), 32 * Z.of_nat (S n)).
Proof.
  intros Hsha Hseed. induction fuel as [| fuel IH]; intros k rest Hk Hfuel Hrest;
    [lia |].
  rewrite key_derive_fill_S.
  destruct (Z.ltb_spec (32 * Z.of_nat (S k)) (32 * Z.of_nat n + 32)) as [Hlt | Hge].
  - assert (Hload : load (kdf_chain seed (S k) ++ rest) (32 * Z.of_nat (S k) - 32) 32
                    = Nat.iter k SHA256 seed).
    { rewrite kdf_chain_S, <- app_assoc.
      replace (32 * Z.of_nat (S k) - 32) with (Z.of_nat (length (kdf_chain seed k)))
        by (rewrite length_kdf_chain by done; lia).
      rewrite load_app_r. apply take_app_length'. by rewrite length_kdf_block. }
    rewrite Hload, take_ge by (rewrite length_kdf_block by done; lia).
    change (SHA256 (Nat.iter k SHA256 seed)) with (Nat.iter (S k) SHA256 seed).
    replace (32 * Z.of_nat (S k)) with (Z.of_nat (length (kdf_chain seed (S k))))
      by (rewrite length_kdf_chain by done; lia).
    rewrite store_app_l, app_assoc, <- kdf_chain_S.
    rewrite length_kdf_chain, length_kdf_block by done.
    replace (Z.of_nat (32 * S k) + 32) with (32 * Z.of_nat (S (S k))) by lia.
    apply IH; [lia | lia |]. rewrite length_drop. lia.
  - assert (k = n) as -> by lia.
    destruct rest; [| simpl in Hrest; lia]. by rewrite app_nil_r.
Qed.

Lemma key_derive_mix_S n mask memory memptr :
  key_derive_mix (S n) mask memory memptr
  = key_derive_mix n mask
      (store memory memptr (SHA256 (take 32 (load memory memptr 32))))
      (Z.land (key_derive_offset
                 (store memory memptr (SHA256 (take 32 (load memory memptr 32))))
                 memptr) mask).
Proof. reflexivity. Qed.

Lemma sha256_u8 m i : sha256_sized -> is_u8 (nth i (SHA256 m) 0).
Proof.
  intros Hsha. destruct (Hsha m) as [Hlen Hall].
  destruct (decide (i < length (SHA256 m))%nat).
  - by apply Forall_nth.
  - rewrite nth_overflow by lia. unfold is_u8. lia.
Qed.

Lemma nth_take_lt (l : list Z) n i : (i < n)%nat -> nth i (take n l) 0 = nth i l 0.
Proof. intros. by rewrite !nth_lookup, lookup_take_lt. Qed.

(** One round of the second loop is step 5 of the specification, and keeps
    the pointer inside the buffer. *)
Lemma key_derive_mix_step e memory memptr :
  sha256_sized -> 32 <= ULONG_BITS -> 0 <= e ->
  0 <= memptr < 2 ^ e -> (Z.to_nat (2 ^ e) + 32 <= length memory)%nat ->
  let memory' := store memory memptr (SHA256 (take 32 (load memory memptr 32))) in
  let memptr' := Z.land (key_derive_offset memory' memptr) (2 ^ e - 1) in
  (memory', memptr') = kdf_step (2 ^ e - 1) (memory, memptr)
  /\ length memory' = length memory /\ 0 <= memptr' < 2 ^ e.
Proof.
  intros Hsha Hw He Hptr Hlen memory' memptr'.
  assert (Hload : length (load memory memptr 32) = 32%nat)
    by (apply length_load; lia).
  assert (Hmem : memory' = store memory memptr (SHA256 (load memory memptr 32)))
    by (subst memory'; by rewrite take_ge by lia).
  set (h := SHA256 (load memory memptr 32)) in *.
  assert (Hh : length h = 32%nat) by apply Hsha.
  assert (Hoff : key_derive_offset memory' memptr = le32 (load memory' memptr 4)).
  { unfold key_derive_offset, le32. rewrite Hmem.
    rewrite load_store_prefix by lia.
    rewrite !nth_take_lt by lia.
    rewrite !nth_store by lia.
    apply key_derive_offset_le32; try done; by apply sha256_u8. }
  split; [| split].
  - unfold kdf_step. simpl. fold h. rewrite <- Hmem. subst memptr'. by rewrite Hoff.
  - rewrite Hmem. apply length_store. lia.
  - subst memptr'. replace (2 ^ e - 1) with (Z.ones e)
      by (rewrite Z.ones_equiv; lia).
    rewrite Z.land_ones by done. by apply Z.mod_pos_bound, Z.pow_pos_nonneg.
Qed.

Lemma key_derive_mix_spec e n :
  sha256_sized -> 32 <= ULONG_BITS -> 0 <= e ->
  forall memory memptr,
    0 <= memptr < 2 ^ e -> (Z.to_nat (2 ^ e) + 32 <= length memory)%nat ->
    key_derive_mix n (2 ^ e - 1) memory memptr
    = Nat.iter n (kdf_step (2 ^ e - 1)) (memory, memptr)
    /\ length (key_derive_mix n (2 ^ e - 1) memory memptr).1 = length memory
    /\ 0 <= (key_derive_mix n (2 ^ e - 1) memory memptr).2 < 2 ^ e.
Proof.
  intros Hsha Hw He. induction n as [| n IH]; intros memory memptr Hptr Hlen.
  - simpl. done.
  - rewrite key_derive_mix_S, Nat.iter_succ_r.
    destruct (key_derive_mix_step e memory memptr Hsha Hw He Hptr Hlen)
      as (Hstep & Hlen' & Hptr').
    cbv zeta in Hstep, Hlen', Hptr'. rewrite <- Hstep.
    destruct (IH _ _ Hptr' ltac:(by rewrite Hlen')) as (Heq & Hl & Hp).
    rewrite <- Hlen'. done.
Qed.

Lemma length_salt_block salt :
  (forall s, salt = Some s -> (8 <= length s)%nat) ->
  length (salt_block salt) = 32%nat.
Proof.
  intros Hs. destruct salt as [s |]; [| done].
  specialize (Hs s eq_refl). unfold salt_block.
  rewrite length_app, length_take, repeat_length. lia.
Qed.

(** The salt block the source builds in [salt32]. *)
Lemma key_derive_salt32 salt :
  (forall s, salt = Some s -> (8 <= length s)%nat) ->
  match salt with
  | Some s => store (repeat 0 SHA256_BLOCK_SIZE) 0 (take 8 s)
  | None => repeat 0 SHA256_BLOCK_SIZE
  end = salt_block salt.
Proof.
  intros Hs. destruct salt as [s |]; [| done].
  specialize (Hs s eq_refl). unfold store, salt_block.
  rewrite length_take, Nat.min_l by lia. reflexivity.
Qed.

Lemma pow2_iexp iexp :
  5 <= iexp <= 31 ->
  2 ^ iexp = 32 * Z.of_nat (Z.to_nat (2 ^ (iexp - 5))) /\
  32 <= 2 ^ iexp < 2 ^ 32 /\ 1 <= 2 ^ (iexp - 5) < 2 ^ 32.
Proof.
  intros Hi.
  assert (H5 : 2 ^ iexp = 32 * 2 ^ (iexp - 5)).
  { replace iexp with (5 + (iexp - 5)) at 1 by lia.
    rewrite Z.pow_add_r by lia. reflexivity. }
  assert (0 < 2 ^ (iexp - 5)) by (apply Z.pow_pos_nonneg; lia).
  assert (2 ^ iexp < 2 ^ 32) by (apply Z.pow_lt_mono_r; lia).
  rewrite Z2Nat.id by lia. lia.
Qed.

(** [key_derive] runs steps 2 to 6 of section 4.2 from the MAC it computes
    as seed, for either kind of salt, and returns 32 bytes. *)
Lemma key_derive_kdf_from_seed passphrase iexp salt :
  sha256_sized -> 32 <= ULONG_BITS -> 5 <= iexp <= 31 ->
  (forall s, salt = Some s -> (8 <= length s)%nat) ->
  key_derive passphrase iexp salt
  = kdf_from_seed (hmac_pad32 (salt_block salt) passphrase) iexp
  /\ length (key_derive passphrase iexp salt) = 32%nat.
Proof.
  intros Hsha Hw Hi Hs.
  destruct (pow2_iexp iexp Hi) as (Hn & Hmem & Hit).
  set (n := Z.to_nat (2 ^ (iexp - 5))) in *.
  unfold key_derive, kdf_from_seed.
  rewrite key_derive_salt32 by done.
  rewrite !Z.shiftl_1_l.
  rewrite (ulong_small (2 ^ iexp)) by (done || lia).
  rewrite (ulong_small (2 ^ iexp - 1)) by (done || lia).
  rewrite (ulong_small (2 ^ (iexp - 5))) by (done || lia).
  fold n. unfold strlen.
  change (hmac_final (sha256_update (hmac_init (salt_block salt)) passphrase
                        (length passphrase)) (salt_block salt))
    with (hmac_pad32 (salt_block salt) passphrase).
  set (seed := hmac_pad32 (salt_block salt) passphrase).
  assert (Hseed : length seed = 32%nat) by apply Hsha.
  change (Z.of_nat SHA256_BLOCK_SIZE) with 32.
  assert (Hfill :
    key_derive_fill (Z.to_nat (2 ^ iexp / 32) + 1) (2 ^ iexp)
      (store (repeat 0 (Z.to_nat (2 ^ iexp + 32))) 0 seed) 32
    = (kdf_chain seed (S n), 32 * Z.of_nat (S n))).
  { replace (store (repeat 0 (Z.to_nat (2 ^ iexp + 32))) 0 seed)
      with (kdf_chain seed 1 ++ drop 32 (repeat 0 (Z.to_nat (2 ^ iexp + 32)))).
    2:{ unfold store, kdf_chain. simpl. by rewrite app_nil_r, Hseed. }
    rewrite Hn. change 32 with (32 * Z.of_nat 1) at 5.
    apply key_derive_fill_chain; try done.
    - lia.
    - rewrite Z.mul_comm, Z.div_mul by lia. lia.
    - rewrite length_drop, repeat_length. lia. }
  rewrite Hfill.
  assert (Hspecfill : kdf_fill seed (Z.to_nat (2 ^ iexp)) = kdf_chain seed (S n)).
  { unfold kdf_fill. f_equal. rewrite Hn.
    replace (Z.to_nat (32 * Z.of_nat n)) with (n * 32)%nat by lia.
    rewrite Nat.div_mul by lia. lia. }
  rewrite Hspecfill.
  assert (Hlen : length (kdf_chain seed (S n)) = (Z.to_nat (2 ^ iexp) + 32)%nat)
    by (rewrite length_kdf_chain by done; lia).
  destruct (key_derive_mix_spec iexp n Hsha Hw ltac:(lia)
              (kdf_chain seed (S n)) (2 ^ iexp - 32) ltac:(lia) ltac:(lia))
    as (Hmix & Hl & Hp).
  rewrite <- Hmix.
  destruct (key_derive_mix n (2 ^ iexp - 1) (kdf_chain seed (S n)) (2 ^ iexp - 32))
    as [memory memptr] eqn:Hres.
  simpl in *. split; [done |].
  apply length_load. lia.
Qed.

(** The seeds of the source and of section 4.2 for the salt block of an
    8-byte salt, as digests. *)
Lemma salted_seeds salt passphrase :
  sha256_sized -> length salt = 8%nat ->
  let key := salt ++ repeat 0 24 in
  let ipad := (fun b => Z.lxor b 0x36) <$> key in
  let opad := (fun b => Z.lxor b 0x5c) <$> key in
  hmac_pad32 key passphrase = SHA256 (opad ++ SHA256 (ipad ++ passphrase))
  /\ HMAC_SHA256 key passphrase
     = SHA256 (opad ++ repeat 0x5c 32
                 ++ SHA256 (ipad ++ repeat 0x36 32 ++ passphrase)).
Proof.
  intros Hsha Hsalt key ipad opad. subst ipad opad key.
  do 9 (destruct salt as [| ? salt]; try discriminate Hsalt). clear Hsalt.
  unfold hmac_pad32, HMAC_SHA256, hmac_init, hmac_final, hmac_standard_inner,
    hmac_standard_outer, sha256_final, sha256_update, sha256_init, SHA256_BLOCK_SIZE.
  rewrite (take_ge passphrase) by done.
  rewrite (take_ge (SHA256 _)) by (by rewrite (proj1 (Hsha _))).
  split; reflexivity.
Qed.

(** C2, on the code.  For a passphrase, a cost exponent [iexp] in [5, 31] and
    an 8-byte salt, [key_derive] runs the steps of section 4.2 from its seed
    on: the seed at the start of a buffer of [2^iexp + 32] bytes, each
    further 32-byte block the SHA-256 of the block before it, then
    [2^(iexp-5)] rounds from offset [2^iexp - 32] that replace the 32 bytes
    at the pointer by their SHA-256 and move the pointer to the little-endian
    32-bit word found there, masked with [2^iexp - 1]; the result is the 32
    bytes at the final pointer.  The seed is not the HMAC-SHA-256 of step
    1: the source hashes 32 bytes of pad where HMAC-SHA-256 hashes 64, so
    that the two seeds are digests of messages of different lengths, equal
    only where SHA-256 collides. *)
Theorem key_derive_seed_is_short_pad_mac passphrase iexp salt :
  sha256_sized -> 32 <= ULONG_BITS -> 5 <= iexp <= 31 -> length salt = 8%nat ->
  let key := salt ++ repeat 0 24 in
  let ipad := (fun b => Z.lxor b 0x36) <$> key in
  let opad := (fun b => Z.lxor b 0x5c) <$> key in
  let seed := SHA256 (opad ++ SHA256 (ipad ++ passphrase)) in
  key_derive passphrase iexp (Some salt) = kdf_from_seed seed iexp
  /\ length (kdf_fill seed (Z.to_nat (2 ^ iexp))) = Z.to_nat (2 ^ iexp + 32)
  /\ length (key_derive passphrase iexp (Some salt)) = 32%nat
  /\ kdf_spec passphrase iexp key
     = kdf_from_seed
         (SHA256 (opad ++ repeat 0x5c 32
                    ++ SHA256 (ipad ++ repeat 0x36 32 ++ passphrase))) iexp
  /\ (seed = HMAC_SHA256 key passphrase ->
      exists m1 m2, m1 <> m2 /\ SHA256 m1 = SHA256 m2).
Proof.
  intros Hsha Hw Hi Hsalt key ipad opad seed.
  destruct (salted_seeds salt passphrase Hsha Hsalt) as [Hcode Hstd].
  cbv zeta in Hcode, Hstd. fold key ipad opad in Hcode, Hstd. fold seed in Hcode.
  destruct (key_derive_kdf_from_seed passphrase iexp (Some salt) Hsha Hw Hi)
    as [Heq Hlen].
  { intros s [= <-]. lia. }
  unfold salt_block in Heq. rewrite take_ge in Heq by lia. fold key in Heq.
  rewrite Hcode in Heq.
  split; [done |]. split; [| split; [done |]; split].
  - destruct (pow2_iexp iexp Hi) as (Hn & Hmem & Hit).
    unfold kdf_fill. rewrite length_kdf_chain; [| done | apply Hsha].
    rewrite Hn at 1.
    replace (Z.to_nat (32 * Z.of_nat (Z.to_nat (2 ^ (iexp - 5)))))
      with (Z.to_nat (2 ^ (iexp - 5)) * 32)%nat by lia.
    rewrite Nat.div_mul by lia. lia.
  - unfold kdf_spec. by rewrite Hstd.
  - rewrite Hstd. intros Hsame.
    eexists _, _. split; [| exact Hsame].
    intros Hm. apply (f_equal length) in Hm.
    rewrite !length_app, !(proj1 (Hsha _)), repeat_length in Hm. lia.
Qed.

(** ** Frame conditions *)

Lemma preserves_ret {A B} (f : world -> B) (a : A) : preserves f (ret a).
Proof. by intros w. Qed.

Lemma preserves_fatal {A B} (f : world -> B) (e : error) : preserves f (@fatal A e).
Proof. by intros w. Qed.

Lemma preserves_bind {A B C} (f : world -> C) (m : M A) (k : A -> M B) :
  preserves f m -> (forall a, preserves f (k a)) -> preserves f (bind m k).
Proof.
  intros Hm Hk w. unfold bind. specialize (Hm w).
  destruct (m w) as [[a | e] w']; simpl in *; [rewrite Hk |]; done.
Qed.

Lemma preserves_get_passphrase {B} (f : world -> B) len prompt :
  (forall w e, f (log e w).2 = f w) -> (forall w x, f (set_tty w x) = f w) ->
  preserves f (get_passphrase len prompt).
Proof.
  intros Hlog Htty w. unfold get_passphrase, bind.
  destruct (log (EvPrompt prompt) w) as [[[] | e] w'] eqn:Hw; [| done].
  assert (f w' = f w) as <- by (rewrite <- (Hlog w (EvPrompt prompt)); by rewrite Hw).
  destruct (tty w') as [| typed rest]; destruct (typed_passphrase len _); simpl;
    first [done | apply Htty].
Qed.

Lemma preserves_agent_read {B} (f : world -> B) iv :
  (forall w e, f (log e w).2 = f w) -> preserves f (agent_read iv).
Proof.
  intros Hlog w. unfold agent_read, bind.
  destruct (log (EvAgentRead (take 8 iv)) w) as [[[] | e] w'] eqn:Hw; [| done].
  assert (f w' = f w) as <- by (rewrite <- (Hlog w (EvAgentRead (take 8 iv))); by rewrite Hw).
  repeat case_match; done.
Qed.

Lemma preserves_load_seckey {B} (f : world -> B) file :
  (forall w e, f (log e w).2 = f w) -> (forall w x, f (set_tty w x) = f w) ->
  preserves f (load_seckey file).
Proof.
  intros Hlog Htty. unfold load_seckey.
  apply preserves_bind; [intros w; by repeat case_match |].
  intros buf. case_bool_decide; [apply preserves_fatal |].
  case_bool_decide; [| apply preserves_ret].
  apply preserves_bind; [by apply preserves_agent_read |].
  intros got.
  destruct (match got with Some _ => _ | None => _ end) as [agent_success protect0].
  apply preserves_bind.
  { destruct (negb agent_success); [| apply preserves_ret].
    apply preserves_bind; [by apply preserves_get_passphrase |].
    intros pass. case_match; [apply preserves_fatal | apply preserves_ret]. }
  intros protect. apply preserves_bind; [by intros w |].
  intros timeout. apply preserves_bind; [| intros; apply preserves_ret].
  case_match; [| apply preserves_ret]. intros w. apply Hlog.
Qed.

Lemma load_seckey_fds file w secret w' :
  load_seckey file w = (secret, w') ->
  fd_in w' = fd_in w /\ fd_out w' = fd_out w /\ files w' = files w.
Proof.
  intros Hload.
  pose proof (preserves_load_seckey fd_in file ltac:(done) ltac:(done) w) as Hin.
  pose proof (preserves_load_seckey fd_out file ltac:(done) ltac:(done) w) as Hout.
  pose proof (preserves_load_seckey files file ltac:(done) ltac:(done) w) as Hf.
  rewrite Hload in Hin, Hout, Hf. done.
Qed.

(** ** The secret-key file: the version byte *)

Lemma lookup_total_take_lt (l : list Z) n i :
  (i < n)%nat -> take n l !!! i = l !!! i.
Proof. intros. by rewrite !list_lookup_total_alt, lookup_take_lt. Qed.

Lemma load_seckey_bad_version file w contents :
  files w !! file = Some contents -> (64 <= length contents)%nat ->
  contents !!! 9%nat <> ENCHIVE_FORMAT_VERSION ->
  load_seckey file w
  = (Fatal (ErrVersionMismatch ENCHIVE_FORMAT_VERSION (contents !!! 9%nat)), w).
Proof.
  intros Hfile Hlen Hver. unfold load_seckey, bind. rewrite Hfile.
  rewrite bool_decide_eq_false_2 by (simpl; lia).
  change (Z.to_nat SECFILE_VERSION) with 9%nat.
  change (8 + 4 + 20 + 32)%nat with 64%nat.
  rewrite lookup_total_take_lt by lia.
  by rewrite bool_decide_eq_true_2.
Qed.

(** C7.  A secret-key file whose byte 9 is not the supported format version
    makes [load_seckey] fail with the version mismatch, in the world as it
    was: nothing was asked of the agent or of the terminal.  The iterations
    byte plays no part: whatever it holds, the outcome is the same. *)
Theorem load_seckey_checks_version_first file w contents :
  files w !! file = Some contents -> (64 <= length contents)%nat ->
  contents !!! 9%nat <> ENCHIVE_FORMAT_VERSION ->
  load_seckey file w
  = (Fatal (ErrVersionMismatch ENCHIVE_FORMAT_VERSION (contents !!! 9%nat)), w)
  /\ forall iterations,
       let w' := set_files w (<[file := <[8%nat := iterations]> contents]> (files w)) in
       load_seckey file w'
       = (Fatal (ErrVersionMismatch ENCHIVE_FORMAT_VERSION (contents !!! 9%nat)), w').
Proof.
  intros Hfile Hlen Hver. split; [by apply load_seckey_bad_version |].
  intros iterations w'.
  rewrite <- (list_lookup_total_insert_ne contents 8 9 iterations) by lia.
  apply load_seckey_bad_version.
  - subst w'. destruct w. simpl. apply lookup_insert_eq.
  - by rewrite length_insert.
  - by rewrite list_lookup_total_insert_ne by lia.
Qed.

(** ** Extraction: the header *)

Lemma set_fd_in_twice w x y : set_fd_in (set_fd_in w x) y = set_fd_in w y.
Proof. by destruct w. Qed.

(** [command_extract] up to the call of [symmetric_decrypt]. *)
Lemma command_extract_header secfile w secret w1 :
  load_seckey secfile w = (Done secret, w1) ->
  let input := fd_in w in
  let shared := compute_shared secret (take 32 (drop 8 input)) in
  command_extract secfile w =
    if bool_decide (length input < 8)%nat then (Fatal ErrReadIV, set_fd_in w1 [])
    else if bool_decide (length input < 40)%nat
    then (Fatal ErrReadEphemeral, set_fd_in w1 [])
    else if bool_decide (take 8 input = archive_iv shared)
    then symmetric_decrypt shared (take 8 input) (set_fd_in w1 (drop 40 input))
    else (Fatal ErrInvalidMasterKey, set_fd_in w1 (drop 40 input)).
Proof.
  intros Hload input shared.
  destruct (load_seckey_fds _ _ _ _ Hload) as (Hin & _ & _).
  unfold command_extract, bind. rewrite Hload. unfold full_read. simpl.
  rewrite Hin. fold input.
  destruct (decide (length input < 8)%nat) as [H8 | H8].
  { rewrite bool_decide_eq_true_2 by (rewrite length_take; lia).
    rewrite bool_decide_eq_true_2 by done.
    rewrite drop_ge by lia. done. }
  rewrite bool_decide_eq_false_2 by (rewrite length_take; lia).
  rewrite (bool_decide_eq_false_2 (length input < 8)%nat) by done.
  simpl. rewrite set_fd_in_twice, drop_drop.
  destruct (decide (length input < 40)%nat) as [H40 | H40].
  { rewrite bool_decide_eq_true_2 by (rewrite length_take, length_drop; lia).
    rewrite bool_decide_eq_true_2 by done.
    rewrite drop_ge by lia. done. }
  rewrite bool_decide_eq_false_2 by (rewrite length_take, length_drop; lia).
  rewrite (bool_decide_eq_false_2 (length input < 40)%nat) by done.
  fold shared. unfold memcmp_eq, archive_iv, sha256_final, sha256_update, sha256_init.
  rewrite !app_nil_l, take_take. change (8 `min` 8)%nat with 8%nat.
  change (8 + 32)%nat with 40%nat.
  case_bool_decide; simpl; done.
Qed.

(** C5.  With the 8 bytes of the IV and the 32 bytes of the ephemeral key
    read, an IV that is not the one derived from the shared secret ends the
    extraction with the invalid-master-key error: only the 40 bytes of the
    header were consumed and nothing was written. *)
Theorem command_extract_rejects_wrong_recipient secfile w secret w1 :
  load_seckey secfile w = (Done secret, w1) ->
  (40 <= length (fd_in w))%nat ->
  take 8 (fd_in w)
  <> archive_iv (compute_shared secret (take 32 (drop 8 (fd_in w)))) ->
  exists w',
    command_extract secfile w = (Fatal ErrInvalidMasterKey, w')
    /\ fd_out w' = fd_out w /\ fd_in w' = drop 40 (fd_in w).
Proof.
  intros Hload Hlen Hiv.
  destruct (load_seckey_fds _ _ _ _ Hload) as (_ & Hout & _).
  rewrite (command_extract_header _ _ _ _ Hload). cbv zeta.
  rewrite !bool_decide_eq_false_2 by (done || lia).
  eexists. split; [done |]. destruct w1; simpl in *. done.
Qed.

(** ** The symmetric envelope *)

(** Reduction of the projections and setters of [world] only. *)
Ltac wsimpl :=
  cbn [fd_in fd_out set_fd_in set_fd_out set_urandom set_tty set_files urandom tty
         agent_socket global_agent_timeout files trace fst snd negb andb] in *.

Lemma symmetric_encrypt_loop_S fuel ctx hmac w :
  symmetric_encrypt_loop (S fuel) ctx hmac w =
    let B := (CHACHA_BLOCKLENGTH * 1024)%nat in
    let buffer0 := take B (fd_in w) in
    let w1 := set_fd_in w (drop B (fd_in w)) in
    if bool_decide (length buffer0 = 0%nat) then (Done hmac, w1)
    else
      let hmac' := hmac ++ take (length buffer0) buffer0 in
      let r := chacha_encrypt_bytes ctx (take (length buffer0) buffer0) in
      let w2 := set_fd_out w1 (fd_out w1 ++ take (length buffer0) r.2) in
      if bool_decide (length buffer0 < B)%nat then (Done hmac', w2)
      else symmetric_encrypt_loop fuel r.1 hmac' w2.
Proof.
  cbn [symmetric_encrypt_loop]. unfold bind at 1. unfold full_read at 1.
  cbv zeta. case_bool_decide; [done |].
  unfold sha256_update.
  destruct (chacha_encrypt_bytes _ _) as [ctx' buffer1]. unfold bind, write_out.
  cbn [fst snd]. case_bool_decide; done.
Qed.

Lemma chacha_stream_nil fuel n ctx : chacha_stream fuel n ctx [] = [].
Proof. by destruct fuel. Qed.

Lemma chacha_stream_cons fuel n ctx m :
  m <> [] ->
  chacha_stream (S fuel) n ctx m
  = (chacha_encrypt_bytes ctx (take n m)).2
    ++ chacha_stream fuel n (chacha_encrypt_bytes ctx (take n m)).1 (drop n m).
Proof. by destruct m. Qed.

Lemma length_chacha_stream n fuel :
  chacha_sized -> (0 < n)%nat ->
  forall ctx m, (length m < fuel)%nat -> length (chacha_stream fuel n ctx m) = length m.
Proof.
  intros Hsz Hn. induction fuel as [| fuel IH]; intros ctx m Hfuel; [lia |].
  destruct (decide (m = [])) as [-> | Hm]; [done |].
  rewrite chacha_stream_cons by done. rewrite length_app, Hsz, IH.
  - rewrite length_take, length_drop. lia.
  - rewrite length_drop. destruct m; [done | simpl in *; lia].
Qed.

(** The loop of [symmetric_encrypt] consumes its input, absorbs it in the MAC
    and writes its ciphertext. *)
Lemma symmetric_encrypt_loop_spec fuel :
  chacha_sized -> (0 < CHACHA_BLOCKLENGTH)%nat ->
  forall ctx hmac w,
    (length (fd_in w) < fuel)%nat ->
    symmetric_encrypt_loop fuel ctx hmac w
    = (Done (hmac ++ fd_in w),
       set_fd_out (set_fd_in w [])
         (fd_out w ++ chacha_stream fuel (CHACHA_BLOCKLENGTH * 1024) ctx (fd_in w))).
Proof.
  intros Hsz HB. induction fuel as [| fuel IH]; intros ctx hmac w Hfuel; [lia |].
  rewrite symmetric_encrypt_loop_S. cbv zeta.
  set (B := (CHACHA_BLOCKLENGTH * 1024)%nat) in *.
  assert (0 < B)%nat by (subst B; lia).
  destruct w as [input out u t a g f tr].
  wsimpl.
  destruct (decide (input = [])) as [-> | Hne].
  { rewrite take_nil, drop_nil, chacha_stream_nil, !app_nil_r. done. }
  assert (0 < length input)%nat by (destruct input; [done | simpl; lia]).
  rewrite bool_decide_eq_false_2 by (rewrite length_take; lia).
  rewrite chacha_stream_cons by done.
  rewrite (take_ge (take B input)) by done.
  rewrite (take_ge (chacha_encrypt_bytes ctx (take B input)).2)
    by (by rewrite Hsz).
  case_bool_decide as Hshort; rewrite length_take in Hshort.
  - rewrite drop_ge, take_ge, chacha_stream_nil, app_nil_r by lia. done.
  - rewrite IH by (wsimpl; rewrite length_drop; lia).
    wsimpl. by rewrite <- !app_assoc, take_drop.
Qed.

Lemma symmetric_decrypt_loop_S fuel ctx hmac buffer0 w :
  symmetric_decrypt_loop (S fuel) ctx hmac buffer0 w =
    let B := (CHACHA_BLOCKLENGTH * 1024)%nat in
    let p := take B (fd_in w) in
    let w1 := set_fd_in w (drop B (fd_in w)) in
    if bool_decide (length p = 0%nat) then (Done (hmac, buffer0), w1)
    else
      let buf := store buffer0 32 p in
      let r := chacha_encrypt_bytes ctx (take (length p) buf) in
      let hmac' := hmac ++ take (length p) r.2 in
      let w2 := set_fd_out w1 (fd_out w1 ++ take (length p) r.2) in
      let buffer0' := load buf (Z.of_nat (length p)) 32 in
      if bool_decide (length p < B)%nat then (Done (hmac', buffer0'), w2)
      else symmetric_decrypt_loop fuel r.1 hmac' buffer0' w2.
Proof.
  cbn [symmetric_decrypt_loop]. rewrite !Nat.add_sub.
  unfold bind at 1. unfold full_read at 1.
  cbv zeta. case_bool_decide; [done |].
  unfold sha256_update. change (Z.of_nat SHA256_BLOCK_SIZE) with 32.
  destruct (chacha_encrypt_bytes _ _) as [ctx' buffer1]. unfold bind, write_out.
  cbn [fst snd]. case_bool_decide; done.
Qed.

Lemma store_at_end (a p : list Z) n :
  length a = n -> store a (Z.of_nat n) p = a ++ p.
Proof.
  intros <-. unfold store. rewrite Nat2Z.id, take_ge, drop_ge by lia.
  by rewrite app_nil_r.
Qed.

(** The loop of [symmetric_decrypt], run on the ciphertext of [pt] followed by
    32 bytes, writes [pt], absorbs it in the MAC and is left with the 32 bytes
    in its window. *)
Lemma symmetric_decrypt_loop_spec fuel :
  chacha_sized -> chacha_lockstep -> (0 < CHACHA_BLOCKLENGTH)%nat ->
  forall fuelE ctx hmac window w pt mac,
    length window = 32%nat -> length mac = 32%nat ->
    (length pt < fuel)%nat -> (length pt < fuelE)%nat ->
    window ++ fd_in w
    = chacha_stream fuelE (CHACHA_BLOCKLENGTH * 1024) ctx pt ++ mac ->
    symmetric_decrypt_loop fuel ctx hmac window w
    = (Done (hmac ++ pt, mac), set_fd_out (set_fd_in w []) (fd_out w ++ pt)).
Proof.
  intros Hsz Hlock HB.
  induction fuel as [| fuel IH];
    intros fuelE ctx hmac window w pt mac Hwin Hmac Hfuel HfuelE Hinv; [lia |].
  rewrite symmetric_decrypt_loop_S. cbv zeta.
  set (B := (CHACHA_BLOCKLENGTH * 1024)%nat) in *.
  assert (HBpos : (0 < B)%nat) by (subst B; lia).
  destruct w as [input out u t a g f tr]. wsimpl.
  assert (Hlen : length input = length pt).
  { apply (f_equal length) in Hinv.
    rewrite !length_app, length_chacha_stream in Hinv by done. lia. }
  destruct (decide (pt = [])) as [-> | Hne].
  { destruct input; [| simpl in Hlen; lia].
    rewrite chacha_stream_nil, !app_nil_r in *. simpl in Hinv. subst window.
    by rewrite take_nil, drop_nil. }
  assert (0 < length pt)%nat by (destruct pt; [done | simpl; lia]).
  destruct fuelE as [| fuelE]; [lia |].
  rewrite chacha_stream_cons in Hinv by done.
  set (z := length (take B input)).
  assert (Hz : z = length (take B pt)) by (subst z; rewrite !length_take; lia).
  assert (Hzpos : (0 < z)%nat) by (subst z; rewrite length_take; lia).
  rewrite bool_decide_eq_false_2 by lia.
  rewrite (store_at_end window _ 32) by done.
  destruct (chacha_encrypt_bytes ctx (take B pt)) as [ctx' c1] eqn:Henc.
  cbn [fst snd] in Hinv.
  assert (Hc1 : length c1 = z).
  { rewrite Hz. specialize (Hsz ctx (take B pt)). by rewrite Henc in Hsz. }
  assert (Hsplit : window ++ input = (window ++ take B input) ++ drop B input)
    by (by rewrite <- app_assoc, take_drop).
  assert (Hchunk : take z (window ++ take B input) = c1).
  { rewrite <- (take_app_le _ (drop B input)) by (rewrite length_app; lia).
    rewrite <- Hsplit, Hinv, <- app_assoc. by apply take_app_length'. }
  rewrite Hchunk.
  assert (Hdec : chacha_encrypt_bytes ctx c1 = (ctx', take B pt)).
  { specialize (Hlock ctx (take B pt)). by rewrite Henc in Hlock. }
  rewrite Hdec. cbn [fst snd].
  rewrite (take_ge (take B pt)) by lia.
  assert (Hwin' : load (window ++ take B input) (Z.of_nat z) 32
                  = drop z (window ++ take B input)).
  { unfold load. rewrite Nat2Z.id. apply take_ge.
    rewrite length_drop, length_app. fold z. lia. }
  rewrite Hwin'.
  assert (Hinv' : drop z (window ++ take B input) ++ drop B input
                  = chacha_stream fuelE B ctx' (drop B pt) ++ mac).
  { rewrite <- drop_app_le by (rewrite length_app; fold z; lia).
    rewrite <- Hsplit, Hinv, <- app_assoc. by apply drop_app_length'. }
  case_bool_decide as Hshort.
  - rewrite (drop_ge pt), (drop_ge input), chacha_stream_nil, app_nil_r in Hinv'
      by (subst z; rewrite length_take in Hshort; lia).
    simpl in Hinv'. rewrite Hinv'.
    rewrite (take_ge pt), (drop_ge input)
      by (subst z; rewrite length_take in Hshort; lia).
    done.
  - rewrite (IH fuelE ctx' _ _ _ (drop B pt) mac); wsimpl; try done.
    + by rewrite <- !app_assoc, take_drop.
    + rewrite length_drop, length_app. fold z. lia.
    + rewrite length_drop. lia.
    + rewrite length_drop. lia.
Qed.


Lemma symmetric_decrypt_loop_ends fuel :
  (0 < CHACHA_BLOCKLENGTH)%nat ->
  forall ctx hmac buffer0 w,
    (length (fd_in w) < fuel)%nat ->
    exists r w', symmetric_decrypt_loop fuel ctx hmac buffer0 w = (Done r, w').
Proof.
  intros HB. induction fuel as [| fuel IH]; intros ctx hmac buffer0 w Hfuel; [lia |].
  rewrite symmetric_decrypt_loop_S. cbv zeta.
  case_bool_decide; [by eexists _, _ |].
  case_bool_decide as Hshort; [by eexists _, _ |].
  apply IH. rewrite length_take in Hshort.
  destruct w. wsimpl. rewrite length_drop. lia.
Qed.

Lemma hmac_pad32_eq key msg :
  hmac_pad32 key msg = hmac_final (hmac_init key ++ msg) key.
Proof. unfold hmac_pad32, sha256_update. by rewrite take_ge. Qed.

Lemma length_hmac_final ctx key : sha256_sized -> length (hmac_final ctx key) = 32%nat.
Proof. intros Hsha. apply Hsha. Qed.

Lemma length_hmac_pad32 key msg : sha256_sized -> length (hmac_pad32 key msg) = 32%nat.
Proof. intros Hsha. apply Hsha. Qed.

Lemma symmetric_encrypt_spec key iv w :
  chacha_sized -> sha256_sized -> (0 < CHACHA_BLOCKLENGTH)%nat ->
  symmetric_encrypt key iv w
  = (Done tt,
     set_fd_out (set_fd_in w [])
       (fd_out w
        ++ chacha_stream (S (length (fd_in w))) (CHACHA_BLOCKLENGTH * 1024)
             (chacha_ivsetup (chacha_keysetup (take 32 key) 256) (take 8 iv))
             (fd_in w)
        ++ hmac_pad32 key (fd_in w))).
Proof.
  intros Hsz Hsha HB. unfold symmetric_encrypt, bind.
  rewrite symmetric_encrypt_loop_spec by (done || lia).
  unfold write_out.
  rewrite (take_ge (hmac_final _ _)) by (by rewrite length_hmac_final).
  rewrite hmac_pad32_eq. destruct w. wsimpl. by rewrite <- app_assoc.
Qed.

Lemma symmetric_decrypt_short key iv w :
  (length (fd_in w) < 32)%nat ->
  symmetric_decrypt key iv w = (Fatal ErrCiphertextTooShort, set_fd_in w []).
Proof.
  intros Hlen. unfold symmetric_decrypt, bind, full_read.
  rewrite bool_decide_eq_true_2
    by (rewrite length_take; unfold SHA256_BLOCK_SIZE; lia).
  unfold fatal. by rewrite drop_ge by (unfold SHA256_BLOCK_SIZE; lia).
Qed.

Lemma symmetric_decrypt_spec key iv w pt :
  chacha_sized -> chacha_lockstep -> sha256_sized -> (0 < CHACHA_BLOCKLENGTH)%nat ->
  fd_in w
  = chacha_stream (S (length pt)) (CHACHA_BLOCKLENGTH * 1024)
      (chacha_ivsetup (chacha_keysetup (take 32 key) 256) (take 8 iv)) pt
    ++ hmac_pad32 key pt ->
  symmetric_decrypt key iv w
  = (Done tt, set_fd_out (set_fd_in w []) (fd_out w ++ pt)).
Proof.
  intros Hsz Hlock Hsha HB Hin.
  assert (Hlen : length (fd_in w) = (length pt + 32)%nat).
  { rewrite Hin, length_app, length_chacha_stream, length_hmac_pad32 by (done || lia).
    done. }
  unfold symmetric_decrypt, bind, full_read. unfold SHA256_BLOCK_SIZE.
  rewrite bool_decide_eq_false_2 by (rewrite length_take; lia).
  rewrite (symmetric_decrypt_loop_spec _ Hsz Hlock HB (S (length pt)) _ _ _ _ pt
             (hmac_pad32 key pt)).
  - rewrite <- hmac_pad32_eq. unfold memcmp_eq.
    rewrite bool_decide_eq_true_2 by done. destruct w. by wsimpl.
  - rewrite length_take. lia.
  - by apply length_hmac_pad32.
  - destruct w. wsimpl. rewrite length_drop. lia.
  - lia.
  - destruct w. wsimpl. by rewrite take_drop.
Qed.

(** ** Archive and extract *)

Lemma length_archive_iv shared : sha256_sized -> length (archive_iv shared) = 8%nat.
Proof.
  intros Hsha. unfold archive_iv.
  rewrite length_take, length_insert, (proj1 (Hsha _)). done.
Qed.

Lemma length_archive_of shared epublic plaintext :
  sha256_sized -> chacha_sized -> (0 < CHACHA_BLOCKLENGTH)%nat ->
  length epublic = 32%nat ->
  length (archive_of shared epublic plaintext) = (72 + length plaintext)%nat.
Proof.
  intros Hsha Hsz HB Hep. unfold archive_of.
  rewrite !length_app, length_archive_iv, Hep, length_chacha_stream,
    length_hmac_pad32 by (done || lia).
  lia.
Qed.

Lemma length_compute_public s : donna_sized -> length (compute_public s) = 32%nat.
Proof. intros Hdn. apply Hdn. Qed.

Lemma length_compute_shared s p : donna_sized -> length (compute_shared s p) = 32%nat.
Proof. intros Hdn. apply Hdn. Qed.

(** [command_archive] writes the archive of section 4.1 for the plaintext it
    reads, under the secret shared by a clamped ephemeral key and the public
    key of the file. *)
Lemma command_archive_spec pubfile w contents :
  sha256_sized -> chacha_sized -> donna_sized -> (0 < CHACHA_BLOCKLENGTH)%nat ->
  files w !! pubfile = Some contents -> (32 <= length contents)%nat ->
  (32 <= length (urandom w))%nat ->
  let esecret := clamp (take 32 (urandom w)) in
  let shared := compute_shared esecret (take 32 contents) in
  command_archive pubfile w
  = (Done tt,
     set_fd_out (set_fd_in (set_urandom w (drop 32 (urandom w))) [])
       (fd_out w ++ archive_of shared (compute_public esecret) (fd_in w))).
Proof.
  intros Hsha Hsz Hdn HB Hfile Hlen Hent esecret shared.
  unfold command_archive, bind, load_pubkey. rewrite Hfile.
  rewrite bool_decide_eq_false_2 by lia.
  unfold generate_secret, bind, secure_entropy. cbv zeta.
  rewrite bool_decide_eq_true_2 by (rewrite length_take; lia).
  unfold ret. fold esecret. fold shared. unfold write_out.
  rewrite symmetric_encrypt_spec by done.
  unfold sha256_final, sha256_update, sha256_init. rewrite app_nil_l.
  rewrite (take_ge (compute_public esecret)) by (by rewrite length_compute_public).
  unfold archive_of, archive_iv. cbv zeta.
  rewrite (take_ge shared 32) by (subst shared; by rewrite length_compute_shared).
  destruct w. wsimpl. by rewrite <- !app_assoc.
Qed.

(** [command_extract], run with the secret key [sec] on the archive made for
    its public key, writes the plaintext and ends well. *)
Lemma command_extract_archive_of secfile w sec w1 esecret pt :
  sha256_sized -> chacha_sized -> chacha_lockstep -> donna_sized -> donna_agree ->
  (0 < CHACHA_BLOCKLENGTH)%nat ->
  load_seckey secfile w = (Done sec, w1) ->
  length sec = 32%nat -> length esecret = 32%nat ->
  fd_in w = archive_of (compute_shared esecret (compute_public sec))
              (compute_public esecret) pt ->
  command_extract secfile w
  = (Done tt, set_fd_out (set_fd_in w1 []) (fd_out w ++ pt)).
Proof.
  intros Hsha Hsz Hlock Hdn Hag HB Hload Hsec Hesec Hin.
  destruct (load_seckey_fds _ _ _ _ Hload) as (_ & Hout & _).
  set (shared := compute_shared esecret (compute_public sec)) in *.
  set (epublic := compute_public esecret) in *.
  assert (Hep : length epublic = 32%nat) by apply Hdn.
  assert (Hiv : length (archive_iv shared) = 8%nat) by (by apply length_archive_iv).
  assert (Hlen : length (fd_in w) = (72 + length pt)%nat)
    by (rewrite Hin; by apply length_archive_of).
  rewrite (command_extract_header _ _ _ _ Hload). cbv zeta.
  rewrite !bool_decide_eq_false_2 by lia.
  assert (H8 : take 8 (fd_in w) = archive_iv shared).
  { rewrite Hin. unfold archive_of. cbv zeta. by apply take_app_length'. }
  assert (H32 : take 32 (drop 8 (fd_in w)) = epublic).
  { rewrite Hin. unfold archive_of. cbv zeta.
    rewrite drop_app_length' by done. by apply take_app_length'. }
  assert (Hshared : compute_shared sec epublic = shared).
  { subst shared epublic. unfold compute_shared, compute_public. by apply Hag. }
  rewrite H8, H32, Hshared. rewrite bool_decide_eq_true_2 by done.
  rewrite (symmetric_decrypt_spec _ _ _ pt) by first
    [ done
    | wsimpl; destruct w1; wsimpl; rewrite Hin; unfold archive_of; cbv zeta;
      rewrite (take_ge shared) by (subst shared; by rewrite length_compute_shared);
      rewrite (take_ge (archive_iv shared)) by lia;
      change 40%nat with (8 + 32)%nat; rewrite <- drop_drop;
      rewrite drop_app_length' by done; by rewrite drop_app_length' by done ].
  destruct w1. wsimpl. by rewrite Hout.
Qed.

(** C1.  For a key pair [(sec, pub)] with [pub = scalmult(basepoint, sec)], a
    plaintext and an entropy stream: [command_archive] under [pub] ends well
    and writes an archive, and [command_extract] with [sec] on that archive
    ends well (the MAC verifies) and writes exactly the plaintext. *)
Theorem archive_extract_roundtrip pubfile secfile sec wa we we1 :
  sha256_sized -> chacha_sized -> chacha_lockstep -> donna_sized -> donna_agree ->
  (0 < CHACHA_BLOCKLENGTH)%nat ->
  length sec = 32%nat ->
  files wa !! pubfile = Some (compute_public sec) ->
  (32 <= length (urandom wa))%nat ->
  load_seckey secfile we = (Done sec, we1) ->
  exists archive wa',
    command_archive pubfile wa = (Done tt, wa')
    /\ fd_out wa' = fd_out wa ++ archive
    /\ (fd_in we = archive ->
        exists we',
          command_extract secfile we = (Done tt, we')
          /\ fd_out we' = fd_out we ++ fd_in wa).
Proof.
  intros Hsha Hsz Hlock Hdn Hag HB Hsec Hpub Hent Hload.
  pose proof (command_archive_spec pubfile wa _ Hsha Hsz Hdn HB Hpub
                ltac:(by rewrite length_compute_public) Hent) as Harch.
  cbv zeta in Harch.
  rewrite (take_ge (compute_public sec)) in Harch
    by (by rewrite length_compute_public).
  eexists (archive_of _ _ _), _. split; [exact Harch |]. split.
  { by destruct wa. }
  intros Hin.
  rewrite (command_extract_archive_of secfile we sec we1
             (clamp (take 32 (urandom wa))) (fd_in wa)); try done.
  - eexists. split; [done |]. destruct we1. by wsimpl.
  - rewrite length_clamp, length_take. lia.
Qed.

(** C6, as amended.  The archive of an empty plaintext has exactly 72 bytes
    (IV, ephemeral key, no ciphertext, MAC) and its extraction ends well
    having written nothing.  An input of fewer than 72 bytes is refused with
    nothing written: as a short read below 40 bytes; from 40 bytes on as too
    short when its IV is the one of the key, and with the invalid-master-key
    error when it is not. *)
Theorem empty_archive_and_short_inputs pubfile secfile sec wa we we1 :
  sha256_sized -> chacha_sized -> chacha_lockstep -> donna_sized -> donna_agree ->
  (0 < CHACHA_BLOCKLENGTH)%nat ->
  length sec = 32%nat ->
  files wa !! pubfile = Some (compute_public sec) ->
  (32 <= length (urandom wa))%nat -> fd_in wa = [] ->
  load_seckey secfile we = (Done sec, we1) ->
  (exists archive wa',
     command_archive pubfile wa = (Done tt, wa')
     /\ fd_out wa' = fd_out wa ++ archive
     /\ length archive = 72%nat
     /\ (fd_in we = archive ->
         exists we',
           command_extract secfile we = (Done tt, we') /\ fd_out we' = fd_out we))
  /\ ((length (fd_in we) < 72)%nat ->
      exists we',
        command_extract secfile we = (Fatal (short_archive_error sec (fd_in we)), we')
        /\ fd_out we' = fd_out we).
Proof.
  intros Hsha Hsz Hlock Hdn Hag HB Hsec Hpub Hent Hempty Hload.
  destruct (load_seckey_fds _ _ _ _ Hload) as (Hin1 & Hout1 & _).
  split.
  - pose proof (command_archive_spec pubfile wa _ Hsha Hsz Hdn HB Hpub
                  ltac:(by rewrite length_compute_public) Hent) as Harch.
    cbv zeta in Harch.
    rewrite (take_ge (compute_public sec)) in Harch
      by (by rewrite length_compute_public).
    eexists (archive_of _ _ _), _. split; [exact Harch |].
    split; [by destruct wa |]. split.
    { rewrite length_archive_of, Hempty by (done || by apply length_compute_public).
      done. }
    intros Hin.
    rewrite (command_extract_archive_of secfile we sec we1
               (clamp (take 32 (urandom wa))) (fd_in wa)); try done.
    + eexists. split; [done |]. destruct we1. wsimpl.
      by rewrite Hempty, app_nil_r.
    + rewrite length_clamp, length_take. lia.
  - intros Hshort. rewrite (command_extract_header _ _ _ _ Hload). cbv zeta.
    unfold short_archive_error.
    repeat case_bool_decide;
      try (eexists; split; [done |]; by destruct we1).
    rewrite symmetric_decrypt_short
      by (destruct we1; wsimpl; rewrite length_drop; lia).
    eexists; split; [done |]. by destruct we1.
Qed.

(** ** HMAC *)

(** C3, on the code.  With the salt block [key_derive] builds, the inner hash
    absorbs 32 bytes of pad (the block XORed with 0x36) and then the
    passphrase, and the outer hash 32 bytes of pad (the block XORed with 0x5c)
    and then the inner digest.  The inner and outer hashes of the standard
    construction absorb 32 more bytes each, of 0x36 and of 0x5c: its pads span
    the 64-byte block of SHA-256. *)
Theorem hmac_pads_span_32_bytes salt passphrase :
  length salt = 8%nat ->
  let key := salt ++ repeat 0 24 in
  let inner := sha256_update (hmac_init key) passphrase (strlen passphrase) in
  inner = ((fun b => Z.lxor b 0x36) <$> key) ++ passphrase
  /\ hmac_standard_inner key passphrase
     = ((fun b => Z.lxor b 0x36) <$> key) ++ repeat 0x36 32 ++ passphrase
  /\ hmac_final inner key
     = SHA256 (((fun b => Z.lxor b 0x5c) <$> key) ++ take 32 (SHA256 inner))
  /\ hmac_standard_outer key (SHA256 inner)
     = ((fun b => Z.lxor b 0x5c) <$> key) ++ repeat 0x5c 32 ++ SHA256 inner.
Proof.
  intros Hsalt key inner. subst inner key.
  do 9 (destruct salt as [| ? salt]; try discriminate Hsalt). clear Hsalt.
  unfold hmac_init, hmac_final, hmac_standard_inner, hmac_standard_outer,
    sha256_final, sha256_update, sha256_init, strlen, SHA256_BLOCK_SIZE.
  rewrite (take_ge passphrase) by done.
  repeat split; reflexivity.
Qed.

(** ** Key generation *)

Lemma bind_Done {A B} (m : M A) (k : A -> M B) w b w' :
  bind m k w = (Done b, w') ->
  exists a w1, m w = (Done a, w1) /\ k a w1 = (Done b, w').
Proof. unfold bind. destruct (m w) as [[a | e] w1]; [eauto | discriminate]. Qed.

Lemma clamp_fixed s : length s = 32%nat -> clamped (clamp s) /\ clamp (clamp s) = clamp s.
Proof. intros. split; [by apply clamp_clamped | apply clamp_idempotent]. Qed.

(** The scalar [command_keygen] goes on with is clamped on the entropy and on
    the derivation path, and is the one of the key file on the edit path. *)
Lemma command_keygen_secret_spec o secfile_exists w s w' :
  sha256_sized -> 32 <= ULONG_BITS -> 5 <= kg_seckey_derive_iterations o <= 31 ->
  command_keygen_secret o secfile_exists w = (Done s, w') ->
  if kg_edit o then load_seckey (kg_secfile o) w = (Done s, w')
  else clamped s /\ clamp s = s.
Proof.
  intros Hsha Hw Hit. unfold command_keygen_secret.
  destruct (kg_edit o); [| destruct (kg_derive o)].
  - destruct secfile_exists; simpl; [done | discriminate].
  - intros Hrun.
    apply bind_Done in Hrun as (pass0 & w1 & _ & Hrun).
    apply bind_Done in Hrun as (pass1 & w2 & _ & Hrun).
    case_bool_decide; [discriminate |]. injection Hrun as <- _.
    apply clamp_fixed.
    by apply (key_derive_kdf_from_seed pass0 _ None).
  - unfold generate_secret. intros Hrun.
    apply bind_Done in Hrun as (e & w1 & Hent & Hrun).
    injection Hrun as <- _. apply clamp_fixed.
    unfold secure_entropy in Hent. cbv zeta in Hent.
    case_bool_decide as Hlen; [| discriminate]. by injection Hent as <- _.
Qed.


(** ** The secret-key file: writing and loading *)

Lemma key_derive_salt_take passphrase iexp s :
  key_derive passphrase iexp (Some s) = key_derive passphrase iexp (Some (take 8 s)).
Proof. unfold key_derive. by rewrite take_take. Qed.

(** A list of known length, as its elements. *)
Ltac explode l Hl :=
  repeat (destruct l as [| ? l]; simpl in Hl; try discriminate Hl); clear Hl.

(** The buffer [write_seckey] builds for a protected key. *)
Lemma secfile_layout iv e v h enc :
  length iv = 8%nat -> length h = 32%nat -> length enc = 32%nat ->
  let buf := store (repeat 0 (8 + 1 + 3 + 20 + 32)) SECFILE_VERSION [v] in
  let buf := store buf SECFILE_IV iv in
  take 8 (at_offset buf SECFILE_IV) = iv
  /\ take 8 (at_offset (store (store buf SECFILE_ITERATIONS [e])
                          SECFILE_PROTECT_HASH h) SECFILE_IV) = iv
  /\ take (8 + 1 + 3 + 20 + 32)
       (store (store (store buf SECFILE_ITERATIONS [e]) SECFILE_PROTECT_HASH h)
          SECFILE_SECKEY enc)
     = iv ++ [e; v; 0; 0] ++ take 20 h ++ enc.
Proof.
  intros Hiv Hh Henc. explode iv Hiv. explode h Hh. explode enc Henc.
  repeat split; reflexivity.
Qed.

(** The fields [load_seckey] reads from a key file. *)
Lemma secfile_fields iv e v tag enc tail :
  length iv = 8%nat -> length tag = 20%nat -> length enc = 32%nat ->
  let buf := take (8 + 4 + 20 + 32) (iv ++ [e; v; 0; 0] ++ tag ++ enc ++ tail) in
  buf !!! Z.to_nat SECFILE_VERSION = v
  /\ buf !!! Z.to_nat SECFILE_ITERATIONS = e
  /\ take 8 (at_offset buf SECFILE_IV) = iv
  /\ take 20 (at_offset buf SECFILE_PROTECT_HASH) = tag
  /\ take 32 (at_offset buf SECFILE_SECKEY) = enc.
Proof.
  intros Hiv Htag Henc. explode iv Hiv. explode tag Htag. explode enc Henc.
  repeat split; reflexivity.
Qed.

Lemma write_seckey_protected file seckey iexp w typed0 typed1 pass rest :
  sha256_sized -> chacha_sized -> 32 <= ULONG_BITS ->
  0 <= ENCHIVE_FORMAT_VERSION < 256 -> 5 <= iexp <= 31 ->
  length seckey = 32%nat -> tty w = typed0 :: typed1 :: rest ->
  typed_passphrase sizeof_pass typed0 = Some pass ->
  typed_passphrase sizeof_pass typed1 = Some pass -> pass <> [] ->
  (8 <= length (urandom w))%nat ->
  let iv := take 8 (urandom w) in
  let protect := key_derive pass iexp (Some iv) in
  exists w',
    write_seckey file seckey iexp w = (Done tt, w')
    /\ files w'
       = <[file := protected_seckey_file iv iexp protect seckey
                   ++ drop 64 (default [] (files w !! file))]> (files w).
Proof.
  intros Hsha Hsz Hw Hv Hi Hsec Htty Ht0 Ht1 Hpass Hent iv protect.
  destruct w as [input out u t a g f tr]. wsimpl. subst t.
  assert (Hprot : length protect = 32%nat).
  { apply (key_derive_kdf_from_seed pass iexp (Some iv)); try done.
    intros s [= <-]. subst iv. rewrite length_take. lia. }
  destruct (secfile_layout iv (iexp mod 256) (ENCHIVE_FORMAT_VERSION mod 256)
              (SHA256 protect)
              (chacha_encrypt_bytes
                 (chacha_ivsetup (chacha_keysetup protect 256) iv) seckey).2)
    as (Hsalt & Hsalt' & Hbuf).
  { subst iv. rewrite length_take. lia. }
  { apply Hsha. }
  { by rewrite Hsz. }
  cbv zeta in Hsalt, Hsalt', Hbuf.
  unfold write_seckey.
  set (buf1 := store (repeat 0 (8 + 1 + 3 + 20 + 32)) SECFILE_VERSION
                 [ENCHIVE_FORMAT_VERSION mod 256]) in *.
  rewrite (bool_decide_eq_true_2 (iexp <> 0)) by lia.
  unfold bind, get_passphrase, bind, log, secure_entropy, ret, write_file. wsimpl.
  rewrite Ht0. rewrite (bool_decide_eq_false_2 (pass = [])) by done. wsimpl.
  rewrite Ht1.
  rewrite (bool_decide_eq_false_2 (pass <> pass)) by (intros Hne; by apply Hne).
  wsimpl.
  rewrite bool_decide_eq_true_2 by (rewrite length_take; lia).
  fold iv. wsimpl.
  rewrite (key_derive_salt_take _ _ (at_offset _ _)), Hsalt. fold protect.
  rewrite (bool_decide_eq_true_2 (iexp <> 0)) by lia.
  unfold sha256_final, sha256_update, sha256_init.
  rewrite app_nil_l, (take_ge protect), (take_ge seckey) by lia.
  rewrite Hsalt', Hbuf.
  rewrite !Z.mod_small by lia.
  eexists. split; [reflexivity |]. wsimpl.
  unfold protected_seckey_file. do 3 f_equal.
  rewrite !length_app, !length_take, Hsz, (proj1 (Hsha _)). simpl length.
  subst iv. rewrite length_take. lia.
Qed.

Lemma load_seckey_protected file w iv iexp tag enc tail typed pass rest :
  length iv = 8%nat -> length tag = 20%nat -> length enc = 32%nat -> iexp <> 0 ->
  files w !! file = Some (iv ++ [iexp; ENCHIVE_FORMAT_VERSION; 0; 0] ++ tag ++ enc ++ tail) ->
  agent_declined w tag -> tty w = typed :: rest ->
  typed_passphrase sizeof_pass typed = Some pass ->
  let protect := key_derive pass iexp (Some iv) in
  exists w',
    load_seckey file w
    = (if bool_decide (take 20 (SHA256 (take 32 protect)) = tag)
       then Done (chacha_encrypt_bytes
                    (chacha_ivsetup (chacha_keysetup (take 32 protect) 256) iv) enc).2
       else Fatal ErrWrongPassphrase, w').
Proof.
  intros Hiv Htag Henc Hiexp Hfile Hagent Htty Ht protect.
  destruct w as [input out u t a g f tr]. unfold agent_declined in Hagent.
  wsimpl. subst t.
  destruct (secfile_fields iv iexp ENCHIVE_FORMAT_VERSION tag enc tail Hiv Htag Henc)
    as (Hver & Hit & Hbiv & Hbtag & Hbenc).
  cbv zeta in Hver, Hit, Hbiv, Hbtag, Hbenc.
  unfold load_seckey. unfold bind at 1. wsimpl. rewrite Hfile.
  rewrite bool_decide_eq_false_2
    by (rewrite !length_app, Hiv, Htag, Henc; simpl; lia).
  set (buf := take (8 + 4 + 20 + 32) _) in *.
  rewrite Hver, Hit.
  rewrite (bool_decide_eq_false_2 (_ <> ENCHIVE_FORMAT_VERSION)) by (by intros []).
  rewrite (bool_decide_eq_true_2 (iexp <> 0)) by done.
  unfold memcmp_eq, sha256_final, sha256_update, sha256_init.
  rewrite Hbtag, Hbiv, Hbenc.
  unfold bind at 1. unfold agent_read at 1. unfold bind at 1. unfold log at 1.
  wsimpl.
  assert (Hsalt : forall p, key_derive p iexp (Some (at_offset buf SECFILE_IV))
                            = key_derive p iexp (Some iv))
    by (intros p; by rewrite key_derive_salt_take, Hbiv).
  destruct a as [sent |]; [case_bool_decide as Hsent |];
    [rewrite app_nil_l, take_take, Nat.min_id;
     rewrite (bool_decide_eq_false_2 (_ = tag)) by (destruct Hagent; [lia | done])
    | |];
    unfold bind, get_passphrase, bind, log; wsimpl; rewrite Ht;
    rewrite ?app_nil_l, Hsalt; fold protect;
    (case_bool_decide as Htagok; wsimpl; [| by eexists]);
    unfold agent_run, log, ret; wsimpl;
    (destruct (bool_decide (g <> 0)); wsimpl; by eexists).
Qed.

(** C4.  [write_seckey] of a scalar under a cost exponent in [5, 31] and a
    non-empty passphrase ends well; on the file it leaves, with no agent key
    accepted, [load_seckey] returns the scalar when the same passphrase is
    entered, and fails with the wrong-passphrase error, returning no key,
    when the key derived from the passphrase entered does not hash to the
    stored 20-byte tag.  A passphrase is entered as [get_passphrase] reads
    it: [typed0], [typed1] and [typed'] are what the terminal delivers at the
    three prompts, each of them short enough for the buffer, and the
    passphrases are the strings they leave in it. *)
Theorem seckey_roundtrip file seckey iexp typed0 typed1 pass rest w :
  sha256_sized -> chacha_sized -> chacha_lockstep -> 32 <= ULONG_BITS ->
  0 <= ENCHIVE_FORMAT_VERSION < 256 -> 5 <= iexp <= 31 ->
  length seckey = 32%nat -> tty w = typed0 :: typed1 :: rest ->
  typed_passphrase sizeof_pass typed0 = Some pass ->
  typed_passphrase sizeof_pass typed1 = Some pass -> pass <> [] ->
  (8 <= length (urandom w))%nat ->
  let iv := take 8 (urandom w) in
  let tag := take 20 (SHA256 (key_derive pass iexp (Some iv))) in
  exists w1,
    write_seckey file seckey iexp w = (Done tt, w1)
    /\ forall w2 typed' pass' rest',
         files w2 !! file = files w1 !! file ->
         agent_declined w2 tag -> tty w2 = typed' :: rest' ->
         typed_passphrase sizeof_pass typed' = Some pass' ->
         (pass' = pass -> exists w3, load_seckey file w2 = (Done seckey, w3))
         /\ (take 20 (SHA256 (key_derive pass' iexp (Some iv))) <> tag ->
             exists w3, load_seckey file w2 = (Fatal ErrWrongPassphrase, w3)).
Proof.
  intros Hsha Hsz Hlock Hw Hv Hi Hsec Htty Ht0 Ht1 Hpass Hent iv tag.
  destruct (write_seckey_protected file seckey iexp w typed0 typed1 pass rest)
    as (w1 & Hwrite & Hfiles); try done.
  exists w1. split; [done |].
  intros w2 typed' pass' rest' Hsame Hagent Htty2 Ht'.
  assert (Hiv : length iv = 8%nat) by (subst iv; rewrite length_take; lia).
  assert (Hkd : forall p, length (key_derive p iexp (Some iv)) = 32%nat).
  { intros p. apply (key_derive_kdf_from_seed p iexp (Some iv)); try done.
    intros s [= <-]. lia. }
  rewrite Hfiles, lookup_insert_eq in Hsame.
  unfold protected_seckey_file in Hsame. fold iv in Hsame. fold tag in Hsame.
  rewrite <- !app_assoc in Hsame.
  destruct (load_seckey_protected file w2 iv iexp tag _ _ typed' pass' rest'
              Hiv ltac:(subst tag; rewrite length_take, (proj1 (Hsha _)); lia)
              ltac:(by rewrite Hsz) ltac:(lia) Hsame Hagent Htty2 Ht')
    as (w3 & Hload).
  cbv zeta in Hload. rewrite (take_ge (key_derive pass' _ _)) in Hload
    by (by rewrite Hkd).
  split.
  - intros ->. exists w3. rewrite Hload.
    rewrite bool_decide_eq_true_2 by done.
    by rewrite Hlock.
  - intros Hbad. exists w3. rewrite Hload.
    by rewrite bool_decide_eq_false_2.
Qed.

(** ** Command names *)

Lemma prefix_cons a s b t :
  String.prefix (String a s) (String b t)
  = if Ascii.ascii_dec a b then String.prefix s t else false.
Proof. reflexivity. Qed.

Lemma matching_names_nonempty a s : (length (matching_names (String a s)) <= 1)%nat.
Proof.
  unfold matching_names, command_names. cbn [List.filter]. rewrite !prefix_cons.
  repeat match goal with
         | |- context [Ascii.ascii_dec ?x ?c] =>
             destruct (Ascii.ascii_dec x c) as [? | ?];
             [try discriminate; try subst a |]
         end;
    repeat match goal with
           | |- context [String.prefix s ?n] => destruct (String.prefix s n)
           end;
    simpl; lia.
Qed.

(** C10, on the code.  The table has four names, and the loop of
    [parse_command] runs [i] up to 4: for every command but the empty one it
    reaches [command_names[4]], outside the table.  Only the empty command
    is a prefix of more than one name, and it is the one command answered
    with the ambiguous marker, at index 1. *)
Theorem parse_command_reads_index_4 command :
  length command_names = 4%nat
  /\ parse_command command
     = match command with
       | EmptyString => Returned COMMAND_AMBIGUOUS
       | String _ _ => OutOfBounds 4
       end
  /\ (parse_command command = Returned COMMAND_AMBIGUOUS
      <-> (1 < length (matching_names command))%nat).
Proof.
  split; [done |]. destruct command as [| a s].
  - split; [done |]. split; [intros _; simpl; lia | done].
  - rewrite parse_command_nonempty. split; [done |].
    split; [discriminate |]. intros Hmany.
    pose proof (matching_names_nonempty a s). lia.
Qed.

End Properties.

(** * Further properties of the commands and of what surrounds them *)

Section CommandLineProperties.
Context `{Externals}.

(** Reduction of the projections and setters of [world] only, and lists of
    known length as their elements, as in the section above. *)
Ltac wsimpl :=
  cbn [fd_in fd_out set_fd_in set_fd_out set_urandom set_tty set_files urandom tty
         agent_socket global_agent_timeout files trace fst snd negb andb] in *.

Ltac explode l Hl :=
  repeat (destruct l as [| ? l]; simpl in Hl; try discriminate Hl); clear Hl.

(** ** Archives *)

(** X1.  An archive is 72 bytes longer than its plaintext. *)
Theorem command_archive_size pubfile w contents :
  sha256_sized -> chacha_sized -> donna_sized -> (0 < CHACHA_BLOCKLENGTH)%nat ->
  files w !! pubfile = Some contents -> (32 <= length contents)%nat ->
  (32 <= length (urandom w))%nat ->
  exists w',
    command_archive pubfile w = (Done tt, w')
    /\ length (fd_out w') = (length (fd_out w) + 72 + length (fd_in w))%nat
    /\ take 32 (drop (length (fd_out w) + 8) (fd_out w'))
       = compute_public (clamp (take 32 (urandom w)))
    /\ fd_in w' = [] /\ urandom w' = drop 32 (urandom w) /\ files w' = files w
    /\ trace w' = trace w.
Proof.
  intros Hsha Hsz Hdn HB Hfile Hlen Hent.
  rewrite (command_archive_spec pubfile w contents) by done. cbv zeta.
  eexists. split; [reflexivity |].
  set (esecret := clamp (take 32 (urandom w))).
  set (shared := compute_shared esecret (take 32 contents)).
  assert (Hep : length (compute_public esecret) = 32%nat) by apply Hdn.
  destruct w as [input out u t a g f tr]. wsimpl.
  repeat split.
  - rewrite length_app, length_archive_of by done. lia.
  - rewrite drop_app_ge, Nat.add_comm, Nat.add_sub by lia.
    unfold archive_of. cbv zeta.
    rewrite drop_app_length' by (by rewrite length_archive_iv).
    by apply take_app_length'.
Qed.



(** [symmetric_decrypt] on the ciphertext of [pt] followed by any 32 bytes:
    [pt] is written out, whatever the comparison of the 32 bytes with the MAC
    then gives. *)
Lemma symmetric_decrypt_stream key iv w pt mac :
  chacha_sized -> chacha_lockstep -> sha256_sized -> (0 < CHACHA_BLOCKLENGTH)%nat ->
  length mac = 32%nat ->
  fd_in w
  = chacha_stream (S (length pt)) (CHACHA_BLOCKLENGTH * 1024)
      (chacha_ivsetup (chacha_keysetup (take 32 key) 256) (take 8 iv)) pt
    ++ mac ->
  symmetric_decrypt key iv w
  = (if bool_decide (mac = hmac_pad32 key pt) then Done tt
     else Fatal ErrChecksumMismatch,
     set_fd_out (set_fd_in w []) (fd_out w ++ pt)).
Proof.
  intros Hsz Hlock Hsha HB Hmac Hin.
  assert (Hlen : length (fd_in w) = (length pt + 32)%nat).
  { rewrite Hin, length_app, length_chacha_stream, Hmac by (done || lia). done. }
  unfold symmetric_decrypt, bind, full_read. unfold SHA256_BLOCK_SIZE.
  rewrite bool_decide_eq_false_2 by (rewrite length_take; lia).
  rewrite (symmetric_decrypt_loop_spec _ Hsz Hlock HB (S (length pt)) _ _ _ _ pt mac).
  - rewrite <- hmac_pad32_eq. unfold memcmp_eq.
    rewrite (take_ge mac), (take_ge (hmac_pad32 key pt))
      by (rewrite ?length_hmac_pad32 by done; lia).
    destruct w. wsimpl. by case_bool_decide.
  - rewrite length_take. lia.
  - done.
  - destruct w. wsimpl. rewrite length_drop. lia.
  - lia.
  - destruct w. wsimpl. by rewrite take_drop.
Qed.

(** X3.  An archive whose last 32 bytes are not the MAC of its plaintext is refused
    with the checksum error, after the whole plaintext has been written. *)
Theorem command_extract_writes_before_checksum secfile w sec w1 epublic pt mac :
  sha256_sized -> chacha_sized -> chacha_lockstep -> donna_sized ->
  (0 < CHACHA_BLOCKLENGTH)%nat ->
  load_seckey secfile w = (Done sec, w1) ->
  length epublic = 32%nat -> length mac = 32%nat ->
  fd_in w
  = take (40 + length pt) (archive_of (compute_shared sec epublic) epublic pt) ++ mac ->
  mac <> hmac_pad32 (compute_shared sec epublic) pt ->
  exists w',
    command_extract secfile w = (Fatal ErrChecksumMismatch, w')
    /\ fd_out w' = fd_out w ++ pt /\ fd_in w' = [].
Proof.
  intros Hsha Hsz Hlock Hdn HB Hload Hep Hmac Hin Hbad.
  destruct (load_seckey_fds _ _ _ _ Hload) as (_ & Hout & _).
  set (shared := compute_shared sec epublic) in *.
  assert (Hsh : length shared = 32%nat) by apply Hdn.
  assert (Hiv : length (archive_iv shared) = 8%nat) by (by apply length_archive_iv).
  set (stream := chacha_stream (S (length pt)) (CHACHA_BLOCKLENGTH * 1024)
                   (chacha_ivsetup (chacha_keysetup shared 256) (archive_iv shared)) pt).
  assert (Hst : length stream = length pt)
    by (subst stream; rewrite length_chacha_stream by (done || lia); done).
  assert (Hin' : fd_in w = archive_iv shared ++ epublic ++ stream ++ mac).
  { rewrite Hin. unfold archive_of. cbv zeta. fold stream.
    rewrite !app_assoc. rewrite take_app_length'; [done |].
    rewrite !length_app, Hiv, Hep, Hst. lia. }
  assert (Hlen : length (fd_in w) = (72 + length pt)%nat).
  { rewrite Hin', !length_app, Hiv, Hep, Hst, Hmac. lia. }
  rewrite (command_extract_header _ _ _ _ Hload). cbv zeta.
  rewrite !bool_decide_eq_false_2 by lia.
  assert (H8 : take 8 (fd_in w) = archive_iv shared)
    by (rewrite Hin'; by apply take_app_length').
  assert (H32 : take 32 (drop 8 (fd_in w)) = epublic).
  { rewrite Hin'. rewrite drop_app_length' by done. by apply take_app_length'. }
  rewrite H8, H32. fold shared. rewrite bool_decide_eq_true_2 by done.
  rewrite (symmetric_decrypt_stream _ _ _ pt mac); try done.
  - rewrite bool_decide_eq_false_2 by done.
    eexists. split; [reflexivity |]. destruct w1. wsimpl. by rewrite Hout.
  - destruct w1. wsimpl. rewrite Hin'.
    rewrite (take_ge shared), (take_ge (archive_iv shared)) by lia.
    change 40%nat with (8 + 32)%nat. rewrite <- drop_drop.
    rewrite drop_app_length' by done. by rewrite drop_app_length' by done.
Qed.

(** ** The secret-key file without protection *)

(** The buffer [write_seckey] builds for an unprotected key. *)
Lemma secfile_layout_plain v seckey :
  length seckey = 32%nat ->
  take (8 + 1 + 3 + 20 + 32)
    (store (store (repeat 0 (8 + 1 + 3 + 20 + 32)) SECFILE_VERSION [v])
       SECFILE_SECKEY seckey)
  = repeat 0 8 ++ [0; v; 0; 0] ++ repeat 0 20 ++ seckey.
Proof. intros Hsec. explode seckey Hsec. reflexivity. Qed.

(** A key file whose iterations byte is 0 holds the key in the clear:
    [load_seckey] returns its bytes 32 to 63 and leaves the world as it was. *)
Lemma load_seckey_plain file w iv p1 p2 tag seckey tail :
  length iv = 8%nat -> length tag = 20%nat -> length seckey = 32%nat ->
  files w !! file
  = Some (iv ++ [0; ENCHIVE_FORMAT_VERSION; p1; p2] ++ tag ++ seckey ++ tail) ->
  load_seckey file w = (Done seckey, w).
Proof.
  intros Hiv Htag Hsec Hfile. unfold load_seckey, bind. rewrite Hfile.
  rewrite bool_decide_eq_false_2
    by (rewrite !length_app, Hiv, Htag, Hsec; simpl; lia).
  assert (Hf : let buf := take (8 + 4 + 20 + 32)
                            (iv ++ [0; ENCHIVE_FORMAT_VERSION; p1; p2] ++ tag
                                ++ seckey ++ tail) in
               buf !!! Z.to_nat SECFILE_VERSION = ENCHIVE_FORMAT_VERSION
               /\ buf !!! Z.to_nat SECFILE_ITERATIONS = 0
               /\ take 32 (at_offset buf SECFILE_SECKEY) = seckey).
  { clear Hfile. explode iv Hiv. explode tag Htag. explode seckey Hsec.
    repeat split; reflexivity. }
  cbv zeta in Hf. destruct Hf as (Hver & Hit & Hkey).
  rewrite Hver, Hit, Hkey.
  rewrite bool_decide_eq_false_2 by (by intros []).
  rewrite bool_decide_eq_false_2 by (by intros []).
  done.
Qed.

(** What [write_seckey] leaves without a cost exponent, or when the
    passphrase entered is empty. *)
Lemma write_seckey_plain file seckey iexp w :
  0 <= ENCHIVE_FORMAT_VERSION < 256 -> length seckey = 32%nat ->
  iexp = 0 \/ typed_passphrase sizeof_pass (hd [] (tty w)) = Some [] ->
  exists w',
    write_seckey file seckey iexp w = (Done tt, w')
    /\ files w'
       = <[file := (repeat 0 8 ++ [0; ENCHIVE_FORMAT_VERSION; 0; 0] ++ repeat 0 20
                      ++ seckey)
                   ++ drop 64 (default [] (files w !! file))]> (files w)
    /\ urandom w' = urandom w
    /\ load_seckey file w' = (Done seckey, w').
Proof.
  intros Hv Hsec Hplain.
  pose proof (secfile_layout_plain (ENCHIVE_FORMAT_VERSION mod 256) seckey Hsec) as Hbuf.
  assert (Hload : forall w0 old,
             files w0 !! file
             = Some ((repeat 0 8 ++ [0; ENCHIVE_FORMAT_VERSION; 0; 0] ++ repeat 0 20
                        ++ seckey) ++ old) ->
             load_seckey file w0 = (Done seckey, w0)).
  { intros w0 old Hf. apply (load_seckey_plain file w0 (repeat 0 8) 0 0 (repeat 0 20)
                               seckey old);
      first [done | by rewrite Hf, <- !app_assoc]. }
  unfold write_seckey.
  set (buf1 := store (repeat 0 (8 + 1 + 3 + 20 + 32)) SECFILE_VERSION
                 [ENCHIVE_FORMAT_VERSION mod 256]) in *.
  destruct w as [input out u t a g f tr]. wsimpl.
  case_bool_decide as Hiexp.
  - destruct Hplain as [-> | Hempty]; [done |].
    unfold bind, get_passphrase, bind, log, ret, write_file. wsimpl.
    destruct t as [| typed0 t']; simpl in Hempty; wsimpl; rewrite Hempty;
      rewrite (bool_decide_eq_true_2 ([] = [])) by done; wsimpl;
      rewrite (bool_decide_eq_false_2 (0 <> 0)) by (by intros []);
      rewrite (take_ge seckey), Hbuf, Z.mod_small by (done || lia);
      (eexists; split; [reflexivity |]; wsimpl;
       rewrite !length_app, !repeat_length, Hsec; simpl length;
       change (8 + (4 + (20 + 32)))%nat with 64%nat;
       split; [done |]; split; [done |];
       eapply Hload; wsimpl; by rewrite lookup_insert_eq).
  - subst iexp. unfold bind, ret, write_file. wsimpl.
    rewrite (bool_decide_eq_false_2 (0 <> 0)) by (by intros []).
    rewrite (take_ge seckey), Hbuf, Z.mod_small by (done || lia).
    eexists. split; [reflexivity |]. wsimpl.
    rewrite !length_app, !repeat_length, Hsec. simpl length.
    change (8 + (4 + (20 + 32)))%nat with 64%nat.
    split; [done |]. split; [done |].
    eapply Hload. wsimpl. by rewrite lookup_insert_eq.
Qed.

(** X4.  Without a cost exponent ([--plain]), or when the passphrase entered is
    empty, [write_seckey] stores the key unencrypted, with the iterations byte
    0 and no salt or tag, and [load_seckey] reads it back without a question. *)
Theorem write_seckey_unprotected file seckey iexp w :
  0 <= ENCHIVE_FORMAT_VERSION < 256 -> length seckey = 32%nat ->
  iexp = 0 \/ typed_passphrase sizeof_pass (hd [] (tty w)) = Some [] ->
  exists w',
    write_seckey file seckey iexp w = (Done tt, w')
    /\ files w'
       = <[file := (repeat 0 8 ++ [0; ENCHIVE_FORMAT_VERSION; 0; 0] ++ repeat 0 20
                      ++ seckey)
                   ++ drop 64 (default [] (files w !! file))]> (files w)
    /\ urandom w' = urandom w
    /\ load_seckey file w' = (Done seckey, w').
Proof. apply write_seckey_plain. Qed.

(** X5.  Two passphrases that differ end [write_seckey] before it has drawn a salt
    or opened the key file.  The passphrases are the strings that the two
    entries [typed0] and [typed1] leave in their buffers, the first of them
    not empty: entries that differ after a NUL or after the end of the line
    only are the same passphrase. *)
Theorem write_seckey_passphrase_mismatch
    file seckey iexp w typed0 typed1 pass0 pass1 rest :
  iexp <> 0 -> tty w = typed0 :: typed1 :: rest ->
  typed_passphrase sizeof_pass typed0 = Some pass0 ->
  typed_passphrase sizeof_pass typed1 = Some pass1 ->
  pass0 <> [] -> pass0 <> pass1 ->
  exists w',
    write_seckey file seckey iexp w = (Fatal ErrPassphrasesDontMatch, w')
    /\ files w' = files w /\ urandom w' = urandom w /\ tty w' = rest.
Proof.
  intros Hiexp Htty Ht0 Ht1 Hne Hdiff. unfold write_seckey.
  destruct w as [input out u t a g f tr]. wsimpl. subst t.
  rewrite (bool_decide_eq_true_2 (iexp <> 0)) by done.
  unfold bind, get_passphrase, bind, log. wsimpl. rewrite Ht0.
  rewrite (bool_decide_eq_false_2 (pass0 = [])) by done. wsimpl. rewrite Ht1.
  rewrite (bool_decide_eq_true_2 (pass0 <> pass1)) by done.
  eexists. split; [reflexivity |]. done.
Qed.

(** ** The key agent *)

(** X6.  A key the agent sends that hashes to the tag of the file is used as it is:
    the secret key is decrypted with it, nothing is asked at the terminal and
    no agent is started. *)
Theorem load_seckey_agent_key file w iv iexp protect seckey tail sent :
  sha256_sized -> chacha_sized -> chacha_lockstep ->
  length iv = 8%nat -> length protect = 32%nat -> length seckey = 32%nat ->
  iexp <> 0 ->
  files w !! file = Some (protected_seckey_file iv iexp protect seckey ++ tail) ->
  agent_socket w = Some sent -> take 32 sent = protect ->
  exists w',
    load_seckey file w = (Done seckey, w')
    /\ trace w' = trace w ++ [EvAgentRead iv] /\ tty w' = tty w.
Proof.
  intros Hsha Hsz Hlock Hiv Hprot Hsec Hiexp Hfile Hagent Hsent.
  destruct w as [input out u t a g f tr]. wsimpl. subst a.
  set (tag := take 20 (SHA256 protect)).
  set (enc := (chacha_encrypt_bytes
                 (chacha_ivsetup (chacha_keysetup protect 256) iv) seckey).2).
  assert (Htag : length tag = 20%nat)
    by (subst tag; rewrite length_take, (proj1 (Hsha _)); lia).
  assert (Henc : length enc = 32%nat) by (subst enc; by rewrite Hsz).
  unfold protected_seckey_file in Hfile. fold tag enc in Hfile.
  rewrite <- !app_assoc in Hfile.
  destruct (secfile_fields iv iexp ENCHIVE_FORMAT_VERSION tag enc tail Hiv Htag Henc)
    as (Hver & Hit & Hbiv & Hbtag & Hbenc).
  cbv zeta in Hver, Hit, Hbiv, Hbtag, Hbenc.
  unfold load_seckey. unfold bind at 1. wsimpl. rewrite Hfile.
  rewrite bool_decide_eq_false_2
    by (rewrite !length_app, Hiv, Htag, Henc; simpl; lia).
  set (buf := take (8 + 4 + 20 + 32) _) in *.
  rewrite Hver, Hit.
  rewrite (bool_decide_eq_false_2 (_ <> ENCHIVE_FORMAT_VERSION)) by (by intros []).
  rewrite (bool_decide_eq_true_2 (iexp <> 0)) by done.
  unfold memcmp_eq, sha256_final, sha256_update, sha256_init.
  rewrite Hbtag, Hbiv, Hbenc.
  unfold bind at 1. unfold agent_read at 1. unfold bind at 1. unfold log at 1.
  wsimpl.
  assert (Hlen : (32 <= length sent)%nat).
  { rewrite <- Hprot, <- Hsent, length_take. lia. }
  rewrite (bool_decide_eq_true_2 (32 <= length sent)%nat) by done.
  rewrite Hbiv, app_nil_l, take_take, Nat.min_id, Hsent.
  fold tag. rewrite (bool_decide_eq_true_2 (tag = tag)) by done.
  unfold bind, ret. wsimpl. rewrite (take_ge protect) by lia.
  fold enc. subst enc. rewrite Hlock. cbn [snd].
  eexists. split; [reflexivity |]. done.
Qed.

(** X7.  When the passphrase had to be entered and the agent timeout is not zero,
    [load_seckey] starts an agent with the derived protection key under the IV
    of the file; with a timeout of zero it starts none.  The passphrase is
    the string that the entry [typed] leaves in the buffer of
    [get_passphrase]. *)
Theorem load_seckey_starts_agent file w iv iexp seckey tail typed pass rest :
  sha256_sized -> chacha_sized -> chacha_lockstep -> 32 <= ULONG_BITS ->
  5 <= iexp <= 31 -> length iv = 8%nat -> length seckey = 32%nat ->
  let protect := key_derive pass iexp (Some iv) in
  files w !! file = Some (protected_seckey_file iv iexp protect seckey ++ tail) ->
  agent_declined w (take 20 (SHA256 protect)) -> tty w = typed :: rest ->
  typed_passphrase sizeof_pass typed = Some pass ->
  exists w',
    load_seckey file w = (Done seckey, w')
    /\ trace w'
       = trace w ++ [EvAgentRead iv; EvPrompt "passphrase: "]
           ++ (if bool_decide (global_agent_timeout w = 0) then []
               else [EvAgentRun protect iv])
    /\ tty w' = rest.
Proof.
  intros Hsha Hsz Hlock Hw Hi Hiv Hsec protect Hfile Hagent Htty Ht.
  assert (Hprot : length protect = 32%nat).
  { apply (key_derive_kdf_from_seed pass iexp (Some iv)); try done.
    intros s [= <-]. lia. }
  destruct w as [input out u t a g f tr]. unfold agent_declined in Hagent.
  wsimpl. subst t.
  set (tag := take 20 (SHA256 protect)) in *.
  set (enc := (chacha_encrypt_bytes
                 (chacha_ivsetup (chacha_keysetup protect 256) iv) seckey).2).
  assert (Htag : length tag = 20%nat)
    by (subst tag; rewrite length_take, (proj1 (Hsha _)); lia).
  assert (Henc : length enc = 32%nat) by (subst enc; by rewrite Hsz).
  unfold protected_seckey_file in Hfile. fold tag enc in Hfile.
  rewrite <- !app_assoc in Hfile.
  destruct (secfile_fields iv iexp ENCHIVE_FORMAT_VERSION tag enc tail Hiv Htag Henc)
    as (Hver & Hit & Hbiv & Hbtag & Hbenc).
  cbv zeta in Hver, Hit, Hbiv, Hbtag, Hbenc.
  unfold load_seckey. unfold bind at 1. wsimpl. rewrite Hfile.
  rewrite bool_decide_eq_false_2
    by (rewrite !length_app, Hiv, Htag, Henc; simpl; lia).
  set (buf := take (8 + 4 + 20 + 32) _) in *.
  rewrite Hver, Hit.
  rewrite (bool_decide_eq_false_2 (_ <> ENCHIVE_FORMAT_VERSION)) by (by intros []).
  rewrite (bool_decide_eq_true_2 (iexp <> 0)) by lia.
  unfold memcmp_eq, sha256_final, sha256_update, sha256_init.
  rewrite Hbtag, Hbiv, Hbenc.
  unfold bind at 1. unfold agent_read at 1. unfold bind at 1. unfold log at 1.
  wsimpl.
  assert (Hsalt : key_derive pass iexp (Some (at_offset buf SECFILE_IV)) = protect)
    by (subst protect; by rewrite key_derive_salt_take, Hbiv).
  assert (Hok : take 20 (SHA256 (take 32 protect)) = tag)
    by (by rewrite (take_ge protect) by lia).
  destruct a as [sent |]; [case_bool_decide as Hsent |];
    [rewrite app_nil_l, take_take, Nat.min_id;
     rewrite (bool_decide_eq_false_2 (_ = tag)) by (destruct Hagent; [lia | done])
    | |];
    unfold bind, get_passphrase, bind, log; wsimpl; rewrite Ht;
    rewrite ?app_nil_l, Hsalt, Hok;
    rewrite (bool_decide_eq_true_2 (tag = tag)) by done;
    wsimpl; unfold agent_run, log, ret; wsimpl;
    rewrite ?Hbiv, (take_ge protect) by lia; fold enc; subst enc; rewrite Hlock;
    cbn [snd];
    (destruct (decide (g = 0)) as [Hg | Hg];
     [rewrite (bool_decide_eq_false_2 (g <> 0)) by (intros Hn; by apply Hn);
      rewrite (bool_decide_eq_true_2 (g = 0)) by done
     |rewrite (bool_decide_eq_true_2 (g <> 0)) by done;
      rewrite (bool_decide_eq_false_2 (g = 0)) by done]);
    wsimpl; (eexists; split; [reflexivity |]); wsimpl;
    rewrite <- ?app_assoc; done.
Qed.

(** ** Key generation *)

(** X8.  [command_keygen] overwrites no key file unless [--force] or [--edit] is
    given: when one of the two files exists it stops at once, and the world is
    as it was. *)
Theorem command_keygen_refuses_to_clobber o w :
  kg_edit o = false -> kg_clobber o = false ->
  is_Some (files w !! kg_pubfile o) \/ is_Some (files w !! kg_secfile o) ->
  exists file,
    command_keygen o w = (Fatal (ErrClobber file), w)
    /\ is_Some (files w !! file)
    /\ (file = kg_pubfile o \/ file = kg_secfile o).
Proof.
  intros Hedit Hclobber Hexists. unfold command_keygen.
  rewrite Hedit, Hclobber. unfold bind, file_exists. cbn [negb andb].
  destruct (decide (is_Some (files w !! kg_pubfile o))) as [Hpub | Hpub].
  - rewrite (bool_decide_eq_true_2 _ Hpub). exists (kg_pubfile o). by auto.
  - rewrite (bool_decide_eq_false_2 _ Hpub).
    destruct Hexists as [? | Hsec]; [done |].
    rewrite (bool_decide_eq_true_2 _ Hsec). exists (kg_secfile o). by auto.
Qed.

(** A run of [command_keygen] that ends well, step by step. *)
Lemma command_keygen_Done o w w' :
  command_keygen o w = (Done tt, w') ->
  exists s w1 w3,
    command_keygen_secret o (bool_decide (is_Some (files w !! kg_secfile o))) w
    = (Done s, w1)
    /\ write_seckey (kg_secfile o) s
         (if kg_protect o then kg_key_derive_iterations o else 0)
         (if kg_fingerprint o then (print_fingerprint (compute_public s) w1).2 else w1)
       = (Done tt, w3)
    /\ write_pubkey (kg_pubfile o) (compute_public s) w3 = (Done tt, w').
Proof.
  unfold command_keygen. intros Hrun.
  destruct (kg_edit o && kg_derive o); [discriminate |].
  unfold bind at 1 in Hrun. unfold file_exists at 1 in Hrun.
  unfold bind at 1 in Hrun. unfold file_exists at 1 in Hrun.
  destruct (negb (kg_edit o) && negb (kg_clobber o) && _); [discriminate |].
  destruct (negb (kg_edit o) && negb (kg_clobber o) && _); [discriminate |].
  apply bind_Done in Hrun as (s & w1 & Hsecret & Hrun).
  apply bind_Done in Hrun as ([] & w2 & Hprint & Hrun).
  apply bind_Done in Hrun as ([] & w3 & Hwrite & Hpub).
  exists s, w1, w3. split; [done |]. split; [| done].
  destruct (kg_fingerprint o).
  - by rewrite Hprint.
  - injection Hprint as <-. done.
Qed.

Lemma print_fingerprint_frame key w :
  files (print_fingerprint key w).2 = files w
  /\ tty (print_fingerprint key w).2 = tty w
  /\ urandom (print_fingerprint key w).2 = urandom w.
Proof. done. Qed.

(** [write_pubkey] puts the 32 bytes of the key at the start of the file. *)
Lemma load_write_pubkey file key w w' other :
  length key = 32%nat -> write_pubkey file key w = (Done tt, w') ->
  load_pubkey file w' = (Done key, w')
  /\ (other <> file -> files w' !! other = files w !! other).
Proof.
  intros Hkey. unfold write_pubkey, write_file. intros [= <-].
  unfold load_pubkey. destruct w. wsimpl. rewrite lookup_insert_eq.
  rewrite bool_decide_eq_false_2 by (rewrite length_app, length_take; lia).
  rewrite take_app_length' by (rewrite length_take; lia).
  rewrite take_ge by lia. split; [done |]. intros Hne.
  by rewrite lookup_insert_ne.
Qed.

(** The scalar of the entropy and of the derivation path has 32 bytes. *)
Lemma command_keygen_secret_length o secfile_exists w s w' :
  sha256_sized -> 32 <= ULONG_BITS -> 5 <= kg_seckey_derive_iterations o <= 31 ->
  kg_edit o = false ->
  command_keygen_secret o secfile_exists w = (Done s, w') ->
  length s = 32%nat /\ clamped s /\ files w' = files w
  /\ (kg_derive o = false ->
      s = clamp (take 32 (urandom w)) /\ tty w' = tty w
      /\ urandom w' = drop 32 (urandom w)).
Proof.
  intros Hsha Hw Hit Hedit. unfold command_keygen_secret. rewrite Hedit.
  destruct (kg_derive o).
  - intros Hrun.
    apply bind_Done in Hrun as (pass0 & w1 & Hp0 & Hrun).
    apply bind_Done in Hrun as (pass1 & w2 & Hp1 & Hrun).
    case_bool_decide; [discriminate |]. injection Hrun as <- <-.
    assert (Hlen : length (key_derive pass0 (kg_seckey_derive_iterations o) None)
                   = 32%nat) by (by apply (key_derive_kdf_from_seed pass0 _ None)).
    split; [by rewrite length_clamp |]. split; [by apply clamp_clamped |].
    split; [| done].
    pose proof (preserves_get_passphrase files sizeof_pass "secret key passphrase: "
                  ltac:(done) ltac:(done) w) as H1.
    pose proof (preserves_get_passphrase files sizeof_pass "secret key passphrase (repeat): "
                  ltac:(done) ltac:(done) w1) as H2.
    rewrite Hp0 in H1. rewrite Hp1 in H2. simpl in H1, H2. congruence.
  - unfold generate_secret. intros Hrun.
    apply bind_Done in Hrun as (e & w1 & Hent & Hrun).
    injection Hrun as <- <-.
    unfold secure_entropy in Hent. cbv zeta in Hent.
    case_bool_decide as Hlen; [| discriminate]. injection Hent as <- <-.
    split; [by rewrite length_clamp |]. split; [by apply clamp_clamped |].
    destruct w. by wsimpl.
Qed.

(** X9.  The two files an unprotected [command_keygen] leaves are a key pair: the
    secret key file gives back a clamped scalar, without a question, and the
    public key file holds the public key of that scalar. *)
Theorem command_keygen_plain_pair o w w' :
  sha256_sized -> donna_sized -> 32 <= ULONG_BITS ->
  0 <= ENCHIVE_FORMAT_VERSION < 256 -> 5 <= kg_seckey_derive_iterations o <= 31 ->
  kg_edit o = false -> kg_protect o = false -> kg_pubfile o <> kg_secfile o ->
  command_keygen o w = (Done tt, w') ->
  exists s,
    length s = 32%nat /\ clamped s
    /\ load_seckey (kg_secfile o) w' = (Done s, w')
    /\ load_pubkey (kg_pubfile o) w' = (Done (compute_public s), w').
Proof.
  intros Hsha Hdn Hw Hv Hit Hedit Hprot Hdiff Hrun.
  apply command_keygen_Done in Hrun as (s & w1 & w3 & Hsecret & Hwrite & Hpub).
  destruct (command_keygen_secret_length _ _ _ _ _ Hsha Hw Hit Hedit Hsecret)
    as (Hlen & Hcl & _).
  exists s. split; [done |]. split; [done |].
  rewrite Hprot in Hwrite.
  destruct (write_seckey_plain (kg_secfile o) s 0
              (if kg_fingerprint o then (print_fingerprint (compute_public s) w1).2
               else w1) Hv Hlen ltac:(by left))
    as (w3' & Hwrite' & Hfiles & _ & _).
  rewrite Hwrite in Hwrite'. injection Hwrite' as <-.
  destruct (load_write_pubkey _ _ _ _ (kg_secfile o) (length_compute_public s Hdn) Hpub)
    as (Hloadpub & Hother).
  split; [| done].
  eapply (load_seckey_plain _ _ (repeat 0 8) 0 0 (repeat 0 20) s); try done.
  rewrite Hother by done. rewrite Hfiles, lookup_insert_eq.
  by rewrite <- !app_assoc.
Qed.

Lemma bind_eq {A B} (m : M A) (k : A -> M B) w a w1 :
  m w = (Done a, w1) -> bind m k w = k a w1.
Proof. unfold bind. by intros ->. Qed.

(** X10.  The default run of [command_keygen], from entropy and under a passphrase:
    it ends well, the public key file holds the public key of the clamped
    scalar drawn, and the secret key file gives that scalar back to whoever
    enters the passphrase.  The passphrase is the non-empty string that the
    entries [typed0] and [typed1], and later [typed2], leave in the buffer of
    [get_passphrase]. *)
Theorem command_keygen_protected_pair o w typed0 typed1 pass rest :
  sha256_sized -> chacha_sized -> chacha_lockstep -> donna_sized ->
  32 <= ULONG_BITS -> 0 <= ENCHIVE_FORMAT_VERSION < 256 ->
  5 <= kg_key_derive_iterations o <= 31 ->
  kg_edit o = false -> kg_derive o = false -> kg_protect o = true ->
  kg_pubfile o <> kg_secfile o ->
  kg_clobber o = true
  \/ files w !! kg_pubfile o = None /\ files w !! kg_secfile o = None ->
  (40 <= length (urandom w))%nat -> tty w = typed0 :: typed1 :: rest ->
  typed_passphrase sizeof_pass typed0 = Some pass ->
  typed_passphrase sizeof_pass typed1 = Some pass -> pass <> [] ->
  let s := clamp (take 32 (urandom w)) in
  exists w',
    command_keygen o w = (Done tt, w')
    /\ load_pubkey (kg_pubfile o) w' = (Done (compute_public s), w')
    /\ forall w2 typed2 rest',
         files w2 !! kg_secfile o = files w' !! kg_secfile o ->
         agent_socket w2 = None -> tty w2 = typed2 :: rest' ->
         typed_passphrase sizeof_pass typed2 = Some pass ->
         exists w3, load_seckey (kg_secfile o) w2 = (Done s, w3).
Proof.
  intros Hsha Hsz Hlock Hdn Hw Hv Hi Hedit Hderive Hprot Hdiff Hfree Hent Htty Ht0 Ht1
    Hpass s.
  assert (Hs : length s = 32%nat)
    by (subst s; rewrite length_clamp, length_take; lia).
  set (w1 := set_urandom w (drop 32 (urandom w))).
  set (w2 := if kg_fingerprint o then (print_fingerprint (compute_public s) w1).2
             else w1).
  assert (Hw2 : tty w2 = typed0 :: typed1 :: rest /\ urandom w2 = drop 32 (urandom w)
                /\ files w2 = files w).
  { subst w2 w1. destruct (kg_fingerprint o); destruct w; by wsimpl. }
  destruct Hw2 as (Htty2 & Hu2 & Hf2).
  destruct (write_seckey_protected (kg_secfile o) s (kg_key_derive_iterations o) w2
              typed0 typed1 pass rest Hsha Hsz Hw Hv Hi Hs Htty2 Ht0 Ht1 Hpass
              ltac:(rewrite Hu2, length_drop; lia))
    as (w3 & Hwrite & Hfiles).
  cbv zeta in Hfiles. rewrite Hu2 in Hfiles.
  set (iv := take 8 (drop 32 (urandom w))) in *.
  set (protect := key_derive pass (kg_key_derive_iterations o) (Some iv)) in *.
  destruct (write_pubkey (kg_pubfile o) (compute_public s) w3) as [r w4] eqn:Hpub.
  assert (r = Done tt) as -> by (by injection Hpub as <- _).
  destruct (load_write_pubkey _ _ _ _ (kg_secfile o) (length_compute_public s Hdn) Hpub)
    as (Hloadpub & Hother).
  exists w4. split; [| split; [done |]].
  - unfold command_keygen. rewrite Hedit, Hderive, Hprot. cbn [andb negb].
    unfold bind at 1. unfold file_exists at 1.
    unfold bind at 1. unfold file_exists at 1.
    destruct (negb (kg_clobber o) && bool_decide (is_Some (files w !! kg_pubfile o)))
      eqn:Hc1.
    { destruct Hfree as [Hc | [Hnone _]]; [by rewrite Hc in Hc1 |].
      rewrite Hnone in Hc1. rewrite bool_decide_eq_false_2 in Hc1 by (by intros [? ?]).
      by rewrite andb_false_r in Hc1. }
    destruct (negb (kg_clobber o) && bool_decide (is_Some (files w !! kg_secfile o)))
      eqn:Hc2.
    { destruct Hfree as [Hc | [_ Hnone]]; [by rewrite Hc in Hc2 |].
      rewrite Hnone in Hc2. rewrite bool_decide_eq_false_2 in Hc2 by (by intros [? ?]).
      by rewrite andb_false_r in Hc2. }
    assert (Hsecret :
      command_keygen_secret o (bool_decide (is_Some (files w !! kg_secfile o))) w
      = (Done s, w1)).
    { unfold command_keygen_secret. rewrite Hedit, Hderive.
      unfold generate_secret, bind, secure_entropy. cbv zeta.
      rewrite bool_decide_eq_true_2 by (rewrite length_take; lia). done. }
    rewrite (bind_eq _ _ _ _ _ Hsecret).
    assert (Hprint :
      (if kg_fingerprint o then print_fingerprint (compute_public s) else ret tt) w1
      = (Done tt, w2)) by (subst w2; by destruct (kg_fingerprint o)).
    rewrite (bind_eq _ _ _ _ _ Hprint).
    rewrite (bind_eq _ _ _ _ _ Hwrite). done.
  - intros w5 typed2 rest' Hsame Hagent Htty5 Ht2.
    assert (Hiv : length iv = 8%nat)
      by (subst iv; rewrite length_take, length_drop; lia).
    assert (Hkd : length protect = 32%nat).
    { apply (key_derive_kdf_from_seed pass _ (Some iv)); try done.
      intros x [= <-]. lia. }
    rewrite Hother, Hfiles, lookup_insert_eq in Hsame by done.
    unfold protected_seckey_file in Hsame. rewrite <- !app_assoc in Hsame.
    destruct (load_seckey_protected (kg_secfile o) w5 iv (kg_key_derive_iterations o)
                (take 20 (SHA256 protect))
                (chacha_encrypt_bytes (chacha_ivsetup (chacha_keysetup protect 256) iv)
                   s).2
                (drop 64 (default [] (files w2 !! kg_secfile o))) typed2 pass rest' Hiv
                ltac:(rewrite length_take, (proj1 (Hsha _)); lia)
                ltac:(by rewrite Hsz) ltac:(lia) Hsame
                ltac:(unfold agent_declined; by rewrite Hagent) Htty5 Ht2)
      as (w6 & Hload).
    cbv zeta in Hload. fold protect in Hload.
    rewrite (take_ge protect) in Hload by lia.
    rewrite bool_decide_eq_true_2 in Hload by done.
    rewrite Hlock in Hload. by exists w6.
Qed.

(** ** The buffer of the key derivation *)

(** The first loop of [key_derive] writes inside the buffer, whatever the
    number of rounds it is given: [p] is a multiple of 32 that the test of the
    loop keeps below [memlen + 32]. *)
Lemma key_derive_fill_bounds n fuel :
  sha256_sized ->
  forall k memory,
    (1 <= k <= S n)%nat -> length memory = (32 * S n)%nat ->
    let r := key_derive_fill fuel (32 * Z.of_nat n) memory (32 * Z.of_nat k) in
    length r.1 = (32 * S n)%nat /\ 32 <= r.2 <= 32 * Z.of_nat n + 32.
Proof.
  intros Hsha. induction fuel as [| fuel IH]; intros k memory Hk Hlen r; subst r.
  { simpl. lia. }
  rewrite key_derive_fill_S.
  destruct (Z.ltb_spec (32 * Z.of_nat k) (32 * Z.of_nat n + 32)) as [Hlt | Hge].
  - replace (32 * Z.of_nat k + 32) with (32 * Z.of_nat (S k)) by lia.
    apply IH; [lia |].
    rewrite length_store; [done |]. rewrite (proj1 (Hsha _)). lia.
  - simpl. lia.
Qed.

(** X11.  [key_derive] never reads or writes outside the [memlen + 32] bytes it
    allocates.  A [store] that ran past the end of the buffer would lengthen
    it: after any number of rounds of either loop the buffer has the length
    it was allocated with, the fill pointer is at most at its end, and the
    pointer of the second loop is below [memlen], so that the 32 bytes at
    it end before the last byte of the buffer.  The result is read at such
    a pointer. *)
Theorem key_derive_stays_in_buffer passphrase iexp salt fuel rounds :
  sha256_sized -> 32 <= ULONG_BITS -> 5 <= iexp <= 31 ->
  let memlen := 2 ^ iexp in
  let salt32 := match salt with
                | Some s => store (repeat 0 SHA256_BLOCK_SIZE) 0 (take 8 s)
                | None => repeat 0 SHA256_BLOCK_SIZE
                end in
  let seed := hmac_final (sha256_update (hmac_init salt32) passphrase
                            (strlen passphrase)) salt32 in
  let memory := store (repeat 0 (Z.to_nat (memlen + 32))) 0 seed in
  let fill fuel := key_derive_fill fuel memlen memory 32 in
  let mix rounds :=
    key_derive_mix rounds (memlen - 1) (fill (Z.to_nat (memlen / 32) + 1)%nat).1
      (memlen - 32) in
  (length (fill fuel).1 = Z.to_nat (memlen + 32)
   /\ 32 <= (fill fuel).2 <= memlen + 32)
  /\ (length (mix rounds).1 = Z.to_nat (memlen + 32)
      /\ 0 <= (mix rounds).2 /\ (mix rounds).2 + 32 < memlen + 32)
  /\ key_derive passphrase iexp salt
     = load (mix (Z.to_nat (2 ^ (iexp - 5)))).1 (mix (Z.to_nat (2 ^ (iexp - 5)))).2 32.
Proof.
  intros Hsha Hw Hi memlen salt32 seed memory fill mix.
  destruct (pow2_iexp iexp Hi) as (Hn & Hmem & Hit).
  set (n := Z.to_nat (2 ^ (iexp - 5))) in *.
  assert (Hseed : length seed = 32%nat) by apply Hsha.
  assert (Hmemory : length memory = (32 * S n)%nat).
  { subst memory. rewrite length_store; rewrite repeat_length; subst memlen; lia. }
  assert (Hsize : Z.to_nat (memlen + 32) = (32 * S n)%nat) by (subst memlen; lia).
  assert (Hfill : forall fuel, length (fill fuel).1 = (32 * S n)%nat
                               /\ 32 <= (fill fuel).2 <= memlen + 32).
  { intros fuel'. subst fill. cbv beta. subst memlen. rewrite Hn.
    apply (key_derive_fill_bounds n fuel' Hsha 1 memory); [lia | done]. }
  split; [rewrite Hsize; apply Hfill |]. split.
  - subst mix. cbv beta.
    destruct (key_derive_mix_spec iexp rounds Hsha Hw ltac:(lia)
                (fill (Z.to_nat (memlen / 32) + 1)%nat).1 (memlen - 32))
      as (_ & Hl & Hp).
    { subst memlen. lia. }
    { rewrite (proj1 (Hfill _)). subst memlen. lia. }
    fold memlen in Hl, Hp. rewrite Hl, (proj1 (Hfill _)). lia.
  - subst mix fill. cbv beta. unfold key_derive.
    rewrite !Z.shiftl_1_l.
    rewrite (ulong_small (2 ^ iexp)) by (done || lia).
    rewrite (ulong_small (2 ^ iexp - 1)) by (done || lia).
    rewrite (ulong_small (2 ^ (iexp - 5))) by (done || lia).
    fold n memlen salt32 seed. change (Z.of_nat SHA256_BLOCK_SIZE) with 32.
    fold memory.
    destruct (key_derive_fill _ memlen memory 32) as [m1 p1]. cbn [fst].
    destruct (key_derive_mix n (memlen - 1) m1 (memlen - 32)) as [m2 p2]. done.
Qed.

(** ** Strings and hexadecimal digits *)

Lemma append_cons x (a b : string) : String x a +:+ b = String x (a +:+ b).
Proof. reflexivity. Qed.

Lemma append_assoc (a b c : string) : (a +:+ b) +:+ c = a +:+ b +:+ c.
Proof. induction a as [| x a IH]; [done |]. by rewrite !append_cons, IH. Qed.

Lemma append_nil_r (a : string) : a +:+ "" = a.
Proof. induction a as [| x a IH]; [done |]. by rewrite append_cons, IH. Qed.

Lemma length_append (a b : string) :
  String.length (a +:+ b) = (String.length a + String.length b)%nat.
Proof.
  induction a as [| x a IH]; [done |].
  rewrite append_cons. cbn [String.length]. by rewrite IH.
Qed.

Lemma zeros_S k : zeros (S k) = zeros k +:+ "0".
Proof.
  induction k as [| k IH]; [done |].
  change (zeros (S (S k))) with ("0" +:+ zeros (S k)). rewrite IH at 1.
  by rewrite <- append_assoc.
Qed.

Lemma length_zeros k : String.length (zeros k) = k.
Proof.
  induction k as [| k IH]; [done |].
  change (zeros (S k)) with ("0" +:+ zeros k). by rewrite length_append, IH.
Qed.

(** The sixteen digits. *)
Lemma hex_digit_cases d :
  0 <= d < 16 ->
  d = 0 \/ d = 1 \/ d = 2 \/ d = 3 \/ d = 4 \/ d = 5 \/ d = 6 \/ d = 7 \/
  d = 8 \/ d = 9 \/ d = 10 \/ d = 11 \/ d = 12 \/ d = 13 \/ d = 14 \/ d = 15.
Proof. lia. Qed.

Lemma length_hex_digit d : 0 <= d < 16 -> String.length (hex_digit d) = 1%nat.
Proof.
  intros Hd. destruct (hex_digit_cases d Hd) as [-> | Hd']; [done |].
  repeat (destruct Hd' as [-> | Hd']; [done |]). by subst d.
Qed.

Lemma hex_digit_inj d d' s s' :
  0 <= d < 16 -> 0 <= d' < 16 ->
  hex_digit d +:+ s = hex_digit d' +:+ s' -> d = d' /\ s = s'.
Proof.
  intros Hd Hd'.
  destruct (hex_digit_cases d Hd) as
    [-> | [-> | [-> | [-> | [-> | [-> | [-> | [-> | [-> | [-> | [-> | [-> | [-> | [->
    | [-> | ->]]]]]]]]]]]]]]];
    destruct (hex_digit_cases d' Hd') as
    [-> | [-> | [-> | [-> | [-> | [-> | [-> | [-> | [-> | [-> | [-> | [-> | [-> | [->
    | [-> | ->]]]]]]]]]]]]]]];
    intros Heq; vm_compute in Heq; first [discriminate Heq | by injection Heq as ->].
Qed.

Lemma hex_fixed_acc k : forall n acc, hex_fixed k n acc = hex_fixed k n "" +:+ acc.
Proof.
  induction k as [| k IH]; intros n acc; [done |].
  cbn [hex_fixed].
  rewrite (IH (n / 16) (hex_digit (n mod 16) +:+ acc)),
    (IH (n / 16) (hex_digit (n mod 16) +:+ "")).
  by rewrite !append_assoc.
Qed.

Lemma hex_fixed_zero k : forall acc, hex_fixed k 0 acc = zeros k +:+ acc.
Proof.
  induction k as [| k IH]; intros acc; [done |].
  cbn [hex_fixed]. change (0 / 16) with 0. rewrite IH, zeros_S, append_assoc. done.
Qed.

Lemma length_hex_fixed k : forall n acc,
  String.length (hex_fixed k n acc) = (k + String.length acc)%nat.
Proof.
  induction k as [| k IH]; intros n acc; [done |].
  cbn [hex_fixed]. rewrite IH, length_append, length_hex_digit; [lia |].
  apply Z.mod_pos_bound. lia.
Qed.

(** Under a width of at least one digit that [n] fits in, [printf] writes the
    digits of that width. *)
Lemma hex_digits_fixed fuel : forall k n acc,
  (1 <= k)%nat -> 0 <= n < 16 ^ Z.of_nat k -> n < 16 ^ Z.of_nat fuel ->
  zeros (k + String.length acc - String.length (hex_digits fuel n acc))
  +:+ hex_digits fuel n acc
  = hex_fixed k n acc.
Proof.
  induction fuel as [| fuel IH]; intros k n acc Hk Hn Hfuel.
  { assert (n = 0) as -> by (simpl in Hfuel; lia).
    cbn [hex_digits]. rewrite hex_fixed_zero. do 2 f_equal. lia. }
  destruct k as [| k]; [lia |].
  cbn [hex_digits hex_fixed].
  assert (Hd : String.length (hex_digit (n mod 16)) = 1%nat)
    by (apply length_hex_digit, Z.mod_pos_bound; lia).
  assert (Hq : 0 <= n / 16 < 16 ^ Z.of_nat k).
  { rewrite Nat2Z.inj_succ, Z.pow_succ_r in Hn by lia.
    split; [apply Z.div_pos; lia | apply Z.div_lt_upper_bound; lia]. }
  destruct (Z.eqb_spec (n / 16) 0) as [Hz | Hnz].
  - rewrite Hz, hex_fixed_zero. do 2 f_equal. rewrite length_append, Hd. lia.
  - destruct k as [| k]; [simpl in Hq; lia |].
    rewrite <- IH; [| lia | done |].
    + do 2 f_equal. rewrite length_append, Hd. lia.
    + rewrite Nat2Z.inj_succ, Z.pow_succ_r in Hfuel by lia.
      apply Z.div_lt_upper_bound; lia.
Qed.

Lemma printf_0x_fixed k n :
  (1 <= k)%nat -> 0 <= n < 16 ^ Z.of_nat k -> printf_0x k n = hex_fixed k n "".
Proof.
  intros Hk Hn. unfold printf_0x. cbv zeta.
  rewrite <- (hex_digits_fixed (S (Z.to_nat (Z.log2 n))) k n "" Hk Hn).
  - do 2 f_equal. simpl. lia.
  - destruct (decide (n = 0)) as [-> | Hnz]; [simpl; lia |].
    pose proof (Z.log2_spec n ltac:(lia)) as [_ Hlt].
    pose proof (Z.log2_nonneg n).
    eapply Z.lt_le_trans; [apply Hlt |].
    rewrite Nat2Z.inj_succ, Z2Nat.id by lia.
    apply Z.pow_le_mono_l. lia.
Qed.

(** A byte under [%02x] is two digits. *)
Lemma printf_02x b :
  is_u8 b -> printf_0x 2 b = hex_digit (b / 16) +:+ hex_digit (b mod 16).
Proof.
  unfold is_u8. intros Hb. rewrite printf_0x_fixed by (simpl; lia).
  cbn [hex_fixed]. rewrite append_nil_r.
  rewrite (Z.mod_small (b / 16)); [done |].
  split; [apply Z.div_pos; lia | apply Z.div_lt_upper_bound; lia].
Qed.

Lemma length_printf_02x b : is_u8 b -> String.length (printf_0x 2 b) = 2%nat.
Proof.
  intros Hb. rewrite printf_0x_fixed by (unfold is_u8 in Hb; simpl; lia).
  by rewrite length_hex_fixed.
Qed.

Lemma printf_02x_inj b b' s s' :
  is_u8 b -> is_u8 b' -> printf_0x 2 b +:+ s = printf_0x 2 b' +:+ s' ->
  b = b' /\ s = s'.
Proof.
  intros Hb Hb'. rewrite !printf_02x, !append_assoc by done. unfold is_u8 in *.
  intros Heq.
  apply hex_digit_inj in Heq as [Hhi Heq];
    [| split; [apply Z.div_pos; lia | apply Z.div_lt_upper_bound; lia]..].
  apply hex_digit_inj in Heq as [Hlo Heq]; [| apply Z.mod_pos_bound; lia..].
  split; [| done].
  rewrite (Z.div_mod b 16), (Z.div_mod b' 16) by lia. congruence.
Qed.

Lemma hex_bytes_cons b l : hex_bytes (b :: l) = printf_0x 2 b +:+ hex_bytes l.
Proof. reflexivity. Qed.

Lemma length_hex_bytes l :
  Forall is_u8 l -> String.length (hex_bytes l) = (2 * length l)%nat.
Proof.
  induction 1 as [| b l Hb _ IH]; [done |].
  rewrite hex_bytes_cons, length_append, length_printf_02x, IH by done.
  simpl. lia.
Qed.

Lemma hex_bytes_app l1 l2 : hex_bytes (l1 ++ l2) = hex_bytes l1 +:+ hex_bytes l2.
Proof.
  induction l1 as [| b l1 IH]; [done |].
  rewrite <- app_comm_cons, !hex_bytes_cons, IH. by rewrite append_assoc.
Qed.

Lemma hex_bytes_inj l1 : forall l2 s1 s2,
  Forall is_u8 l1 -> Forall is_u8 l2 -> length l1 = length l2 ->
  hex_bytes l1 +:+ s1 = hex_bytes l2 +:+ s2 -> l1 = l2 /\ s1 = s2.
Proof.
  induction l1 as [| b l1 IH]; intros [| b' l2] s1 s2 H1 H2 Hlen Heq;
    try discriminate Hlen; [done |].
  rewrite !hex_bytes_cons, !append_assoc in Heq.
  apply Forall_cons in H1 as [Hb H1]. apply Forall_cons in H2 as [Hb' H2].
  apply printf_02x_inj in Heq as [-> Heq]; [| done..].
  apply IH in Heq as [-> ->]; [done | done | done |]. by injection Hlen.
Qed.

(** ** The fingerprint *)

Lemma hex_fixed_byte k n acc :
  0 <= n ->
  hex_fixed (S (S k)) n acc = hex_fixed k (n / 256) (printf_0x 2 (n mod 256) +:+ acc).
Proof.
  intros Hn. rewrite printf_02x by (apply Z.mod_pos_bound; lia).
  cbn [hex_fixed]. rewrite append_assoc.
  replace (n / 16 / 16) with (n / 256) by (Z.to_euclidean_division_equations; lia).
  replace ((n mod 256) mod 16) with (n mod 16)
    by (Z.to_euclidean_division_equations; lia).
  replace ((n mod 256) / 16) with ((n / 16) mod 16)
    by (Z.to_euclidean_division_equations; lia).
  done.
Qed.

(** A chunk of the fingerprint is printed as its four bytes, in their order
    in the digest. *)
Lemma printf_chunk h0 h1 h2 h3 :
  32 <= ULONG_BITS -> is_u8 h0 -> is_u8 h1 -> is_u8 h2 -> is_u8 h3 ->
  printf_0x 8
    (ulong (Z.lor (Z.lor (Z.lor (ulong (Z.shiftl h0 24)) (ulong (Z.shiftl h1 16)))
                         (ulong (Z.shiftl h2 8)))
                  (ulong (Z.shiftl h3 0))))
  = hex_bytes [h0; h1; h2; h3].
Proof.
  intros Hw H0 H1 H2 H3. rewrite key_derive_offset_le32 by done.
  unfold is_u8 in *.
  rewrite printf_0x_fixed by (simpl; lia).
  rewrite hex_fixed_byte by lia.
  replace ((h3 + 256 * h2 + 65536 * h1 + 16777216 * h0) mod 256) with h3
    by (Z.to_euclidean_division_equations; lia).
  replace ((h3 + 256 * h2 + 65536 * h1 + 16777216 * h0) / 256)
    with (h2 + 256 * h1 + 65536 * h0) by (Z.to_euclidean_division_equations; lia).
  rewrite hex_fixed_byte by lia.
  replace ((h2 + 256 * h1 + 65536 * h0) mod 256) with h2
    by (Z.to_euclidean_division_equations; lia).
  replace ((h2 + 256 * h1 + 65536 * h0) / 256) with (h1 + 256 * h0)
    by (Z.to_euclidean_division_equations; lia).
  rewrite hex_fixed_byte by lia.
  replace ((h1 + 256 * h0) mod 256) with h1 by (Z.to_euclidean_division_equations; lia).
  replace ((h1 + 256 * h0) / 256) with h0 by (Z.to_euclidean_division_equations; lia).
  rewrite hex_fixed_byte by lia.
  rewrite (Z.mod_small h0 256), (Z.div_small h0 256) by lia.
  cbn [hex_fixed]. rewrite !hex_bytes_cons. done.
Qed.

(** The text of a fingerprint, from the first 16 bytes of the digest. *)
Lemma fingerprint_text_hex hash :
  32 <= ULONG_BITS -> length hash = 32%nat -> Forall is_u8 hash ->
  let id := take 16 hash in
  fingerprint_text hash
  = hex_bytes (take 4 id) +:+ "-" +:+ hex_bytes (take 4 (drop 4 id)) +:+ "-"
      +:+ hex_bytes (take 4 (drop 8 id)) +:+ "-" +:+ hex_bytes (drop 12 id).
Proof.
  intros Hw Hlen Hu8 id. subst id.
  do 16 (destruct hash as [| ? hash]; [discriminate Hlen |]).
  repeat match goal with
         | H : Forall is_u8 (_ :: _) |- _ => apply Forall_cons in H as [? H]
         end.
  unfold fingerprint_text, fingerprint_chunk. cbn [foldl].
  rewrite (bool_decide_eq_false_2 (0%nat <> 0%nat)) by (by intros []).
  rewrite !bool_decide_eq_true_2 by done.
  cbn [lookup_total list_lookup_total Nat.add take drop].
  rewrite !printf_chunk by done.
  by rewrite !append_assoc.
Qed.

Lemma fingerprint_format_inj id id' :
  length id = 16%nat -> length id' = 16%nat -> Forall is_u8 id -> Forall is_u8 id' ->
  hex_bytes (take 4 id') +:+ "-" +:+ hex_bytes (take 4 (drop 4 id')) +:+ "-"
    +:+ hex_bytes (take 4 (drop 8 id')) +:+ "-" +:+ hex_bytes (drop 12 id')
  = hex_bytes (take 4 id) +:+ "-" +:+ hex_bytes (take 4 (drop 4 id)) +:+ "-"
      +:+ hex_bytes (take 4 (drop 8 id)) +:+ "-" +:+ hex_bytes (drop 12 id) ->
  id' = id.
Proof.
  intros Hlen Hlen' Hu Hu' Heq.
  assert (Hparts : forall l n, Forall is_u8 l ->
                     Forall is_u8 (take 4 (drop n l)) /\ Forall is_u8 (drop n l)).
  { intros l n Hl. split; [apply Forall_take |]; by apply Forall_drop. }
  assert (Hsplit : forall l : list Z,
             l = take 4 l ++ take 4 (drop 4 l) ++ take 4 (drop 8 l) ++ drop 12 l).
  { intros l. rewrite <- (take_drop 4 l) at 1. f_equal.
    rewrite <- (take_drop 4 (drop 4 l)) at 1. f_equal.
    rewrite <- (take_drop 4 (drop 4 (drop 4 l))) at 1. by rewrite !drop_drop. }
  apply hex_bytes_inj in Heq as [H0 Heq];
    [| by apply Forall_take | by apply Forall_take | rewrite !length_take; lia].
  apply (inj (String.app "-")) in Heq.
  apply hex_bytes_inj in Heq as [H1 Heq];
    [| apply Hparts; done | apply Hparts; done
     | rewrite !length_take, !length_drop; lia].
  apply (inj (String.app "-")) in Heq.
  apply hex_bytes_inj in Heq as [H2 Heq];
    [| apply Hparts; done | apply Hparts; done
     | rewrite !length_take, !length_drop; lia].
  apply (inj (String.app "-")) in Heq.
  rewrite <- (append_nil_r (hex_bytes (drop 12 id'))),
    <- (append_nil_r (hex_bytes (drop 12 id))) in Heq.
  apply hex_bytes_inj in Heq as [H3 _];
    [| apply Hparts; done | apply Hparts; done | rewrite !length_drop; lia].
  rewrite (Hsplit id'), (Hsplit id). congruence.
Qed.

Lemma length_fingerprint_format id :
  length id = 16%nat -> Forall is_u8 id ->
  String.length
    (hex_bytes (take 4 id) +:+ "-" +:+ hex_bytes (take 4 (drop 4 id)) +:+ "-"
       +:+ hex_bytes (take 4 (drop 8 id)) +:+ "-" +:+ hex_bytes (drop 12 id))
  = 35%nat.
Proof.
  intros Hlen Hu.
  rewrite !length_append, !length_hex_bytes
    by (repeat first [apply Forall_take | apply Forall_drop]; done).
  rewrite !length_take, !length_drop, Hlen. done.
Qed.

(** X12.  [print_fingerprint] prints the first 16 bytes of the SHA-256 of the key
    in hexadecimal, in the order of the digest, as four groups of eight
    digits with a dash between them: 35 characters, from which the 16 bytes
    can be read back. *)
Theorem print_fingerprint_text_hex key :
  sha256_sized -> 32 <= ULONG_BITS ->
  let id := take 16 (SHA256 (take 32 key)) in
  print_fingerprint_text key
  = hex_bytes (take 4 id) +:+ "-" +:+ hex_bytes (take 4 (drop 4 id)) +:+ "-"
      +:+ hex_bytes (take 4 (drop 8 id)) +:+ "-" +:+ hex_bytes (drop 12 id)
  /\ String.length (print_fingerprint_text key) = 35%nat
  /\ forall key',
       print_fingerprint_text key' = print_fingerprint_text key
       <-> take 16 (SHA256 (take 32 key')) = id.
Proof.
  intros Hsha Hw id.
  assert (Htext : forall k,
    print_fingerprint_text k
    = let id := take 16 (SHA256 (take 32 k)) in
      hex_bytes (take 4 id) +:+ "-" +:+ hex_bytes (take 4 (drop 4 id)) +:+ "-"
        +:+ hex_bytes (take 4 (drop 8 id)) +:+ "-" +:+ hex_bytes (drop 12 id)).
  { intros k. unfold print_fingerprint_text, sha256_final, sha256_update, sha256_init.
    rewrite app_nil_l. apply fingerprint_text_hex; [done | apply Hsha..]. }
  assert (Hid : forall k, length (take 16 (SHA256 (take 32 k))) = 16%nat
                          /\ Forall is_u8 (take 16 (SHA256 (take 32 k)))).
  { intros k. destruct (Hsha (take 32 k)) as [Hl Hu].
    split; [rewrite length_take; lia | by apply Forall_take]. }
  destruct (Hid key) as [Hlen Hu]. fold id in Hlen, Hu.
  split; [apply Htext |]. split.
  - rewrite Htext. cbv zeta. fold id. by apply length_fingerprint_format.
  - intros key'. rewrite !Htext. cbv zeta. fold id. split.
    + destruct (Hid key') as [Hlen' Hu']. by apply fingerprint_format_inj.
    + by intros ->.
Qed.

(** ** The address of the key agent *)

Lemma agent_addr_hex getenv sun_path_size iv :
  length iv = 8%nat ->
  agent_addr getenv sun_path_size iv
  = let dir := match getenv "XDG_RUNTIME_DIR" with
               | Some dir => dir
               | None => match getenv "TMPDIR" with
                         | Some dir => dir
                         | None => "/tmp"
                         end
               end in
    if bool_decide (sun_path_size < String.length dir + 1 + 16 + 1)%nat then None
    else Some (dir +:+ "/" +:+ hex_bytes iv).
Proof.
  intros Hiv. explode iv Hiv. unfold agent_addr. cbv zeta.
  case_bool_decide; [done |]. rewrite !hex_bytes_cons.
  cbn [lookup_total list_lookup_total]. unfold hex_bytes at 1. cbn [foldr].
  by rewrite append_nil_r.
Qed.

(** X13.  When [agent_addr] returns 1, the path it has written with [sprintf], and
    the NUL after it, fit in [sun_path]: the path is the directory
    ([$XDG_RUNTIME_DIR], without it [$TMPDIR], without both "/tmp"), a slash
    and the 16 hexadecimal digits of the IV, and no other IV gives that
    path. *)
Theorem agent_addr_fits getenv sun_path_size iv path :
  length iv = 8%nat -> Forall is_u8 iv ->
  agent_addr getenv sun_path_size iv = Some path ->
  let dir := match getenv "XDG_RUNTIME_DIR" with
             | Some runtime_dir => runtime_dir
             | None => default "/tmp" (getenv "TMPDIR")
             end in
  (String.length path + 1 <= sun_path_size)%nat
  /\ path = dir +:+ "/" +:+ hex_bytes iv
  /\ forall iv',
       length iv' = 8%nat -> Forall is_u8 iv' ->
       agent_addr getenv sun_path_size iv' = Some path -> iv' = iv.
Proof.
  intros Hiv Hu. rewrite agent_addr_hex by done. cbv zeta.
  replace (match getenv "XDG_RUNTIME_DIR" with
           | Some dir => dir
           | None => match getenv "TMPDIR" with
                     | Some dir => dir
                     | None => "/tmp"
                     end
           end)
    with (match getenv "XDG_RUNTIME_DIR" with
          | Some runtime_dir => runtime_dir
          | None => default "/tmp" (getenv "TMPDIR")
          end)
    by (by destruct (getenv "XDG_RUNTIME_DIR"), (getenv "TMPDIR")).
  set (dir := match getenv "XDG_RUNTIME_DIR" with Some _ => _ | None => _ end).
  case_bool_decide as Hfit; [done |]. intros [= <-].
  split; [| split].
  - rewrite !length_append, length_hex_bytes, Hiv by done. simpl. lia.
  - done.
  - intros iv' Hiv' Hu'. rewrite agent_addr_hex by done. cbv zeta.
    replace (match getenv "XDG_RUNTIME_DIR" with
             | Some dir => dir
             | None => match getenv "TMPDIR" with
                       | Some dir => dir
                       | None => "/tmp"
                       end
             end) with dir
      by (subst dir; by destruct (getenv "XDG_RUNTIME_DIR"), (getenv "TMPDIR")).
    rewrite bool_decide_eq_false_2 by done. intros [= Heq].
    apply (inj (String.app dir)), (inj (String.app "/")) in Heq.
    rewrite <- (append_nil_r (hex_bytes iv')), <- (append_nil_r (hex_bytes iv)) in Heq.
    apply hex_bytes_inj in Heq as [-> _]; [done | done | done | congruence].
Qed.

(** ** The fingerprint that [command_keygen] prints *)

Lemma trace_grows_ret {A} (a : A) : trace_grows (ret a).
Proof. intros w. exists []. by rewrite app_nil_r. Qed.

Lemma trace_grows_fatal {A} (e : error) : trace_grows (@fatal A e).
Proof. intros w. exists []. by rewrite app_nil_r. Qed.

Lemma trace_grows_same {A} (m : M A) :
  (forall w, trace (m w).2 = trace w) -> trace_grows m.
Proof. intros Hm w. exists []. by rewrite Hm, app_nil_r. Qed.

Lemma trace_grows_bind {A B} (m : M A) (k : A -> M B) :
  trace_grows m -> (forall a, trace_grows (k a)) -> trace_grows (bind m k).
Proof.
  intros Hm Hk w. unfold bind. destruct (Hm w) as [t Ht].
  destruct (m w) as [[a | e] w1]; simpl in *.
  - destruct (Hk a w1) as [t' Ht']. exists (t ++ t'). by rewrite Ht', Ht, app_assoc.
  - by exists t.
Qed.

Lemma trace_grows_log e : trace_grows (log e).
Proof. intros w. by exists [e]. Qed.

Lemma trace_grows_get_passphrase len prompt :
  trace_grows (get_passphrase len prompt).
Proof.
  unfold get_passphrase. apply trace_grows_bind; [apply trace_grows_log |].
  intros _. apply trace_grows_same. intros w.
  by destruct (tty w) as [| typed rest]; destruct (typed_passphrase len _).
Qed.

Lemma trace_grows_load_seckey file : trace_grows (load_seckey file).
Proof.
  unfold load_seckey. apply trace_grows_bind.
  { apply trace_grows_same. intros w. by repeat case_match. }
  intros buf. case_bool_decide; [apply trace_grows_fatal |].
  case_bool_decide; [| apply trace_grows_ret].
  apply trace_grows_bind.
  { unfold agent_read. apply trace_grows_bind; [apply trace_grows_log |].
    intros _. apply trace_grows_same. intros w. by repeat case_match. }
  intros got.
  destruct (match got with Some _ => _ | None => _ end) as [agent_success protect0].
  apply trace_grows_bind.
  { destruct (negb agent_success); [| apply trace_grows_ret].
    apply trace_grows_bind; [apply trace_grows_get_passphrase |].
    intros pass. case_match; [apply trace_grows_fatal | apply trace_grows_ret]. }
  intros protect. apply trace_grows_bind; [by apply trace_grows_same |].
  intros timeout. apply trace_grows_bind; [| intros; apply trace_grows_ret].
  case_match; [apply trace_grows_log | apply trace_grows_ret].
Qed.

Lemma trace_grows_secure_entropy len : trace_grows (secure_entropy len).
Proof.
  apply trace_grows_same. intros w. unfold secure_entropy. cbv zeta.
  case_bool_decide; by destruct w.
Qed.

Lemma trace_grows_write_seckey file seckey iexp : trace_grows (write_seckey file seckey iexp).
Proof.
  unfold write_seckey. cbv zeta. apply trace_grows_bind.
  - case_bool_decide; [| apply trace_grows_ret].
    apply trace_grows_bind; [apply trace_grows_get_passphrase |].
    intros pass0. case_bool_decide; [apply trace_grows_ret |].
    apply trace_grows_bind; [apply trace_grows_get_passphrase |].
    intros pass1. case_bool_decide; [apply trace_grows_fatal |].
    apply trace_grows_bind; [apply trace_grows_secure_entropy |].
    intros iv. apply trace_grows_ret.
  - intros [[buf protect] iexp']. by apply trace_grows_same.
Qed.

Lemma trace_grows_command_keygen_secret o secfile_exists :
  trace_grows (command_keygen_secret o secfile_exists).
Proof.
  unfold command_keygen_secret.
  destruct (kg_edit o); [| destruct (kg_derive o)].
  - destruct secfile_exists; [apply trace_grows_load_seckey | apply trace_grows_fatal].
  - apply trace_grows_bind; [apply trace_grows_get_passphrase |]. intros pass0.
    apply trace_grows_bind; [apply trace_grows_get_passphrase |]. intros pass1.
    case_bool_decide; [apply trace_grows_fatal | apply trace_grows_ret].
  - unfold generate_secret.
    apply trace_grows_bind; [apply trace_grows_secure_entropy |].
    intros s. apply trace_grows_ret.
Qed.

(** X14.  The key id [command_keygen] prints under [--fingerprint] is the one
    [command_fingerprint] prints afterwards for the public key file it
    wrote. *)
Theorem command_keygen_fingerprint_agrees o w w' :
  donna_sized -> kg_fingerprint o = true ->
  command_keygen o w = (Done tt, w') ->
  exists id before after,
    trace w' = trace w ++ before ++ EvFingerprint id :: after
    /\ command_fingerprint (kg_pubfile o) w' = log (EvFingerprint id) w'.
Proof.
  intros Hdn Hfp Hrun.
  apply command_keygen_Done in Hrun as (s & w1 & w3 & Hsecret & Hwrite & Hpub).
  rewrite Hfp in Hwrite.
  set (public := compute_public s) in *.
  assert (Hlen : length public = 32%nat) by apply Hdn.
  exists (take 16 (SHA256 public)).
  destruct (trace_grows_command_keygen_secret o
              (bool_decide (is_Some (files w !! kg_secfile o))) w) as [before Hbefore].
  rewrite Hsecret in Hbefore. cbn [snd] in Hbefore.
  destruct (trace_grows_write_seckey (kg_secfile o) s
              (if kg_protect o then kg_key_derive_iterations o else 0)
              (print_fingerprint public w1).2) as [after Hafter].
  rewrite Hwrite in Hafter. cbn [snd] in Hafter.
  exists before, after.
  destruct (load_write_pubkey _ _ _ _ (kg_secfile o) Hlen Hpub) as (Hload & _).
  split.
  - unfold write_pubkey, write_file in Hpub. injection Hpub as <-.
    destruct w3. wsimpl. rewrite Hafter. unfold print_fingerprint, log. wsimpl.
    rewrite Hbefore, (take_ge public) by lia. by rewrite <- !app_assoc.
  - unfold command_fingerprint, bind. rewrite Hload.
    unfold print_fingerprint. by rewrite (take_ge public) by lia.
Qed.

(** ** The passphrase buffer *)

Lemma strchr_app l r c :
  Forall (fun b => b <> c /\ b <> 0) l ->
  strchr (l ++ r) c = (fun i => (length l + i)%nat) <$> strchr r c.
Proof.
  induction 1 as [| b l [Hc Hz] _ IH]; [cbn [app]; by destruct (strchr r c) |].
  cbn [app strchr]. rewrite !bool_decide_eq_false_2 by done.
  rewrite IH. by destruct (strchr r c).
Qed.

Lemma cstring_app l r :
  Forall (fun b => b <> 0) l -> cstring (l ++ 0 :: r) = l.
Proof.
  induction 1 as [| b l Hz _ IH]; [done |].
  cbn [app cstring]. rewrite bool_decide_eq_false_2 by done. by rewrite IH.
Qed.

Lemma insert_at_length (l : list Z) x y r : <[length l := x]> (l ++ y :: r) = l ++ x :: r.
Proof. by rewrite insert_app_r_alt, Nat.sub_diag by lia. Qed.

(** The bytes a line may be made of. *)
Lemma line_bytes line c :
  Forall (fun b => b <> 0 /\ b <> 10 /\ b <> 13) line -> c = 10 \/ c = 13 ->
  Forall (fun b => b <> c /\ b <> 0) line /\ Forall (fun b => b <> 0) line.
Proof.
  intros Hline Hc. split; eapply Forall_impl; try exact Hline; simpl; intros b ?; lia.
Qed.

(** X15.  An entry shorter than the buffer leaves the line typed in it, as a
    string, without its end of line: a line feed, a carriage return and what
    follows it, or nothing. *)
Theorem get_passphrase_buf_line buf line eol :
  (length (line ++ eol) < length buf)%nat ->
  Forall (fun b => b <> 0 /\ b <> 10 /\ b <> 13) line ->
  eol = [] \/ eol = [10] \/ (exists rest, eol = 13 :: rest) ->
  exists buf',
    get_passphrase_buf buf (line ++ eol) = Buffer buf'
    /\ length buf' = length buf /\ cstring buf' = line.
Proof.
  intros Hlen Hline Heol. unfold get_passphrase_buf. cbv zeta.
  destruct (line_bytes line 13 Hline ltac:(lia)) as [H13 H0].
  destruct (line_bytes line 10 Hline ltac:(lia)) as [H10 _].
  rewrite (take_ge (line ++ eol)) by lia.
  set (z := length (line ++ eol)) in *.
  assert (Hdrop : exists x tail, drop z buf = x :: tail
                                 /\ length buf = (z + S (length tail))%nat).
  { destruct (drop z buf) as [| x tail] eqn:Hd.
    - apply (f_equal length) in Hd. rewrite length_drop in Hd. simpl in Hd. lia.
    - exists x, tail. split; [done |].
      apply (f_equal length) in Hd. rewrite length_drop in Hd. simpl in Hd. lia. }
  destruct Hdrop as (x & tail & -> & Hbuf).
  assert (Hterm : write_byte ((line ++ eol) ++ x :: tail) z 0
                  = Buffer ((line ++ eol) ++ 0 :: tail)).
  { unfold write_byte. rewrite bool_decide_eq_true_2
      by (rewrite length_app; simpl; fold z; lia).
    subst z. by rewrite insert_at_length. }
  case_bool_decide as Hz.
  { rewrite Hterm. destruct line; [| simpl in Hz; subst z; simpl in Hz; lia].
    destruct eol; [| subst z; simpl in Hz; lia].
    eexists. split; [done |]. split; [simpl; simpl in Hbuf; lia |].
    cbn [app cstring]. by rewrite bool_decide_eq_true_2. }
  rewrite Hterm, <- app_assoc.
  destruct Heol as [-> | [-> | [rest ->]]].
  - cbn [app]. rewrite ?(strchr_app line _ 13), ?(strchr_app line _ 10) by done. cbn [strchr].
    rewrite !bool_decide_eq_false_2 by done.
    rewrite !bool_decide_eq_true_2 by done. cbn [fmap option_fmap option_map].
    eexists. split; [done |]. split; [| by apply cstring_app].
    rewrite length_app. cbn [length]. rewrite Hbuf. subst z.
    rewrite length_app. simpl. lia.
  - rewrite ?(strchr_app line _ 13), ?(strchr_app line _ 10) by done. cbn [app strchr].
    rewrite (bool_decide_eq_false_2 (10 = 13)), (bool_decide_eq_false_2 (10 = 0)),
      (bool_decide_eq_false_2 (0 = 13)), (bool_decide_eq_true_2 (0 = 0)),
      (bool_decide_eq_true_2 (10 = 10)) by done.
    cbn [fmap option_fmap option_map]. rewrite Nat.add_0_r.
    unfold write_byte. rewrite bool_decide_eq_true_2
      by (rewrite length_app; simpl; lia).
    rewrite insert_at_length.
    eexists. split; [done |]. split; [| by apply cstring_app].
    rewrite length_app. cbn [length]. rewrite Hbuf. subst z.
    rewrite length_app. simpl. lia.
  - rewrite ?(strchr_app line _ 13), ?(strchr_app line _ 10) by done. cbn [app strchr].
    rewrite (bool_decide_eq_true_2 (13 = 13)) by done.
    cbn [fmap option_fmap option_map]. rewrite Nat.add_0_r.
    unfold write_byte. rewrite bool_decide_eq_true_2
      by (rewrite length_app; simpl; lia).
    rewrite insert_at_length.
    eexists. split; [done |]. split; [| by apply cstring_app].
    rewrite !length_app. cbn [length]. rewrite length_app. cbn [length].
    rewrite Hbuf. subst z. rewrite !length_app. simpl. lia.
Qed.

(** X16.  An entry that fills the buffer makes [get_passphrase] write the NUL at
    index [len], one past the end of the [len] bytes of the buffer. *)
Theorem get_passphrase_buf_full buf typed :
  (0 < length buf)%nat -> (length buf <= length typed)%nat ->
  get_passphrase_buf buf typed = WriteOutOfBounds (length buf).
Proof.
  intros Hpos Hlen. unfold get_passphrase_buf. cbv zeta.
  rewrite length_take, Nat.min_l by lia.
  rewrite bool_decide_eq_false_2 by lia.
  unfold write_byte.
  rewrite bool_decide_eq_false_2; [done |].
  rewrite length_app, length_take, length_drop. lia.
Qed.

(** ** What [get_passphrase] leaves in the buffer *)

Lemma cstring_terminated l r : cstring (l ++ 0 :: r) = cstring l.
Proof.
  induction l as [| b l IH]; cbn [app cstring].
  - by rewrite bool_decide_eq_true_2.
  - case_bool_decide; [done |]. by rewrite IH.
Qed.

Lemma upto_not_in c s : ~ elem_of c s -> upto c s = s.
Proof.
  induction s as [| b s IH]; [done |]. intros Hin. cbn [upto].
  rewrite bool_decide_eq_false_2 by (intros ->; apply Hin; left).
  rewrite IH; [done |]. intros Hs. apply Hin. by right.
Qed.

(** [strchr] on a string that ends inside the buffer: the place of the first
    [c] of the string, where a NUL cuts the string down to what precedes
    it. *)
Lemma strchr_terminated l r c :
  c <> 0 ->
  match strchr (l ++ 0 :: r) c with
  | Some e =>
      (e < length l)%nat /\ elem_of c (cstring l)
      /\ cstring (<[e := 0]> (l ++ 0 :: r)) = upto c (cstring l)
  | None => ~ elem_of c (cstring l)
  end.
Proof.
  intros Hc. induction l as [| b l IH]; cbn [app strchr cstring].
  - rewrite bool_decide_eq_false_2 by (intros Hz; by apply Hc).
    rewrite bool_decide_eq_true_2 by done. apply not_elem_of_nil.
  - case_bool_decide as Hb.
    + subst b. rewrite bool_decide_eq_false_2 by done.
      split; [simpl; lia |]. split; [left |].
      cbn [insert list_insert cstring upto].
      by rewrite !bool_decide_eq_true_2.
    + case_bool_decide as Hz; [apply not_elem_of_nil |].
      destruct (strchr (l ++ 0 :: r) c) as [e |]; cbn [fmap option_fmap option_map].
      * destruct IH as (He & Hin & Hcut).
        split; [simpl; lia |]. split; [by right |].
        cbn [insert list_insert cstring upto].
        rewrite !bool_decide_eq_false_2 by done. by f_equal.
      * intros Hin. apply elem_of_cons in Hin as [-> | Hin]; [done | by apply IH].
Qed.

(** What [get_passphrase] does with an entry, for every state of the buffer
    it is given: an entry shorter than the buffer leaves its line in the
    buffer, as a string, and any other makes the function write outside the
    buffer. *)
Lemma get_passphrase_buf_spec buf typed :
  ((length typed < length buf)%nat ->
   exists buf',
     get_passphrase_buf buf typed = Buffer buf'
     /\ length buf' = length buf /\ cstring buf' = typed_line typed)
  /\ ((length buf <= length typed)%nat ->
      get_passphrase_buf buf typed = WriteOutOfBounds (length buf)).
Proof.
  split.
  - intros Hlen. unfold get_passphrase_buf. cbv zeta.
    rewrite (take_ge typed) by lia.
    destruct (drop (length typed) buf) as [| x tail] eqn:Hd.
    { apply (f_equal length) in Hd. rewrite length_drop in Hd. simpl in Hd. lia. }
    assert (Hbuf : length buf = (length typed + S (length tail))%nat).
    { apply (f_equal length) in Hd. rewrite length_drop in Hd. simpl in Hd. lia. }
    assert (Hterm : write_byte (typed ++ x :: tail) (length typed) 0
                    = Buffer (typed ++ 0 :: tail)).
    { unfold write_byte. rewrite bool_decide_eq_true_2 by (rewrite length_app; simpl; lia).
      by rewrite insert_at_length. }
    rewrite Hterm.
    assert (Hl : length (typed ++ 0 :: tail) = length buf)
      by (rewrite length_app; simpl; lia).
    unfold typed_line. cbv zeta.
    case_bool_decide as Hz.
    { destruct typed; [| done]. eexists. split; [done |]. split; [done |].
      cbn [app cstring]. by rewrite bool_decide_eq_true_2. }
    pose proof (strchr_terminated typed tail 13 ltac:(done)) as H13.
    pose proof (strchr_terminated typed tail 10 ltac:(done)) as H10.
    destruct (strchr (typed ++ 0 :: tail) 13) as [e |].
    + destruct H13 as (He & Hin & Hcut).
      unfold write_byte. rewrite bool_decide_eq_true_2 by (rewrite Hl; lia).
      eexists. split; [done |]. rewrite length_insert. split; [done |].
      by rewrite bool_decide_eq_true_2.
    + rewrite (bool_decide_eq_false_2 (elem_of 13 _)) by done.
      destruct (strchr (typed ++ 0 :: tail) 10) as [e |].
      * destruct H10 as (He & Hin & Hcut).
        unfold write_byte. rewrite bool_decide_eq_true_2 by (rewrite Hl; lia).
        eexists. split; [done |]. rewrite length_insert. done.
      * eexists. split; [done |]. split; [done |].
        by rewrite cstring_terminated, upto_not_in.
  - intros Hlen. unfold get_passphrase_buf. cbv zeta.
    rewrite length_take, Nat.min_l by lia.
    assert (Hl : length (take (length buf) typed ++ drop (length buf) buf) = length buf).
    { rewrite length_app, length_take, length_drop. lia. }
    unfold write_byte.
    case_bool_decide as Hz.
    + rewrite bool_decide_eq_false_2 by (rewrite Hl; lia). done.
    + rewrite bool_decide_eq_false_2 by (rewrite Hl; lia). done.
Qed.

(** The passphrase of an entry: its line, when it is shorter than the
    buffer. *)
Lemma typed_passphrase_spec len typed :
  typed_passphrase len typed
  = if bool_decide (length typed < len)%nat then Some (typed_line typed) else None.
Proof.
  unfold typed_passphrase.
  destruct (get_passphrase_buf_spec (repeat 0 len) typed) as [Hfit Hfull].
  rewrite repeat_length in Hfit, Hfull.
  case_bool_decide as Hlen.
  - destruct (Hfit Hlen) as (buf' & -> & _ & ->). done.
  - by rewrite Hfull by lia.
Qed.

Lemma sizeof_pass_pos : (0 < sizeof_pass)%nat.
Proof. unfold sizeof_pass. lia. Qed.

(** Nothing typed is the empty passphrase. *)
Lemma typed_passphrase_nil : typed_passphrase sizeof_pass [] = Some [].
Proof.
  rewrite typed_passphrase_spec, bool_decide_eq_true_2 by apply sizeof_pass_pos.
  done.
Qed.

(** ** The names of the output files *)

Lemma substring_0_cons m x s :
  String.substring 0 (S m) (String x s) = String x (String.substring 0 m s).
Proof. reflexivity. Qed.

Lemma substring_S_cons n m x s :
  String.substring (S n) m (String x s) = String.substring n m s.
Proof. reflexivity. Qed.

Lemma substring_append_l a b : String.substring 0 (String.length a) (a +:+ b) = a.
Proof.
  induction a as [| x a IH]; [by destruct b |].
  rewrite append_cons. cbn [String.length]. by rewrite substring_0_cons, IH.
Qed.

Lemma substring_all b : String.substring 0 (String.length b) b = b.
Proof. rewrite <- (append_nil_r b) at 2. by rewrite substring_append_l. Qed.

Lemma substring_append_r a b :
  String.substring (String.length a) (String.length b) (a +:+ b) = b.
Proof.
  induction a as [| x a IH]; [apply substring_all |].
  rewrite append_cons. cbn [String.length]. by rewrite substring_S_cons.
Qed.

Lemma substring_split s : forall n,
  (n <= String.length s)%nat ->
  String.substring 0 n s +:+ String.substring n (String.length s - n) s = s.
Proof.
  induction s as [| x s IH]; intros n Hn.
  - cbn [String.length] in Hn. by assert (n = 0%nat) as -> by lia.
  - destruct n as [| n].
    + rewrite Nat.sub_0_r, substring_all. by destruct (String.length _).
    + cbn [String.length] in *. rewrite substring_0_cons, substring_S_cons, append_cons.
      rewrite Nat.sub_succ. rewrite IH by lia. done.
Qed.

Lemma length_substring_0 s : forall n,
  (n <= String.length s)%nat -> String.length (String.substring 0 n s) = n.
Proof.
  induction s as [| x s IH]; intros [| n] Hn; cbn [String.length] in *;
    try done; try lia.
  rewrite substring_0_cons. cbn [String.length]. rewrite IH; lia.
Qed.

(** X17.  [command_extract] takes from an input name exactly the suffix
    [command_archive] puts on it: it finds an output name for the names that
    end in ".enchive" and have something before it, and for no other. *)
Theorem extract_outfile_undoes_archive_outfile name infile :
  archive_outfile (Some name) None = Some (name +:+ ".enchive")
  /\ (extract_outfile (Some infile) None = OutputName (Some name)
      <-> infile = name +:+ ".enchive" /\ name <> "")
  /\ (extract_outfile (Some infile) None = CouldNotDetermine infile
      <-> ~ exists stem, infile = stem +:+ ".enchive" /\ stem <> "").
Proof.
  assert (Hjoin : forall stem, joinstr [stem; enchive_suffix] = stem +:+ ".enchive").
  { intros stem. unfold joinstr, enchive_suffix. cbn [foldr]. by rewrite append_nil_r. }
  assert (Hyes : forall stem, stem <> "" ->
            extract_outfile (Some (stem +:+ ".enchive")) None = OutputName (Some stem)).
  { intros stem Hne. unfold extract_outfile, enchive_suffix. cbv zeta.
    rewrite length_append. change (String.length ".enchive") with 8%nat.
    rewrite Nat.add_sub.
    rewrite bool_decide_eq_false_2 by (destruct stem; [done | simpl; lia]).
    pose proof (substring_append_r stem ".enchive") as Hsub.
    change (String.length ".enchive") with 8%nat in Hsub. rewrite Hsub.
    rewrite bool_decide_eq_false_2 by (intros Hn; by apply Hn).
    cbn [orb]. by rewrite substring_append_l. }
  assert (Hno : forall stem r,
            extract_outfile (Some stem) None = OutputName r ->
            exists o, r = Some o /\ stem = o +:+ ".enchive" /\ o <> "").
  { intros stem r. unfold extract_outfile, enchive_suffix. cbv zeta.
    change (String.length ".enchive") with 8%nat.
    case_bool_decide as Hlen; [discriminate |].
    case_bool_decide as Hsuf; [discriminate |]. cbn [orb]. intros [= <-].
    eexists. split; [done |].
    assert (Hsuf' : String.substring (String.length stem - 8) 8 stem = ".enchive").
    { destruct (decide (".enchive"
                        = String.substring (String.length stem - 8) 8 stem));
        [done | by destruct Hsuf]. }
    split.
    - rewrite <- (substring_split stem (String.length stem - 8)) at 1 by lia.
      replace (String.length stem - (String.length stem - 8))%nat with 8%nat by lia.
      by rewrite Hsuf'.
    - intros Hempty. apply (f_equal String.length) in Hempty.
      rewrite length_substring_0 in Hempty by lia. simpl in Hempty. lia. }
  split; [unfold archive_outfile; by rewrite Hjoin |]. split.
  - split.
    + intros Hex. apply Hno in Hex as (o & [= <-] & Hname & Hne). done.
    + intros [-> Hne]. by apply Hyes.
  - split.
    + intros Hex (stem & -> & Hne). by rewrite Hyes in Hex.
    + intros Hnone. destruct (extract_outfile (Some infile) None) as [i | r] eqn:Hex.
      * unfold extract_outfile in Hex. cbv zeta in Hex.
        destruct (_ || _); congruence.
      * apply Hno in Hex as (o & _ & Hname & Hne). destruct Hnone. by exists o.
Qed.

(** ** The commands on files *)

Lemma command_archive_stream_eq pubfile w public :
  load_pubkey pubfile w = (Done public, w) ->
  command_archive pubfile w = command_archive_stream public w.
Proof. intros Hload. unfold command_archive. by rewrite (bind_eq _ _ _ _ _ Hload). Qed.

Lemma command_extract_stream_eq secfile w secret w1 :
  load_seckey secfile w = (Done secret, w1) ->
  command_extract secfile w = command_extract_stream secret w1.
Proof. intros Hload. unfold command_extract. by rewrite (bind_eq _ _ _ _ _ Hload). Qed.

Lemma files_symmetric_decrypt_loop fuel : forall ctx hmac buffer0 w,
  files (symmetric_decrypt_loop fuel ctx hmac buffer0 w).2 = files w.
Proof.
  induction fuel as [| fuel IH]; intros ctx hmac buffer0 w; [done |].
  rewrite symmetric_decrypt_loop_S. cbv zeta.
  case_bool_decide; [by destruct w |].
  case_bool_decide; [by destruct w |].
  rewrite IH. by destruct w.
Qed.

Lemma files_symmetric_decrypt key iv w : files (symmetric_decrypt key iv w).2 = files w.
Proof.
  unfold symmetric_decrypt, bind, full_read.
  case_bool_decide; [by destruct w |].
  match goal with
  | |- context [symmetric_decrypt_loop ?f ?c ?h ?b ?w0] =>
      pose proof (files_symmetric_decrypt_loop f c h b w0) as Hloop;
      destruct (symmetric_decrypt_loop f c h b w0) as [[[hmac' buf'] | e] w1]
  end; cbn [snd] in *.
  - case_match; unfold ret, fatal; cbn [snd]; rewrite Hloop; by destruct w.
  - rewrite Hloop. by destruct w.
Qed.

Lemma files_command_extract_stream secret w :
  files (command_extract_stream secret w).2 = files w.
Proof.
  unfold command_extract_stream, bind, full_read.
  case_bool_decide; [by destruct w |].
  case_bool_decide; [by destruct w |].
  case_match; [by destruct w |].
  rewrite files_symmetric_decrypt. by destruct w.
Qed.

(** X18.  A [command_extract] that fails once the key is loaded and the files are
    open leaves no output file, not even one that was there before; the other
    files are as they were. *)
Theorem command_extract_files_failure_removes_output secfile o w e w' secret w1 out :
  load_seckey secfile w = (Done secret, w1) ->
  extract_outfile (fo_infile o) (fo_outfile o) = OutputName (Some out) ->
  command_extract_files secfile o w = (ExitFatal e, w') ->
  files w' !! out = None
  /\ forall name, name <> out -> files w' !! name = files w !! name.
Proof.
  intros Hload Hname. unfold command_extract_files. rewrite Hload.
  destruct (load_seckey_fds _ _ _ _ Hload) as (_ & _ & Hfiles).
  destruct (open_in (fo_infile o) w1) as [w2 |] eqn:Hin; [| discriminate].
  assert (Hf2 : files w2 = files w).
  { unfold open_in in Hin. destruct (fo_infile o); [| by injection Hin as <-].
    destruct (files w1 !! s); [| discriminate]. injection Hin as <-.
    by destruct w1. }
  rewrite Hname.
  pose proof (files_command_extract_stream secret (open_out (Some out) w2)) as Hbody.
  destruct (command_extract_stream secret (open_out (Some out) w2)) as [[[] | e'] w3];
    [discriminate |].
  intros [= <- <-]. cbn [snd] in Hbody. unfold remove.
  destruct w3 as [input3 out3 u3 t3 a3 g3 f3 tr3]. wsimpl. subst f3.
  split; [apply lookup_delete_eq |].
  intros name Hne. rewrite lookup_delete_ne by done.
  unfold open_out. destruct w2. wsimpl. rewrite lookup_insert_ne by done.
  by rewrite Hf2.
Qed.

Lemma extract_outfile_suffix name :
  name <> "" ->
  extract_outfile (Some (name +:+ ".enchive")) None = OutputName (Some name).
Proof.
  intros Hne. unfold extract_outfile, enchive_suffix. cbv zeta.
  rewrite length_append. change (String.length ".enchive") with 8%nat.
  rewrite Nat.add_sub.
  rewrite bool_decide_eq_false_2 by (destruct name; [done | simpl; lia]).
  pose proof (substring_append_r name ".enchive") as Hsub.
  change (String.length ".enchive") with 8%nat in Hsub. rewrite Hsub.
  rewrite bool_decide_eq_false_2 by (intros Hn; by apply Hn).
  cbn [orb]. by rewrite substring_append_l.
Qed.

Lemma suffixed_ne name : name +:+ ".enchive" <> name.
Proof.
  intros Heq. apply (f_equal String.length) in Heq.
  rewrite length_append in Heq. simpl in Heq. lia.
Qed.

(** X19.  [command_archive] of a file, then [command_extract] of the archive it
    leaves beside it, with the key pair of an unprotected secret key file: the
    archive is named after the file with the suffix and is 72 bytes longer,
    and the extraction puts the contents of the file back under its name.
    [--delete] removes the input of each command, once it has ended well. *)
Theorem archive_extract_files_roundtrip
    pubfile secfile name sec pt d d' w iv0 p1 p2 tag0 tail0 :
  sha256_sized -> chacha_sized -> chacha_lockstep -> donna_sized -> donna_agree ->
  (0 < CHACHA_BLOCKLENGTH)%nat ->
  length sec = 32%nat -> length iv0 = 8%nat -> length tag0 = 20%nat ->
  files w !! pubfile = Some (compute_public sec) ->
  files w !! secfile
  = Some (iv0 ++ [0; ENCHIVE_FORMAT_VERSION; p1; p2] ++ tag0 ++ sec ++ tail0) ->
  files w !! name = Some pt -> files w !! (name +:+ ".enchive") = None ->
  name <> "" -> secfile <> name -> (32 <= length (urandom w))%nat ->
  exists w1 w2 archive,
    command_archive_files pubfile (FileOptions d (Some name) None) w
    = (ExitSuccess, w1)
    /\ files w1 !! (name +:+ ".enchive") = Some archive
    /\ length archive = (72 + length pt)%nat
    /\ files w1 !! name = (if d then None else Some pt)
    /\ command_extract_files secfile
         (FileOptions d' (Some (name +:+ ".enchive")) None) w1
       = (ExitSuccess, w2)
    /\ files w2 !! name = Some pt
    /\ files w2 !! (name +:+ ".enchive") = (if d' then None else Some archive).
Proof.
  intros Hsha Hsz Hlock Hdn Hag HB Hsec Hiv0 Htag0 Hpub Hsecfile Hname Hfree Hne
    Hdiff Hent.
  set (ne := name +:+ ".enchive") in *.
  assert (Hne_name : ne <> name) by apply suffixed_ne.
  assert (Hne_sec : secfile <> ne) by (intros ->; congruence).
  assert (Hne_pub : pubfile <> ne) by (intros ->; congruence).
  assert (Hpubl : length (compute_public sec) = 32%nat) by apply Hdn.
  destruct w as [input out u t a g f tr]. wsimpl.
  set (esecret := clamp (take 32 u)).
  set (shared := compute_shared esecret (compute_public sec)).
  set (archive := archive_of shared (compute_public esecret) pt).
  assert (Harch : length archive = (72 + length pt)%nat).
  { subst archive. apply length_archive_of; try done. apply Hdn. }
  (* the archive *)
  set (wo := World pt [] u t a g (<[ne := []]> f) tr).
  assert (Hstream : command_archive_stream (compute_public sec) wo
                    = (Done tt, World [] archive (drop 32 u) t a g (<[ne := []]> f) tr)).
  { rewrite <- (command_archive_stream_eq pubfile).
    - rewrite (command_archive_spec pubfile wo (compute_public sec)); try done.
      + cbv zeta. subst wo. wsimpl. rewrite (take_ge (compute_public sec)) by lia.
        done.
      + subst wo. wsimpl. by rewrite lookup_insert_ne.
      + lia.
    - unfold load_pubkey. subst wo. wsimpl. rewrite lookup_insert_ne by done.
      rewrite Hpub. rewrite bool_decide_eq_false_2 by lia.
      by rewrite take_ge by lia. }
  set (f1 := if d then delete name (<[ne := archive]> (<[ne := []]> f))
             else <[ne := archive]> (<[ne := []]> f)).
  set (w1 := World [] archive (drop 32 u) t a g f1 tr).
  assert (Hrun1 : command_archive_files pubfile (FileOptions d (Some name) None)
                    (World input out u t a g f tr) = (ExitSuccess, w1)).
  { unfold command_archive_files, load_pubkey. wsimpl. rewrite Hpub.
    rewrite bool_decide_eq_false_2 by lia. rewrite take_ge by lia.
    unfold open_in. cbn [fo_infile fo_outfile fo_delete]. wsimpl. rewrite Hname.
    unfold archive_outfile, joinstr, enchive_suffix. cbn [foldr].
    rewrite append_nil_r. fold ne. unfold open_out. wsimpl.
    rewrite Hfree. cbn [default from_option id].
    unfold set_fd_in, set_files, set_fd_out. wsimpl. fold wo. rewrite Hstream.
    unfold close_out, write_file, remove, set_files. wsimpl. rewrite lookup_insert_eq.
    cbn [default from_option id]. rewrite drop_nil, app_nil_r.
    subst w1 f1. by destruct d. }
  assert (Hf1_ne : f1 !! ne = Some archive).
  { subst f1. destruct d; [rewrite lookup_delete_ne by done |];
      by rewrite lookup_insert_eq. }
  assert (Hf1_name : f1 !! name = if d then None else Some pt).
  { subst f1. destruct d; [by rewrite lookup_delete_eq |].
    by rewrite !lookup_insert_ne by done. }
  assert (Hf1_sec : f1 !! secfile
                    = Some (iv0 ++ [0; ENCHIVE_FORMAT_VERSION; p1; p2] ++ tag0
                                ++ sec ++ tail0)).
  { subst f1. destruct d; [rewrite lookup_delete_ne by done |];
      by rewrite !lookup_insert_ne by done. }
  (* the extraction *)
  set (old := default [] (f1 !! name)).
  set (we := World archive [] (drop 32 u) t a g (<[name := old]> f1) tr).
  assert (Hload1 : load_seckey secfile w1 = (Done sec, w1))
    by (by apply (load_seckey_plain secfile w1 iv0 p1 p2 tag0 sec tail0)).
  assert (Hloade : load_seckey secfile we = (Done sec, we)).
  { apply (load_seckey_plain secfile we iv0 p1 p2 tag0 sec tail0); try done.
    subst we. wsimpl. by rewrite lookup_insert_ne. }
  assert (Hext : command_extract_stream sec we
                 = (Done tt, World [] pt (drop 32 u) t a g (<[name := old]> f1) tr)).
  { rewrite <- (command_extract_stream_eq secfile we sec we Hloade).
    rewrite (command_extract_archive_of secfile we sec we esecret pt); try done.
    subst esecret. rewrite length_clamp, length_take. lia. }
  set (f2 := if d' then delete ne (<[name := pt]> (<[name := old]> f1))
             else <[name := pt]> (<[name := old]> f1)).
  exists w1, (World [] pt (drop 32 u) t a g f2 tr), archive.
  split; [done |]. split; [done |]. split; [done |]. split; [done |].
  assert (Hold : drop (length pt) old = []).
  { subst old. rewrite Hf1_name. destruct d; simpl; [apply drop_nil | apply drop_all]. }
  split; [| split].
  - unfold command_extract_files. rewrite Hload1.
    unfold open_in. cbn [fo_infile fo_outfile fo_delete]. subst w1. wsimpl.
    rewrite Hf1_ne.
    pose proof (extract_outfile_suffix name Hne) as Hx. fold ne in Hx. rewrite Hx.
    unfold open_out. wsimpl. fold old.
    unfold set_fd_in, set_files, set_fd_out. wsimpl. fold we. rewrite Hext.
    unfold close_out, write_file, remove, set_files. wsimpl. rewrite lookup_insert_eq.
    cbn [default from_option id]. rewrite Hold, app_nil_r.
    subst f2. by destruct d'.
  - subst f2. wsimpl. destruct d'; [rewrite lookup_delete_ne by done |];
      by rewrite lookup_insert_eq.
  - subst f2. wsimpl. destruct d'; [by rewrite lookup_delete_eq |].
    by rewrite !lookup_insert_ne by done.
Qed.

(** ** Key generation: the edit and the derivation path *)

(** A secret key [load_seckey] returns has 32 bytes. *)
Lemma length_load_seckey file w s w' :
  chacha_sized -> load_seckey file w = (Done s, w') -> length s = 32%nat.
Proof.
  intros Hsz. unfold load_seckey. intros Hrun.
  apply bind_Done in Hrun as (buf & w1 & Hread & Hrun).
  assert (Hbuf : length buf = 64%nat).
  { cbv beta in Hread. destruct (files w !! file) as [c |]; [| discriminate].
    destruct (bool_decide (length c < 8 + 4 + 20 + 32)%nat) eqn:Hc; [discriminate |].
    apply bool_decide_eq_false_1 in Hc. injection Hread as <- _.
    rewrite length_take. lia. }
  case_bool_decide; [discriminate |].
  case_bool_decide.
  - apply bind_Done in Hrun as (got & w2 & _ & Hrun).
    destruct (match got with Some _ => _ | None => _ end) as [agent_success protect0].
    apply bind_Done in Hrun as (protect & w3 & _ & Hrun).
    apply bind_Done in Hrun as (timeout & w4 & _ & Hrun).
    apply bind_Done in Hrun as ([] & w5 & _ & Hrun).
    injection Hrun as <- _. rewrite Hsz, length_take. unfold at_offset.
    rewrite length_drop, Hbuf. unfold SECFILE_SECKEY. lia.
  - injection Hrun as <- _. rewrite length_take. unfold at_offset.
    rewrite length_drop, Hbuf. unfold SECFILE_SECKEY. lia.
Qed.

(** X20.  [command_keygen --edit --plain] takes the protection off a secret key and
    keeps the key: the key file gives back, without a question, the scalar
    that was loaded from it, and the public key file holds its public key. *)
Theorem command_keygen_edit_keeps_key o w w' :
  chacha_sized -> donna_sized -> 0 <= ENCHIVE_FORMAT_VERSION < 256 ->
  kg_edit o = true -> kg_protect o = false -> kg_pubfile o <> kg_secfile o ->
  command_keygen o w = (Done tt, w') ->
  exists s w1,
    load_seckey (kg_secfile o) w = (Done s, w1)
    /\ load_seckey (kg_secfile o) w' = (Done s, w')
    /\ load_pubkey (kg_pubfile o) w' = (Done (compute_public s), w').
Proof.
  intros Hsz Hdn Hv Hedit Hprot Hdiff Hrun.
  apply command_keygen_Done in Hrun as (s & w1 & w3 & Hsecret & Hwrite & Hpub).
  unfold command_keygen_secret in Hsecret. rewrite Hedit in Hsecret.
  destruct (bool_decide _); [| discriminate]. cbn [negb] in Hsecret.
  exists s, w1. split; [done |].
  pose proof (length_load_seckey _ _ _ _ Hsz Hsecret) as Hlen.
  rewrite Hprot in Hwrite.
  destruct (write_seckey_plain (kg_secfile o) s 0
              (if kg_fingerprint o then (print_fingerprint (compute_public s) w1).2
               else w1) Hv Hlen ltac:(by left))
    as (w3' & Hwrite' & Hfiles & _ & _).
  rewrite Hwrite in Hwrite'. injection Hwrite' as <-.
  destruct (load_write_pubkey _ _ _ _ (kg_secfile o) (length_compute_public s Hdn) Hpub)
    as (Hloadpub & Hother).
  split; [| done].
  eapply (load_seckey_plain _ _ (repeat 0 8) 0 0 (repeat 0 20) s); try done.
  rewrite Hother by done. rewrite Hfiles, lookup_insert_eq.
  by rewrite <- !app_assoc.
Qed.

(** X21.  [command_keygen --derive --plain] draws no entropy: the secret key it
    stores is the clamped key derivation of the passphrase alone, under no
    salt, and the public key file holds its public key.  The passphrase is
    the string that the entries [typed0] and [typed1] both leave in the
    buffer of [get_passphrase]. *)
Theorem command_keygen_derive_is_reproducible o w typed0 typed1 pass rest :
  sha256_sized -> donna_sized -> 32 <= ULONG_BITS ->
  0 <= ENCHIVE_FORMAT_VERSION < 256 -> 5 <= kg_seckey_derive_iterations o <= 31 ->
  kg_edit o = false -> kg_derive o = true -> kg_protect o = false ->
  kg_pubfile o <> kg_secfile o ->
  kg_clobber o = true
  \/ files w !! kg_pubfile o = None /\ files w !! kg_secfile o = None ->
  tty w = typed0 :: typed1 :: rest ->
  typed_passphrase sizeof_pass typed0 = Some pass ->
  typed_passphrase sizeof_pass typed1 = Some pass ->
  let s := clamp (key_derive pass (kg_seckey_derive_iterations o) None) in
  exists w',
    command_keygen o w = (Done tt, w')
    /\ urandom w' = urandom w
    /\ load_seckey (kg_secfile o) w' = (Done s, w')
    /\ load_pubkey (kg_pubfile o) w' = (Done (compute_public s), w').
Proof.
  intros Hsha Hdn Hw Hv Hit Hedit Hderive Hprot Hdiff Hfree Htty Ht0 Ht1 s.
  assert (Hs : length s = 32%nat).
  { subst s. rewrite length_clamp. by apply (key_derive_kdf_from_seed pass _ None). }
  destruct w as [input out u t a g f tr]. wsimpl. subst t.
  set (w1 := World input out u rest a g f
               (tr ++ [EvPrompt "secret key passphrase: ";
                       EvPrompt "secret key passphrase (repeat): "])).
  assert (Hsecret : forall b,
    command_keygen_secret o b (World input out u (typed0 :: typed1 :: rest) a g f tr)
    = (Done s, w1)).
  { intros b. unfold command_keygen_secret. rewrite Hedit, Hderive.
    unfold bind, get_passphrase, bind, log. wsimpl. rewrite Ht0. wsimpl.
    rewrite Ht1. rewrite bool_decide_eq_false_2 by (intros Hn; by apply Hn).
    unfold ret. subst w1. by rewrite <- app_assoc. }
  set (w2 := if kg_fingerprint o then (print_fingerprint (compute_public s) w1).2
             else w1).
  assert (Hw2 : urandom w2 = u /\ files w2 = f)
    by (subst w2 w1; by destruct (kg_fingerprint o)).
  destruct Hw2 as [Hu2 Hf2].
  destruct (write_seckey_plain (kg_secfile o) s 0 w2 Hv Hs ltac:(by left))
    as (w3 & Hwrite & Hfiles & Hu3 & _).
  destruct (write_pubkey (kg_pubfile o) (compute_public s) w3) as [r w4] eqn:Hpub.
  assert (r = Done tt) as -> by (by injection Hpub as <- _).
  destruct (load_write_pubkey _ _ _ _ (kg_secfile o) (length_compute_public s Hdn) Hpub)
    as (Hloadpub & Hother).
  exists w4. split; [| split; [| split; [| done]]].
  - unfold command_keygen. rewrite Hedit, Hderive, Hprot. cbn [andb negb].
    unfold bind at 1. unfold file_exists at 1.
    unfold bind at 1. unfold file_exists at 1. wsimpl.
    destruct (negb (kg_clobber o) && bool_decide (is_Some (f !! kg_pubfile o)))
      eqn:Hc1.
    { destruct Hfree as [Hc | [Hnone _]]; [by rewrite Hc in Hc1 |].
      rewrite Hnone in Hc1. rewrite bool_decide_eq_false_2 in Hc1 by (by intros [? ?]).
      by rewrite andb_false_r in Hc1. }
    destruct (negb (kg_clobber o) && bool_decide (is_Some (f !! kg_secfile o)))
      eqn:Hc2.
    { destruct Hfree as [Hc | [_ Hnone]]; [by rewrite Hc in Hc2 |].
      rewrite Hnone in Hc2. rewrite bool_decide_eq_false_2 in Hc2 by (by intros [? ?]).
      by rewrite andb_false_r in Hc2. }
    rewrite (bind_eq _ _ _ _ _ (Hsecret _)).
    assert (Hprint :
      (if kg_fingerprint o then print_fingerprint (compute_public s) else ret tt) w1
      = (Done tt, w2)) by (subst w2; by destruct (kg_fingerprint o)).
    rewrite (bind_eq _ _ _ _ _ Hprint).
    rewrite (bind_eq _ _ _ _ _ Hwrite). done.
  - unfold write_pubkey, write_file in Hpub. injection Hpub as <-.
    destruct w3. wsimpl. congruence.
  - eapply (load_seckey_plain _ _ (repeat 0 8) 0 0 (repeat 0 20) s); try done.
    rewrite Hother by done. rewrite Hfiles, lookup_insert_eq.
    by rewrite <- !app_assoc.
Qed.

(** ** The format version in the IV *)

(** X22.  An archive is refused, before anything is written, by a program built
    with another format version (modulo 256), even under the secret key it
    was made for: the IV of an archive carries the version. *)
Theorem command_extract_refuses_other_version v secfile w sec w1 epublic pt :
  sha256_sized -> (v - ENCHIVE_FORMAT_VERSION) mod 256 <> 0 ->
  @load_seckey (with_version v) secfile w = (Done sec, w1) ->
  length epublic = 32%nat ->
  fd_in w = archive_of (compute_shared sec epublic) epublic pt ->
  exists w',
    @command_extract (with_version v) secfile w = (Fatal ErrInvalidMasterKey, w')
    /\ fd_out w' = fd_out w.
Proof.
  intros Hsha Hv Hload Hep Hin.
  destruct (@load_seckey_fds (with_version v) _ _ _ _ Hload) as (_ & Hout & _).
  set (shared := compute_shared sec epublic) in *.
  destruct (Hsha (take 32 shared)) as [Hd _].
  assert (Hiv : length (archive_iv shared) = 8%nat) by (by apply length_archive_iv).
  assert (Hlen : (40 <= length (fd_in w))%nat).
  { rewrite Hin. unfold archive_of. cbv zeta. rewrite !length_app, Hiv, Hep. lia. }
  assert (H8 : take 8 (fd_in w) = archive_iv shared).
  { rewrite Hin. unfold archive_of. cbv zeta. by apply take_app_length'. }
  assert (H32 : take 32 (drop 8 (fd_in w)) = epublic).
  { rewrite Hin. unfold archive_of. cbv zeta.
    rewrite drop_app_length' by done. by apply take_app_length'. }
  rewrite (@command_extract_header (with_version v) _ _ _ _ Hload). cbv zeta.
  rewrite !bool_decide_eq_false_2 by lia.
  rewrite H8, H32.
  change (@compute_shared (with_version v) sec epublic) with shared.
  rewrite bool_decide_eq_false_2.
  { eexists. split; [done |]. by destruct w1. }
  unfold archive_iv. cbn [SHA256 ENCHIVE_FORMAT_VERSION with_version].
  set (digest := SHA256 (take 32 shared)) in *.
  intros Heq. apply (f_equal (fun l => l !!! 0%nat)) in Heq.
  rewrite !lookup_total_take_lt, !list_lookup_total_insert_eq in Heq by lia.
  apply Hv. rewrite <- Zminus_mod_idemp_l, <- Zminus_mod_idemp_r.
  replace (v mod 256 - ENCHIVE_FORMAT_VERSION mod 256)
    with ((digest !!! 0%nat + v) mod 256 - (digest !!! 0%nat + ENCHIVE_FORMAT_VERSION) mod 256
          + 256 * ((digest !!! 0%nat + v) / 256
                   - (digest !!! 0%nat + ENCHIVE_FORMAT_VERSION) / 256
                   - v / 256 + ENCHIVE_FORMAT_VERSION / 256))
    by (Z.to_euclidean_division_equations; lia).
  rewrite Heq, Z.sub_diag, Z.add_0_l, Z.mul_comm. apply Z.mod_mul. lia.
Qed.

(** ** Reading in pieces *)

Lemma full_read_loop_spec pieces : forall stream buf z len,
  Forall (fun piece => 1 <= piece)%nat pieces -> (len - z <= length pieces)%nat ->
  z = length buf ->
  full_read_loop pieces stream buf z len
  = (buf ++ take (len - z) stream, drop (len - z) stream).
Proof.
  induction pieces as [| piece pieces IH]; intros stream buf z len Hpos Hfuel Hz.
  { simpl in Hfuel. replace (len - z)%nat with 0%nat by lia.
    cbn [full_read_loop]. by rewrite take_0, drop_0, app_nil_r. }
  apply Forall_cons in Hpos as [Hp Hpos]. cbn [full_read_loop].
  case_bool_decide as Hlt.
  2:{ replace (len - z)%nat with 0%nat by lia.
      by rewrite take_0, drop_0, app_nil_r. }
  cbv zeta. set (n := (piece `min` (len - z))%nat).
  assert (Hn : (1 <= n <= len - z)%nat) by (subst n; lia).
  case_bool_decide as Hr.
  { rewrite length_take in Hr.
    assert (stream = []) as -> by (destruct stream; [done | simpl in Hr; lia]).
    by rewrite take_nil, drop_nil, app_nil_r. }
  rewrite IH; [| done | cbn [length] in Hfuel; rewrite length_take in *; lia
               | rewrite length_app; lia].
  rewrite length_take in *. rewrite <- app_assoc.
  destruct (decide (n <= length stream)%nat) as [Hle | Hgt].
  - rewrite Nat.min_l by done.
    replace (len - (z + n))%nat with (len - z - n)%nat by lia.
    rewrite take_take_drop, drop_drop.
    by replace (n + (len - z - n))%nat with (len - z)%nat by lia.
  - rewrite Nat.min_r by lia.
    rewrite (drop_ge stream) by lia. rewrite take_nil, drop_nil, app_nil_r.
    rewrite !take_ge, drop_ge by lia. done.
Qed.

(** X23.  [full_read] gives the first [len] bytes of the stream, or all of it when
    it is shorter, however [read] cuts it into pieces. *)
Theorem full_read_loop_gathers_pieces pieces stream len :
  Forall (fun piece => 1 <= piece)%nat pieces -> (len <= length pieces)%nat ->
  full_read_loop pieces stream [] 0 len = (take len stream, drop len stream)
  /\ forall w, fd_in w = stream ->
       (full_read len w).1 = Done (full_read_loop pieces stream [] 0 len).1
       /\ fd_in (full_read len w).2 = (full_read_loop pieces stream [] 0 len).2.
Proof.
  intros Hpos Hfuel.
  assert (Hloop : full_read_loop pieces stream [] 0 len
                  = (take len stream, drop len stream)).
  { rewrite full_read_loop_spec; [| done | lia | done]. by rewrite Nat.sub_0_r. }
  split; [done |]. intros w <-. rewrite Hloop. unfold full_read. by destruct w.
Qed.

(** ** Extraction of an arbitrary input *)

(** The loop of [symmetric_decrypt] on any input: it ends, having written as
    many bytes as it has read. *)
Lemma symmetric_decrypt_loop_any fuel :
  chacha_sized -> (0 < CHACHA_BLOCKLENGTH)%nat ->
  forall ctx hmac window w,
    length window = 32%nat -> (length (fd_in w) < fuel)%nat ->
    exists hmac' window' w',
      symmetric_decrypt_loop fuel ctx hmac window w = (Done (hmac', window'), w')
      /\ length window' = 32%nat /\ fd_in w' = []
      /\ length (fd_out w') = (length (fd_out w) + length (fd_in w))%nat.
Proof.
  intros Hsz HB. induction fuel as [| fuel IH]; intros ctx hmac window w Hwin Hfuel;
    [lia |].
  rewrite symmetric_decrypt_loop_S. cbv zeta.
  set (B := (CHACHA_BLOCKLENGTH * 1024)%nat) in *.
  assert (HBpos : (0 < B)%nat) by (subst B; lia).
  destruct w as [input out u t a g f tr]. wsimpl.
  case_bool_decide as Hz; rewrite length_take in Hz.
  { assert (input = []) as -> by (destruct input; [done | simpl in Hz; lia]).
    eexists _, _, _. split; [done |]. wsimpl.
    rewrite drop_nil. cbn [length]. by rewrite Nat.add_0_r. }
  rewrite (store_at_end window _ 32) by done.
  set (z := length (take B input)).
  assert (Hzle : z = (B `min` length input)%nat) by (subst z; by rewrite length_take).
  set (r := chacha_encrypt_bytes ctx (take z (window ++ take B input))).
  assert (Hr : length (take z r.2) = z).
  { subst r. rewrite length_take, Hsz, length_take, length_app. fold z. lia. }
  assert (Hwin' : length (load (window ++ take B input) (Z.of_nat z) 32) = 32%nat).
  { apply length_load. rewrite length_app. fold z. lia. }
  case_bool_decide as Hshort.
  - eexists _, _, _. split; [done |]. wsimpl. split; [done |].
    rewrite drop_ge by lia. split; [done |]. rewrite length_app, Hr. lia.
  - destruct (IH r.1 (hmac ++ take z r.2)
                (load (window ++ take B input) (Z.of_nat z) 32)
                (World (drop B input) (out ++ take z r.2) u t a g f tr) Hwin')
      as (hmac' & window' & w' & Hloop & Hw' & Hin' & Hout').
    { wsimpl. rewrite length_drop. lia. }
    exists hmac', window', w'. split; [done |]. split; [done |]. split; [done |].
    rewrite Hout'. wsimpl. rewrite length_app, Hr, length_drop. lia.
Qed.

(** X24.  Whatever the input, [command_extract] ends with one of its messages or
    well.  It writes nothing unless the header is the one of the key and at
    least 32 bytes follow it; it then writes as many bytes as the input has
    beyond its 72 bytes of header and MAC, before the MAC decides between
    success and the checksum error. *)
Theorem command_extract_any_input secfile w sec w1 :
  chacha_sized -> (0 < CHACHA_BLOCKLENGTH)%nat ->
  load_seckey secfile w = (Done sec, w1) ->
  exists r w',
    command_extract secfile w = (r, w')
    /\ (((r = Done tt \/ r = Fatal ErrChecksumMismatch)
         /\ (72 <= length (fd_in w))%nat
         /\ length (fd_out w') = (length (fd_out w) + (length (fd_in w) - 72))%nat)
        \/ ((r = Fatal ErrReadIV \/ r = Fatal ErrReadEphemeral
             \/ r = Fatal ErrInvalidMasterKey \/ r = Fatal ErrCiphertextTooShort)
            /\ fd_out w' = fd_out w)).
Proof.
  intros Hsz HB Hload.
  destruct (load_seckey_fds _ _ _ _ Hload) as (_ & Hout & _).
  rewrite (command_extract_header _ _ _ _ Hload). cbv zeta.
  case_bool_decide as H8.
  { eexists _, _. split; [done |]. right. split; [by auto |]. by destruct w1. }
  case_bool_decide as H40.
  { eexists _, _. split; [done |]. right. split; [by auto |]. by destruct w1. }
  case_bool_decide as Hiv.
  2:{ eexists _, _. split; [done |]. right. split; [by auto |]. by destruct w1. }
  set (shared := compute_shared sec (take 32 (drop 8 (fd_in w)))).
  destruct (decide (length (fd_in w) < 72)%nat) as [Hshort | Hlong].
  { rewrite symmetric_decrypt_short
      by (destruct w1; wsimpl; rewrite length_drop; lia).
    eexists _, _. split; [done |]. right. split; [by auto 10 |]. by destruct w1. }
  unfold symmetric_decrypt, bind, full_read. destruct w1 as [in1 out1 u t a g f tr].
  wsimpl. subst out1. unfold SHA256_BLOCK_SIZE.
  rewrite bool_decide_eq_false_2 by (rewrite length_take, length_drop; lia).
  match goal with
  | |- context [symmetric_decrypt_loop ?fu ?c ?h ?b ?w0] =>
      destruct (symmetric_decrypt_loop_any fu Hsz HB c h b w0)
        as (hmac' & window' & w' & -> & Hwin & Hin' & Hout')
  end.
  { rewrite length_take, length_drop. lia. }
  { wsimpl. lia. }
  wsimpl. rewrite !length_drop in Hout'.
  case_match; eexists _, _; (split; [done |]); left;
    (split; [by auto |]); (split; [lia |]); unfold ret, fatal; cbn [snd]; lia.
Qed.

(** ** The default key files *)

Lemma storage_directory_loop_head seen b :
  storage_directory_loop seen ("/" +:+ b)
  = seen :: storage_directory_loop (seen +:+ "/") b.
Proof. reflexivity. Qed.

Lemma storage_directory_loop_slash a : forall seen b,
  storage_directory_loop seen (a +:+ "/" +:+ b)
  = storage_directory_loop seen a ++ [seen +:+ a]
      ++ storage_directory_loop (seen +:+ a +:+ "/") b.
Proof.
  induction a as [| c a IH]; intros seen b.
  - change ("" +:+ "/" +:+ b) with ("/" +:+ b). rewrite storage_directory_loop_head.
    by rewrite append_nil_r.
  - rewrite append_cons. cbn [storage_directory_loop]. rewrite IH.
    rewrite !append_assoc. change (String c "" +:+ a) with (String c a).
    change (String c "" +:+ a +:+ "/") with (String c a +:+ "/").
    by rewrite <- !app_assoc.
Qed.

Lemma storage_directory_loop_enchive seen : storage_directory_loop seen "enchive" = [].
Proof. reflexivity. Qed.

(** The path of a key file under a configuration directory [base], and the
    directories the loop goes through for it: those on the way to [base],
    [base] itself and the directory "enchive" in it. *)
Lemma storage_directory_dirs_enchive c base file :
  storage_directory_loop (String c base +:+ "/enchive/") file = [] ->
  storage_directory_dirs (String c base +:+ "/enchive/" +:+ file)
  = storage_directory_dirs (String c base)
      ++ [String c base; String c base +:+ "/enchive"].
Proof.
  intros Hfile. rewrite append_cons. cbn [storage_directory_dirs].
  change ("/enchive/" +:+ file) with ("/" +:+ "enchive" +:+ "/" +:+ file).
  rewrite storage_directory_loop_slash, storage_directory_loop_slash.
  rewrite storage_directory_loop_enchive, app_nil_l.
  rewrite !append_assoc. change ("/" +:+ "enchive" +:+ "/") with "/enchive/".
  change ("/" +:+ "enchive") with "/enchive".
  change (String c "" +:+ base) with (String c base).
  change (String c "" +:+ base +:+ "/enchive/") with (String c base +:+ "/enchive/").
  change (String c "" +:+ base +:+ "/enchive") with (String c base +:+ "/enchive").
  rewrite Hfile. done.
Qed.

Lemma substring_0_1_slash s :
  String.substring 0 1 s = "/" -> exists c rest, s = String c rest.
Proof. destruct s as [| c rest]; [discriminate | by eauto]. Qed.

Lemma substring_0_0 s : String.substring 0 0 s = "".
Proof. by destruct s. Qed.

Lemma substring_0_1_append a b :
  String.substring 0 1 a = "/" -> String.substring 0 1 (a +:+ b) = "/".
Proof.
  intros Ha. destruct (substring_0_1_slash a Ha) as (c & rest & ->).
  rewrite append_cons. rewrite substring_0_cons, substring_0_0 in *. exact Ha.
Qed.

(** X25.  The default key files are two different files of one directory
    "enchive", under [$XDG_CONFIG_HOME] when it is set and under
    [$HOME/.config] when it is not; the loop of [storage_directory] has gone
    through that directory last, after the ones on the way to it. *)
Theorem default_key_files getenv pub :
  default_pubfile getenv = inr pub ->
  exists config,
    config = match getenv "XDG_CONFIG_HOME" with
             | Some xdg_config_home => xdg_config_home
             | None => default "" (getenv "HOME") +:+ "/.config"
             end
    /\ String.substring 0 1 config = "/"
    /\ pub = config +:+ "/enchive/enchive.pub"
    /\ default_secfile getenv = inr (config +:+ "/enchive/enchive.sec")
    /\ pub <> config +:+ "/enchive/enchive.sec"
    /\ storage_directory_dirs pub
       = storage_directory_dirs config ++ [config; config +:+ "/enchive"]
    /\ storage_directory_dirs (config +:+ "/enchive/enchive.sec")
       = storage_directory_dirs config ++ [config; config +:+ "/enchive"].
Proof.
  unfold default_pubfile, default_secfile, storage_directory, joinstr. cbn [foldr].
  assert (Hdirs : forall config file,
            String.substring 0 1 config = "/" ->
            (forall seen, storage_directory_loop seen file = []) ->
            storage_directory_dirs (config +:+ "/enchive/" +:+ file)
            = storage_directory_dirs config ++ [config; config +:+ "/enchive"]).
  { intros config file Habs Hfile.
    destruct (substring_0_1_slash config Habs) as (c & rest & ->).
    by apply storage_directory_dirs_enchive. }
  assert (Hne : forall config,
            config +:+ "/enchive/enchive.pub" <> config +:+ "/enchive/enchive.sec").
  { intros config Heq. by apply (inj (String.app config)) in Heq. }
  destruct (getenv "XDG_CONFIG_HOME") as [xdg |].
  - case_bool_decide as Habs; [discriminate |]. intros [= <-].
    assert (Habs' : String.substring 0 1 xdg = "/")
      by (destruct (decide (String.substring 0 1 xdg = "/")); [done | by destruct Habs]).
    exists xdg. rewrite !append_nil_r.
    repeat split; try done; by apply (Hdirs xdg).
  - destruct (getenv "HOME") as [home |]; [| discriminate].
    case_bool_decide as Habs; [discriminate |]. intros [= <-].
    assert (Habs' : String.substring 0 1 home = "/")
      by (destruct (decide (String.substring 0 1 home = "/")); [done | by destruct Habs]).
    assert (Hj : forall file,
              home +:+ "/.config" +:+ "/enchive/" +:+ file +:+ ""
              = (home +:+ "/.config") +:+ "/enchive/" +:+ file)
      by (intros file; by rewrite append_nil_r, append_assoc).
    rewrite !Hj.
    assert (Hc : String.substring 0 1 (home +:+ "/.config") = "/")
      by (by apply substring_0_1_append).
    exists (home +:+ "/.config"). cbn [default from_option id].
    set (config := home +:+ "/.config") in *.
    repeat split; try done; by apply (Hdirs config).
Qed.

(** ** The layout of an archive and of a protected key file *)

(** The MAC of the source under a 32-byte key, as digests: the key XORed with
    0x5c, then the digest of the key XORed with 0x36 and the message. *)
Lemma hmac_pad32_digests key msg :
  sha256_sized -> length key = 32%nat ->
  hmac_pad32 key msg
  = SHA256 (((fun b => Z.lxor b 0x5c) <$> key)
              ++ SHA256 (((fun b => Z.lxor b 0x36) <$> key) ++ msg)).
Proof.
  intros Hsha Hkey.
  unfold hmac_pad32, hmac_init, hmac_final, sha256_final, sha256_update, sha256_init,
    SHA256_BLOCK_SIZE.
  rewrite (take_ge key), (take_ge msg) by lia.
  rewrite !(take_ge (_ <$> key)) by (rewrite length_fmap; lia).
  by rewrite (take_ge (SHA256 _)) by (by rewrite (proj1 (Hsha _))).
Qed.

(** X26.  An archive is the 8 bytes of the IV derived from the shared secret, the
    32 bytes of the ephemeral public key, the plaintext encrypted under the
    shared secret and the IV, and the 32 bytes of the MAC of the plaintext
    under the shared secret; the shared secret is the one of the clamped
    ephemeral scalar and the public key of the file.  The MAC is the one the
    source computes: the SHA-256 of the shared secret XORed with 0x5c
    followed by the SHA-256 of the shared secret XORed with 0x36 and the
    plaintext, with pads of 32 bytes (HMAC-SHA-256 has pads of 64). *)
Theorem command_archive_layout pubfile w contents :
  sha256_sized -> chacha_sized -> donna_sized -> (0 < CHACHA_BLOCKLENGTH)%nat ->
  files w !! pubfile = Some contents -> (32 <= length contents)%nat ->
  (32 <= length (urandom w))%nat ->
  let esecret := clamp (take 32 (urandom w)) in
  let shared := compute_shared esecret (take 32 contents) in
  let iv := archive_iv shared in
  let ciphertext :=
    chacha_stream (S (length (fd_in w))) (CHACHA_BLOCKLENGTH * 1024)
      (chacha_ivsetup (chacha_keysetup shared 256) iv) (fd_in w) in
  let mac :=
    SHA256 (((fun b => Z.lxor b 0x5c) <$> shared)
              ++ SHA256 (((fun b => Z.lxor b 0x36) <$> shared) ++ fd_in w)) in
  exists w',
    command_archive pubfile w = (Done tt, w')
    /\ fd_out w' = fd_out w ++ iv ++ compute_public esecret ++ ciphertext ++ mac
    /\ length iv = 8%nat /\ length (compute_public esecret) = 32%nat
    /\ length ciphertext = length (fd_in w)
    /\ length mac = 32%nat.
Proof.
  intros Hsha Hsz Hdn HB Hfile Hlen Hent esecret shared iv ciphertext mac.
  assert (Hshared : length shared = 32%nat) by apply Hdn.
  rewrite (command_archive_spec pubfile w contents) by done. cbv zeta.
  fold esecret shared. unfold archive_of. cbv zeta.
  rewrite (hmac_pad32_digests shared (fd_in w)) by done.
  eexists. split; [reflexivity |]. split; [by destruct w |].
  split; [by apply length_archive_iv |]. split; [apply Hdn |].
  split; [| apply Hsha].
  subst ciphertext. rewrite length_chacha_stream by (done || lia). done.
Qed.

(** X27.  A protected secret key file is the 8 bytes of salt drawn for it, the cost
    exponent, the format version, two zero bytes, the first 20 bytes of the
    SHA-256 of the protection key, and the 32 bytes of the secret key
    encrypted under the protection key and the salt: 64 bytes, written over
    the start of the file.  The protection key is derived from the
    passphrase, the non-empty string that the entries [typed0] and [typed1]
    both leave in the buffer of [get_passphrase]. *)
Theorem write_seckey_protected_layout file seckey iexp w typed0 typed1 pass rest :
  sha256_sized -> chacha_sized -> 32 <= ULONG_BITS ->
  0 <= ENCHIVE_FORMAT_VERSION < 256 -> 5 <= iexp <= 31 ->
  length seckey = 32%nat -> tty w = typed0 :: typed1 :: rest ->
  typed_passphrase sizeof_pass typed0 = Some pass ->
  typed_passphrase sizeof_pass typed1 = Some pass -> pass <> [] ->
  (8 <= length (urandom w))%nat ->
  let iv := take 8 (urandom w) in
  let protect := key_derive pass iexp (Some iv) in
  let tag := take 20 (SHA256 protect) in
  let encrypted :=
    (chacha_encrypt_bytes (chacha_ivsetup (chacha_keysetup protect 256) iv) seckey).2 in
  exists w',
    write_seckey file seckey iexp w = (Done tt, w')
    /\ files w' !! file
       = Some (iv ++ [iexp; ENCHIVE_FORMAT_VERSION; 0; 0] ++ tag ++ encrypted
                  ++ drop 64 (default [] (files w !! file)))
    /\ length (iv ++ [iexp; ENCHIVE_FORMAT_VERSION; 0; 0] ++ tag ++ encrypted) = 64%nat
    /\ forall other, other <> file -> files w' !! other = files w !! other.
Proof.
  intros Hsha Hsz Hw Hv Hi Hsec Htty Ht0 Ht1 Hpass Hent iv protect tag encrypted.
  destruct (write_seckey_protected file seckey iexp w typed0 typed1 pass rest)
    as (w' & Hwrite & Hfiles);
    try done.
  cbv zeta in Hfiles. fold iv protect in Hfiles.
  exists w'. split; [done |]. rewrite Hfiles. split; [| split].
  - rewrite lookup_insert_eq. unfold protected_seckey_file.
    by rewrite <- !app_assoc.
  - rewrite !length_app. subst iv tag encrypted.
    rewrite !length_take, Hsz, (proj1 (Hsha _)), Hsec. cbn [length]. lia.
  - intros other Hne. by rewrite lookup_insert_ne.
Qed.

(** ** The scalar of a key file *)

Lemma secure_entropy_Done len w got w' :
  secure_entropy len w = (Done got, w') ->
  got = take len (urandom w) /\ length got = len.
Proof.
  unfold secure_entropy. cbv zeta. case_bool_decide as Hlen; [| discriminate].
  by intros [= <- _].
Qed.

Lemma get_passphrase_Done len prompt w pass w' :
  get_passphrase len prompt w = (Done pass, w') ->
  exists typed, typed_passphrase len typed = Some pass.
Proof.
  unfold get_passphrase, bind, log.
  destruct (tty _) as [| typed rest];
    [destruct (typed_passphrase len []) as [p |] eqn:Ht
    |destruct (typed_passphrase len typed) as [p |] eqn:Ht];
    intros [= <- _]; eauto.
Qed.

(** What a [write_seckey] that ends well leaves at the start of the key file:
    the key in the clear, or the key wrapped under the protection key of a
    passphrase and of the salt drawn. *)
Lemma write_seckey_Done file seckey iexp w w' :
  sha256_sized -> chacha_sized -> 32 <= ULONG_BITS ->
  0 <= ENCHIVE_FORMAT_VERSION < 256 -> length seckey = 32%nat ->
  iexp = 0 \/ 5 <= iexp <= 31 ->
  write_seckey file seckey iexp w = (Done tt, w') ->
  exists tail,
    files w' !! file
    = Some ((repeat 0 8 ++ [0; ENCHIVE_FORMAT_VERSION; 0; 0] ++ repeat 0 20 ++ seckey)
              ++ tail)
    \/ exists typed pass iv,
         typed_passphrase sizeof_pass typed = Some pass
         /\ length iv = 8%nat /\ 5 <= iexp <= 31
         /\ files w' !! file
            = Some (protected_seckey_file iv iexp (key_derive pass iexp (Some iv)) seckey
                      ++ tail).
Proof.
  intros Hsha Hsz Hw Hv Hsec Hi Hrun.
  pose proof (secfile_layout_plain (ENCHIVE_FORMAT_VERSION mod 256) seckey Hsec) as Hplain.
  unfold write_seckey in Hrun.
  set (buf1 := store (repeat 0 (8 + 1 + 3 + 20 + 32)) SECFILE_VERSION
                 [ENCHIVE_FORMAT_VERSION mod 256]) in *.
  apply bind_Done in Hrun as ([[buf protect] iexp'] & w1 & Hfirst & Hwrite).
  assert (Hclear : forall w0,
    write_file file (take (8 + 1 + 3 + 20 + 32) (store buf1 SECFILE_SECKEY (take 32 seckey)))
      w0 = (Done tt, w') ->
    exists tail,
      files w' !! file
      = Some ((repeat 0 8 ++ [0; ENCHIVE_FORMAT_VERSION; 0; 0] ++ repeat 0 20 ++ seckey)
                ++ tail)).
  { intros w0. rewrite (take_ge seckey), Hplain, Z.mod_small by (done || lia).
    unfold write_file. intros [= <-]. destruct w0. wsimpl.
    rewrite lookup_insert_eq. by eexists. }
  destruct (decide (iexp <> 0)) as [Hiexp | Hiexp];
    [rewrite (bool_decide_eq_true_2 _ Hiexp) in Hfirst
    |rewrite (bool_decide_eq_false_2 _ Hiexp) in Hfirst].
  - apply bind_Done in Hfirst as (pass0 & wa & Hp0 & Hfirst).
    destruct (decide (pass0 = [])) as [Hempty | Hempty];
      [rewrite (bool_decide_eq_true_2 _ Hempty) in Hfirst
      |rewrite (bool_decide_eq_false_2 _ Hempty) in Hfirst].
    + injection Hfirst as <- <- <- <-.
      rewrite (bool_decide_eq_false_2 (0 <> 0)) in Hwrite by (by intros []).
      destruct (Hclear _ Hwrite) as [tail Hfile]. exists tail. by left.
    + apply bind_Done in Hfirst as (pass1 & wb & Hp1 & Hfirst).
      destruct (decide (pass0 <> pass1)) as [Hdiff | Hdiff];
        [rewrite (bool_decide_eq_true_2 _ Hdiff) in Hfirst; discriminate
        |rewrite (bool_decide_eq_false_2 _ Hdiff) in Hfirst].
      apply bind_Done in Hfirst as (iv & wc & Hent & Hfirst).
      apply secure_entropy_Done in Hent as [_ Hiv].
      injection Hfirst as <- <- <- <-.
      set (protect := key_derive pass0 iexp (Some iv)).
      assert (Hprot : length protect = 32%nat).
      { apply (key_derive_kdf_from_seed pass0 iexp (Some iv)); try done; [lia |].
        intros s [= <-]. lia. }
      destruct (secfile_layout iv (iexp mod 256) (ENCHIVE_FORMAT_VERSION mod 256)
                  (SHA256 protect)
                  (chacha_encrypt_bytes
                     (chacha_ivsetup (chacha_keysetup protect 256) iv) seckey).2)
        as (Hsalt & Hsalt' & Hbuf); [done | apply Hsha | by rewrite Hsz |].
      cbv zeta in Hsalt, Hsalt', Hbuf. fold buf1 in Hsalt, Hsalt', Hbuf.
      rewrite (bool_decide_eq_true_2 (iexp <> 0)) in Hwrite by done.
      rewrite (key_derive_salt_take _ _ (at_offset _ _)), Hsalt in Hwrite.
      fold protect in Hwrite.
      unfold sha256_final, sha256_update, sha256_init in Hwrite.
      rewrite app_nil_l, (take_ge protect), (take_ge seckey) in Hwrite by lia.
      rewrite Hsalt', Hbuf in Hwrite.
      rewrite !Z.mod_small in Hwrite by lia.
      unfold write_file in Hwrite. injection Hwrite as <-.
      apply get_passphrase_Done in Hp0 as [typed Ht].
      destruct wc. wsimpl.
      eexists. right. exists typed, pass0, iv. split; [done |]. split; [done |].
      split; [lia |].
      rewrite lookup_insert_eq.
      unfold protected_seckey_file. fold protect.
      rewrite <- !app_assoc. cbn [app]. rewrite <- ?app_assoc. reflexivity.
  - injection Hfirst as <- <- <- <-.
    rewrite (bool_decide_eq_false_2 (iexp <> 0)) in Hwrite by done.
    destruct (Hclear _ Hwrite) as [tail Hfile]. exists tail. by left.
Qed.

(** A key file that starts as [write_seckey] leaves it gives the key back:
    at once when the key is in the clear, and to the entry of the passphrase
    it was wrapped under when it is not. *)
Lemma load_seckey_written file seckey iexp contents tail :
  sha256_sized -> chacha_sized -> chacha_lockstep -> 32 <= ULONG_BITS ->
  length seckey = 32%nat ->
  contents
  = (repeat 0 8 ++ [0; ENCHIVE_FORMAT_VERSION; 0; 0] ++ repeat 0 20 ++ seckey) ++ tail
  \/ (exists typed pass iv,
        typed_passphrase sizeof_pass typed = Some pass
        /\ length iv = 8%nat /\ 5 <= iexp <= 31
        /\ contents
           = protected_seckey_file iv iexp (key_derive pass iexp (Some iv)) seckey
               ++ tail) ->
  exists typed,
    forall w rest,
      files w !! file = Some contents -> agent_socket w = None ->
      tty w = typed :: rest ->
      exists w', load_seckey file w = (Done seckey, w').
Proof.
  intros Hsha Hsz Hlock Hw Hsec [-> | (typed & pass & iv & Ht & Hiv & Hi & ->)].
  - exists []. intros w rest Hfile _ _. exists w.
    apply (load_seckey_plain file w (repeat 0 8) 0 0 (repeat 0 20) seckey tail);
      first [done | by rewrite Hfile, <- !app_assoc].
  - exists typed. intros w rest Hfile Hagent Htty.
    set (protect := key_derive pass iexp (Some iv)) in *.
    assert (Hkd : length protect = 32%nat).
    { apply (key_derive_kdf_from_seed pass iexp (Some iv)); try done.
      intros x [= <-]. lia. }
    unfold protected_seckey_file in Hfile. rewrite <- !app_assoc in Hfile.
    destruct (load_seckey_protected file w iv iexp (take 20 (SHA256 protect))
                (chacha_encrypt_bytes (chacha_ivsetup (chacha_keysetup protect 256) iv)
                   seckey).2
                tail typed pass rest Hiv
                ltac:(rewrite length_take, (proj1 (Hsha _)); lia)
                ltac:(by rewrite Hsz) ltac:(lia) Hfile
                ltac:(unfold agent_declined; by rewrite Hagent) Htty Ht)
      as (w' & Hload).
    cbv zeta in Hload. fold protect in Hload.
    rewrite (take_ge protect) in Hload by lia.
    rewrite bool_decide_eq_true_2 in Hload by done.
    rewrite Hlock in Hload. by exists w'.
Qed.

(** C8.  When [command_keygen] ends well, the secret key file it leaves holds
    a scalar [s]: in every world with that file and no agent, [load_seckey]
    returns [s], at once when the key is stored in the clear and on the entry
    [typed] of its passphrase when it is wrapped; the public key file holds
    the public key of [s].  On the entropy path and on the derivation path
    [s] is clamped, so that clamping it again changes nothing; on the edit
    path [s] is the scalar [load_seckey] gave from the key file before the
    run, written back as it was.  Clamping is idempotent on every input. *)
Theorem command_keygen_writes_clamped o w w' :
  sha256_sized -> chacha_sized -> chacha_lockstep -> donna_sized ->
  32 <= ULONG_BITS -> 0 <= ENCHIVE_FORMAT_VERSION < 256 ->
  5 <= kg_seckey_derive_iterations o <= 31 ->
  5 <= kg_key_derive_iterations o <= 31 ->
  kg_pubfile o <> kg_secfile o ->
  command_keygen o w = (Done tt, w') ->
  (exists s typed,
     length s = 32%nat
     /\ (forall w2 rest,
          files w2 !! kg_secfile o = files w' !! kg_secfile o ->
          agent_socket w2 = None -> tty w2 = typed :: rest ->
          exists w3, load_seckey (kg_secfile o) w2 = (Done s, w3))
     /\ load_pubkey (kg_pubfile o) w' = (Done (compute_public s), w')
     /\ (if kg_edit o
         then exists w1, load_seckey (kg_secfile o) w = (Done s, w1)
         else clamped s /\ clamp s = s))
  /\ (forall e, clamp (clamp e) = clamp e).
Proof.
  intros Hsha Hsz Hlock Hdn Hw Hv Hit Hkit Hdiff Hrun.
  split; [| apply clamp_idempotent].
  apply command_keygen_Done in Hrun as (s & w1 & w3 & Hsecret & Hwrite & Hpub).
  pose proof (command_keygen_secret_spec _ _ _ _ _ Hsha Hw Hit Hsecret) as Hspec.
  assert (Hlen : length s = 32%nat).
  { destruct (kg_edit o) eqn:Hedit.
    - by apply (length_load_seckey _ _ _ _ Hsz Hspec).
    - by apply (command_keygen_secret_length _ _ _ _ _ Hsha Hw Hit Hedit Hsecret). }
  set (iexp := if kg_protect o then kg_key_derive_iterations o else 0) in *.
  assert (Hiexp : iexp = 0 \/ 5 <= iexp <= 31)
    by (subst iexp; destruct (kg_protect o); [by right | by left]).
  destruct (write_seckey_Done _ _ _ _ _ Hsha Hsz Hw Hv Hlen Hiexp Hwrite)
    as [tail Hfile].
  destruct (load_write_pubkey _ _ _ _ (kg_secfile o) (length_compute_public s Hdn) Hpub)
    as (Hloadpub & Hother).
  assert (Hcontents : exists contents,
            files w' !! kg_secfile o = Some contents
            /\ (contents
                = (repeat 0 8 ++ [0; ENCHIVE_FORMAT_VERSION; 0; 0] ++ repeat 0 20 ++ s)
                    ++ tail
                \/ exists typed pass iv,
                     typed_passphrase sizeof_pass typed = Some pass
                     /\ length iv = 8%nat /\ 5 <= iexp <= 31
                     /\ contents
                        = protected_seckey_file iv iexp
                            (key_derive pass iexp (Some iv)) s ++ tail)).
  { rewrite Hother by done.
    destruct Hfile as [Hfile | (typed & pass & iv & Ht & Hiv & Hi & Hfile)];
      eexists; (split; [exact Hfile |]); [by left | right; by exists typed, pass, iv]. }
  destruct Hcontents as (contents & Hheld & Hlayout).
  destruct (load_seckey_written (kg_secfile o) s iexp contents tail Hsha Hsz Hlock Hw
              Hlen Hlayout) as [typed Hload].
  exists s, typed. split; [done |]. split; [| split; [done |]].
  - intros w2 rest Hsame. apply Hload. by rewrite Hsame.
  - destruct (kg_edit o); [by exists w1 | done].
Qed.

End CommandLineProperties.

(** * The small instance: its laws, and the theorems at concrete inputs *)

Lemma toy_sha256_sized : @sha256_sized toy.
Proof.
  intros m. change (@SHA256 toy m) with (toy_sha256 m). unfold toy_sha256.
  cbv zeta. split.
  - by rewrite length_fmap, length_seq.
  - apply Forall_fmap, Forall_forall. intros i _. unfold is_u8. cbn beta.
    apply Z.mod_pos_bound. lia.
Qed.

Lemma toy_chacha_sized : @chacha_sized toy.
Proof.
  intros c m. change (@chacha_encrypt_bytes toy) with toy_encrypt_bytes.
  unfold toy_encrypt_bytes. cbn [snd]. by rewrite length_fmap.
Qed.

Lemma toy_chacha_lockstep : @chacha_lockstep toy.
Proof.
  intros c m. change (@chacha_encrypt_bytes toy) with toy_encrypt_bytes.
  unfold toy_encrypt_bytes. cbn [fst snd].
  rewrite length_fmap. f_equal.
  rewrite <- list_fmap_compose. rewrite <- (list_fmap_id m) at 2.
  apply list_fmap_ext. intros i x _. simpl.
  by rewrite <- Z.lxor_assoc, Z.lxor_nilpotent, Z.lxor_0_l.
Qed.

Lemma toy_donna_sized : @donna_sized toy.
Proof.
  intros s b. change (@curve25519_donna toy) with toy_donna. unfold toy_donna.
  rewrite length_fmap, length_take, length_app, repeat_length. lia.
Qed.

Lemma toy_donna_agree : @donna_agree toy.
Proof.
  intros a b Ha Hb. change (@curve25519_donna toy) with toy_donna.
  unfold toy_donna.
  rewrite !(take_app_length' (_ <$> _) (repeat 0 32))
    by (by rewrite length_fmap, length_take, length_app, repeat_length).
  rewrite <- !list_fmap_compose. apply list_fmap_ext. intros i x _. simpl.
  rewrite !Zplus_mod_idemp_l. f_equal. lia.
Qed.

Section Instances.
#[local] Existing Instance toy.

(** The model runs: the archive of "hi" is 74 bytes long and extracts to
    "hi"; the key derivation of a passphrase ends at an unaligned pointer. *)
Example toy_archive_extracts :
  length toy_archive = 74%nat
  /\ (command_extract "sec" (toy_extract_world 3 toy_archive)).1 = Done tt
  /\ fd_out (command_extract "sec" (toy_extract_world 3 toy_archive)).2 = [104; 105].
Proof. repeat split; vm_compute; reflexivity. Qed.

Example toy_key_derive :
  key_derive toy_passphrase 5 (Some toy_salt)
  = [36; 61; 86; 111; 137; 162; 187; 212; 238; 7; 32; 57; 83; 108; 133; 158; 184;
     209; 234; 3; 29; 54; 79; 104; 130; 155; 180; 165; 191; 216; 241; 10].
Proof. vm_compute. reflexivity. Qed.

Example parse_command_keygen : parse_command "keygen" = OutOfBounds 4.
Proof. reflexivity. Qed.

(** What is typed and the passphrase it leaves: a line with its line feed,
    or with a carriage return; the Enter key alone; a line that starts with
    a NUL; two lines that differ after a NUL; a line that fills the buffer. *)
Example toy_typed_passphrases :
  typed_passphrase sizeof_pass toy_typed = Some toy_passphrase
  /\ typed_passphrase sizeof_pass (toy_passphrase ++ [13; 10]) = Some toy_passphrase
  /\ typed_passphrase sizeof_pass [10] = Some []
  /\ typed_passphrase sizeof_pass [0; 97] = Some []
  /\ typed_passphrase sizeof_pass [97; 0; 98] = Some [97]
  /\ typed_passphrase sizeof_pass [97; 0; 99] = Some [97]
  /\ typed_passphrase sizeof_pass (repeat 97 (Pos.to_nat ENCHIVE_PASSPHRASE_MAX)) = None.
Proof. repeat split; vm_compute; reflexivity. Qed.

(** A passphrase typed with a NUL in front is the empty one: the key is
    stored in the clear, with the iterations byte 0. *)
Example toy_nul_passphrase :
  (write_seckey "sec" toy_sec 5 (toy_load_world ∅ [0; 97])).1 = Done tt
  /\ take 9 <$> files (write_seckey "sec" toy_sec 5 (toy_load_world ∅ [0; 97])).2 !! "sec"
     = Some (repeat 0 9).
Proof. split; vm_compute; reflexivity. Qed.

(** The derivation of section 4.2 from the HMAC-SHA-256 seed gives, in the
    instance, another key than [key_derive]. *)
Example toy_kdf_spec :
  kdf_spec toy_passphrase 5 (toy_salt ++ repeat 0 24)
  = [165; 77; 244; 156; 67; 251; 162; 74; 241; 153; 64; 232; 143; 55; 222; 134; 45;
     213; 124; 36; 203; 115; 26; 194; 105; 17; 184; 96; 7; 175; 86; 254].
Proof. vm_compute. reflexivity. Qed.

(** C1 at the archive of "hi". *)
Lemma archive_extract_roundtrip_witness :
  exists archive wa',
    command_archive "pub" (toy_archive_world [104; 105]) = (Done tt, wa')
    /\ fd_out wa' = fd_out (toy_archive_world [104; 105]) ++ archive
    /\ (fd_in (toy_extract_world 3 toy_archive) = archive ->
        exists we',
          command_extract "sec" (toy_extract_world 3 toy_archive) = (Done tt, we')
          /\ fd_out we'
             = fd_out (toy_extract_world 3 toy_archive)
               ++ fd_in (toy_archive_world [104; 105])).
Proof.
  apply (archive_extract_roundtrip "pub" "sec" toy_sec (toy_archive_world [104; 105])
           (toy_extract_world 3 toy_archive) (toy_extract_world 3 toy_archive)
           toy_sha256_sized toy_chacha_sized toy_chacha_lockstep toy_donna_sized
           toy_donna_agree);
    [simpl; lia | reflexivity | by vm_compute | simpl; lia | by vm_compute].
Defined.

(** C2 at the passphrase "password", exponent 5 and salt 00..07. *)
Lemma key_derive_seed_is_short_pad_mac_witness :
  key_derive toy_passphrase 5 (Some toy_salt)
  = kdf_from_seed
      (SHA256 (((fun b => Z.lxor b 0x5c) <$> (toy_salt ++ repeat 0 24))
                 ++ SHA256 (((fun b => Z.lxor b 0x36) <$> (toy_salt ++ repeat 0 24))
                              ++ toy_passphrase))) 5.
Proof.
  exact (proj1 (key_derive_seed_is_short_pad_mac toy_passphrase 5 toy_salt
                  toy_sha256_sized ltac:(simpl; lia) ltac:(lia) eq_refl)).
Defined.

(** C3 at the same passphrase and salt. *)
Lemma hmac_pads_span_32_bytes_witness :
  sha256_update (hmac_init (toy_salt ++ repeat 0 24)) toy_passphrase
    (strlen toy_passphrase)
  = ((fun b => Z.lxor b 0x36) <$> (toy_salt ++ repeat 0 24)) ++ toy_passphrase.
Proof.
  exact (proj1 (hmac_pads_span_32_bytes toy_salt toy_passphrase eq_refl)).
Defined.

(** C4 at a key written under "password" with exponent 5. *)
Lemma seckey_roundtrip_witness :
  exists w1,
    write_seckey "sec" toy_sec 5 toy_keygen_world = (Done tt, w1)
    /\ exists w3,
         load_seckey "sec" (toy_load_world (files w1) toy_typed)
         = (Done toy_sec, w3).
Proof.
  destruct (seckey_roundtrip "sec" toy_sec 5 toy_typed toy_typed toy_passphrase []
              toy_keygen_world toy_sha256_sized toy_chacha_sized toy_chacha_lockstep)
    as (w1 & Hwrite & Hload);
    [simpl; lia | simpl; lia | lia | reflexivity | reflexivity | by vm_compute
    | by vm_compute | discriminate | simpl; lia |].
  exists w1. split; [exact Hwrite |].
  destruct (Hload (toy_load_world (files w1) toy_typed) toy_typed toy_passphrase [])
    as [Hsame _]; [reflexivity | exact I | reflexivity | by vm_compute |].
  exact (Hsame eq_refl).
Defined.

(** C5 at a header of 40 zero bytes. *)
Lemma command_extract_rejects_wrong_recipient_witness :
  exists w',
    command_extract "sec" (toy_extract_world 3 (repeat 0 40))
    = (Fatal ErrInvalidMasterKey, w')
    /\ fd_out w' = fd_out (toy_extract_world 3 (repeat 0 40))
    /\ fd_in w' = drop 40 (fd_in (toy_extract_world 3 (repeat 0 40))).
Proof.
  apply (command_extract_rejects_wrong_recipient "sec"
           (toy_extract_world 3 (repeat 0 40)) toy_sec
           (toy_extract_world 3 (repeat 0 40)));
    [by vm_compute | simpl; lia | intros Heq; vm_compute in Heq; discriminate Heq].
Defined.

(** C6, as stated, fails: an input of 40 bytes, shorter than 72, whose IV is
    not the one of the key is refused with the invalid-master-key error, not
    as too short. *)
Lemma short_archive_reported_as_wrong_key :
  length (fd_in (toy_extract_world 3 (repeat 0 40))) = 40%nat
  /\ (command_extract "sec" (toy_extract_world 3 (repeat 0 40))).1
     = Fatal ErrInvalidMasterKey.
Proof. split; vm_compute; reflexivity. Qed.

(** C6, as amended, at the archive of the empty plaintext. *)
Lemma empty_archive_and_short_inputs_witness :
  (exists archive wa',
     command_archive "pub" (toy_archive_world []) = (Done tt, wa')
     /\ fd_out wa' = fd_out (toy_archive_world []) ++ archive
     /\ length archive = 72%nat
     /\ (fd_in (toy_extract_world 3 toy_empty_archive) = archive ->
         exists we',
           command_extract "sec" (toy_extract_world 3 toy_empty_archive)
           = (Done tt, we')
           /\ fd_out we' = fd_out (toy_extract_world 3 toy_empty_archive)))
  /\ ((length (fd_in (toy_extract_world 3 toy_empty_archive)) < 72)%nat ->
      exists we',
        command_extract "sec" (toy_extract_world 3 toy_empty_archive)
        = (Fatal (short_archive_error toy_sec
                    (fd_in (toy_extract_world 3 toy_empty_archive))), we')
        /\ fd_out we' = fd_out (toy_extract_world 3 toy_empty_archive)).
Proof.
  apply (empty_archive_and_short_inputs "pub" "sec" toy_sec (toy_archive_world [])
           (toy_extract_world 3 toy_empty_archive)
           (toy_extract_world 3 toy_empty_archive)
           toy_sha256_sized toy_chacha_sized toy_chacha_lockstep toy_donna_sized
           toy_donna_agree);
    [simpl; lia | reflexivity | by vm_compute | simpl; lia | reflexivity
    | by vm_compute].
Defined.

(** C7 at a key file of version 2. *)
Lemma load_seckey_checks_version_first_witness :
  load_seckey "sec" (toy_extract_world 2 [])
  = (Fatal (ErrVersionMismatch 3 2), toy_extract_world 2 []).
Proof.
  exact (proj1 (load_seckey_checks_version_first "sec" (toy_extract_world 2 [])
                  (toy_plain_secfile 2) ltac:(by vm_compute) ltac:(simpl; lia)
                  ltac:(by vm_compute))).
Defined.

(** C8 at a key generated from entropy and stored under "password". *)
Lemma command_keygen_writes_clamped_witness :
  exists s,
    length s = 32%nat
    /\ load_pubkey "pub" (command_keygen toy_keygen_options toy_keygen_world).2
       = (Done (compute_public s), (command_keygen toy_keygen_options toy_keygen_world).2)
    /\ clamped s /\ clamp s = s.
Proof.
  destruct (command_keygen_writes_clamped toy_keygen_options toy_keygen_world
              (command_keygen toy_keygen_options toy_keygen_world).2
              toy_sha256_sized toy_chacha_sized toy_chacha_lockstep toy_donna_sized)
    as [(s & typed & Hlen & _ & Hpub & Hclamped) _];
    [simpl; lia | simpl; lia | simpl; lia | simpl; lia | discriminate | by vm_compute |].
  exists s. split; [exact Hlen |]. split; [exact Hpub |]. exact Hclamped.
Defined.

(** The archive of "hi" has 74 bytes. *)
Lemma command_archive_size_witness :
  exists w',
    command_archive "pub" (toy_archive_world [104; 105]) = (Done tt, w')
    /\ length (fd_out w') = 74%nat
    /\ take 32 (drop 8 (fd_out w'))
       = compute_public (clamp (take 32 (urandom (toy_archive_world [104; 105]))))
    /\ fd_in w' = [] /\ urandom w' = drop 32 (urandom (toy_archive_world [104; 105]))
    /\ files w' = files (toy_archive_world [104; 105])
    /\ trace w' = [].
Proof.
  apply (command_archive_size "pub" (toy_archive_world [104; 105])
           (compute_public toy_sec) toy_sha256_sized toy_chacha_sized toy_donna_sized);
    [simpl; lia | reflexivity | by vm_compute | simpl; lia].
Defined.


(** The archive of "hi" with zeros for its MAC. *)
Lemma command_extract_writes_before_checksum_witness :
  exists w',
    command_extract "sec" (toy_extract_world 3 toy_tampered_archive)
    = (Fatal ErrChecksumMismatch, w')
    /\ fd_out w' = fd_out (toy_extract_world 3 toy_tampered_archive) ++ [104; 105]
    /\ fd_in w' = [].
Proof.
  apply (command_extract_writes_before_checksum "sec"
           (toy_extract_world 3 toy_tampered_archive) toy_sec
           (toy_extract_world 3 toy_tampered_archive)
           (take 32 (drop 8 toy_archive)) [104; 105] (repeat 0 32)
           toy_sha256_sized toy_chacha_sized toy_chacha_lockstep toy_donna_sized);
    [simpl; lia | by vm_compute | by vm_compute | reflexivity | by vm_compute
    | intros Heq; vm_compute in Heq; discriminate Heq].
Defined.

(** A key written without a cost exponent. *)
Lemma write_seckey_unprotected_witness :
  exists w',
    write_seckey "sec" toy_sec 0 toy_keygen_world = (Done tt, w')
    /\ files w'
       = <["sec" := (repeat 0 8 ++ [0; ENCHIVE_FORMAT_VERSION; 0; 0] ++ repeat 0 20
                       ++ toy_sec)
                    ++ drop 64 (default [] (files toy_keygen_world !! "sec"))]>
           (files toy_keygen_world)
    /\ urandom w' = urandom toy_keygen_world
    /\ load_seckey "sec" w' = (Done toy_sec, w').
Proof.
  apply (write_seckey_unprotected "sec" toy_sec 0 toy_keygen_world);
    [simpl; lia | reflexivity | by left].
Defined.

(** "password", then "x". *)
Lemma write_seckey_passphrase_mismatch_witness :
  exists w',
    write_seckey "sec" toy_sec 5 toy_mismatch_world
    = (Fatal ErrPassphrasesDontMatch, w')
    /\ files w' = files toy_mismatch_world
    /\ urandom w' = urandom toy_mismatch_world /\ tty w' = [].
Proof.
  apply (write_seckey_passphrase_mismatch "sec" toy_sec 5 toy_mismatch_world
           toy_typed [120; 10] toy_passphrase [120] []);
    [lia | reflexivity | by vm_compute | by vm_compute | discriminate | discriminate].
Defined.

(** An agent that sends the protection key. *)
Lemma load_seckey_agent_key_witness :
  exists w',
    load_seckey "sec" (toy_agent_world (Some toy_protect) 0) = (Done toy_sec, w')
    /\ trace w' = trace (toy_agent_world (Some toy_protect) 0) ++ [EvAgentRead toy_salt]
    /\ tty w' = tty (toy_agent_world (Some toy_protect) 0).
Proof.
  apply (load_seckey_agent_key "sec" (toy_agent_world (Some toy_protect) 0) toy_salt 5
           toy_protect toy_sec [] toy_protect
           toy_sha256_sized toy_chacha_sized toy_chacha_lockstep);
    [reflexivity | by vm_compute | reflexivity | lia | by vm_compute | reflexivity
    | by vm_compute].
Defined.

(** No agent, a timeout of 10 seconds. *)
Lemma load_seckey_starts_agent_witness :
  exists w',
    load_seckey "sec" (toy_agent_world None 10) = (Done toy_sec, w')
    /\ trace w'
       = trace (toy_agent_world None 10)
           ++ [EvAgentRead toy_salt; EvPrompt "passphrase: "]
           ++ (if bool_decide (global_agent_timeout (toy_agent_world None 10) = 0)
               then []
               else [EvAgentRun (key_derive toy_passphrase 5 (Some toy_salt)) toy_salt])
    /\ tty w' = [].
Proof.
  apply (load_seckey_starts_agent "sec" (toy_agent_world None 10) toy_salt 5 toy_sec []
           toy_typed toy_passphrase [] toy_sha256_sized toy_chacha_sized
           toy_chacha_lockstep);
    [simpl; lia | lia | reflexivity | reflexivity | by vm_compute | exact I
    | reflexivity | by vm_compute].
Defined.

(** A key file is in the way. *)
Lemma command_keygen_refuses_to_clobber_witness :
  exists file,
    command_keygen toy_keygen_options (toy_extract_world 3 [])
    = (Fatal (ErrClobber file), toy_extract_world 3 [])
    /\ is_Some (files (toy_extract_world 3 []) !! file)
    /\ (file = "pub" \/ file = "sec").
Proof.
  apply (command_keygen_refuses_to_clobber toy_keygen_options (toy_extract_world 3 []));
    [reflexivity | reflexivity | right; exists (toy_plain_secfile 3); by vm_compute].
Defined.

(** A key pair generated from entropy, without protection. *)
Lemma command_keygen_plain_pair_witness :
  exists s,
    length s = 32%nat /\ clamped s
    /\ load_seckey "sec" (command_keygen (toy_plain_options false) toy_keygen_world).2
       = (Done s, (command_keygen (toy_plain_options false) toy_keygen_world).2)
    /\ load_pubkey "pub" (command_keygen (toy_plain_options false) toy_keygen_world).2
       = (Done (compute_public s),
          (command_keygen (toy_plain_options false) toy_keygen_world).2).
Proof.
  apply (command_keygen_plain_pair (toy_plain_options false) toy_keygen_world
           (command_keygen (toy_plain_options false) toy_keygen_world).2
           toy_sha256_sized toy_donna_sized);
    [simpl; lia | simpl; lia | simpl; lia | reflexivity | reflexivity | discriminate
    | by vm_compute].
Defined.

(** A key pair generated from entropy, under "password". *)
Lemma command_keygen_protected_pair_witness :
  exists w',
    command_keygen toy_keygen_options toy_keygen_world = (Done tt, w')
    /\ load_pubkey "pub" w'
       = (Done (compute_public (clamp (take 32 (urandom toy_keygen_world)))), w')
    /\ forall w2 typed2 rest',
         files w2 !! "sec" = files w' !! "sec" ->
         agent_socket w2 = None -> tty w2 = typed2 :: rest' ->
         typed_passphrase sizeof_pass typed2 = Some toy_passphrase ->
         exists w3,
           load_seckey "sec" w2
           = (Done (clamp (take 32 (urandom toy_keygen_world))), w3).
Proof.
  apply (command_keygen_protected_pair toy_keygen_options toy_keygen_world
           toy_typed toy_typed toy_passphrase [] toy_sha256_sized toy_chacha_sized
           toy_chacha_lockstep toy_donna_sized);
    [simpl; lia | simpl; lia | simpl; lia | reflexivity | reflexivity | reflexivity
    | discriminate | right; by vm_compute | simpl; lia | reflexivity | by vm_compute
    | by vm_compute | discriminate].
Defined.

(** The buffer of the derivation of "password" under exponent 5, after one
    round of each loop. *)
Lemma key_derive_stays_in_buffer_witness :
  let memlen := 2 ^ 5 in
  let salt32 := store (repeat 0 SHA256_BLOCK_SIZE) 0 (take 8 toy_salt) in
  let seed := hmac_final (sha256_update (hmac_init salt32) toy_passphrase
                            (strlen toy_passphrase)) salt32 in
  let memory := store (repeat 0 (Z.to_nat (memlen + 32))) 0 seed in
  let fill fuel := key_derive_fill fuel memlen memory 32 in
  let mix rounds :=
    key_derive_mix rounds (memlen - 1) (fill (Z.to_nat (memlen / 32) + 1)%nat).1
      (memlen - 32) in
  (length (fill 1%nat).1 = Z.to_nat (memlen + 32)
   /\ 32 <= (fill 1%nat).2 <= memlen + 32)
  /\ (length (mix 1%nat).1 = Z.to_nat (memlen + 32)
      /\ 0 <= (mix 1%nat).2 /\ (mix 1%nat).2 + 32 < memlen + 32)
  /\ key_derive toy_passphrase 5 (Some toy_salt)
     = load (mix (Z.to_nat (2 ^ (5 - 5)))).1 (mix (Z.to_nat (2 ^ (5 - 5)))).2 32.
Proof.
  apply (key_derive_stays_in_buffer toy_passphrase 5 (Some toy_salt) 1 1
           toy_sha256_sized); [simpl; lia | lia].
Defined.

(** The fingerprint of the public key of the instance. *)
Lemma print_fingerprint_text_hex_witness :
  String.length (print_fingerprint_text (compute_public toy_sec)) = 35%nat.
Proof.
  exact (proj1 (proj2 (print_fingerprint_text_hex (compute_public toy_sec)
                         toy_sha256_sized ltac:(simpl; lia)))).
Defined.

(** The agent of the IV 00..07 without a runtime directory. *)
Lemma agent_addr_fits_witness :
  (String.length "/tmp/0001020304050607" + 1 <= 108)%nat
  /\ "/tmp/0001020304050607" = "/tmp" +:+ "/" +:+ hex_bytes toy_salt
  /\ forall iv',
       length iv' = 8%nat -> Forall is_u8 iv' ->
       agent_addr (fun _ => None) 108 iv' = Some "/tmp/0001020304050607" ->
       iv' = toy_salt.
Proof.
  apply (agent_addr_fits (fun _ => None) 108 toy_salt "/tmp/0001020304050607");
    [reflexivity | repeat constructor; unfold is_u8; lia | by vm_compute].
Defined.

(** The key id of a key pair generated with [--fingerprint]. *)
Lemma command_keygen_fingerprint_agrees_witness :
  exists id before after,
    trace (command_keygen (toy_plain_options true) toy_keygen_world).2
    = trace toy_keygen_world ++ before ++ EvFingerprint id :: after
    /\ command_fingerprint "pub"
         (command_keygen (toy_plain_options true) toy_keygen_world).2
       = log (EvFingerprint id)
           (command_keygen (toy_plain_options true) toy_keygen_world).2.
Proof.
  apply (command_keygen_fingerprint_agrees (toy_plain_options true) toy_keygen_world
           (command_keygen (toy_plain_options true) toy_keygen_world).2
           toy_donna_sized); [reflexivity | by vm_compute].
Defined.

(** "password" and a line feed, in a buffer of 16 bytes. *)
Lemma get_passphrase_buf_line_witness :
  exists buf',
    get_passphrase_buf (repeat 0 16) (toy_passphrase ++ [10]) = Buffer buf'
    /\ length buf' = length (repeat 0 16) /\ cstring buf' = toy_passphrase.
Proof.
  apply (get_passphrase_buf_line (repeat 0 16) toy_passphrase [10]);
    [simpl; lia | repeat constructor; lia | by right; left].
Defined.

(** "password" in a buffer of 8 bytes. *)
Lemma get_passphrase_buf_full_witness :
  get_passphrase_buf (repeat 0 8) toy_passphrase = WriteOutOfBounds 8.
Proof.
  apply (get_passphrase_buf_full (repeat 0 8) toy_passphrase); simpl; lia.
Defined.

(** The extraction of 40 zero bytes to a file that exists. *)
Lemma command_extract_files_failure_removes_output_witness :
  files (command_extract_files "sec" (FileOptions false (Some "b.enchive") None)
           toy_files_world).2 !! "b" = None
  /\ forall name,
       name <> "b" ->
       files (command_extract_files "sec" (FileOptions false (Some "b.enchive") None)
                toy_files_world).2 !! name
       = files toy_files_world !! name.
Proof.
  apply (command_extract_files_failure_removes_output "sec"
           (FileOptions false (Some "b.enchive") None) toy_files_world
           ErrInvalidMasterKey
           (command_extract_files "sec" (FileOptions false (Some "b.enchive") None)
              toy_files_world).2 toy_sec toy_files_world "b");
    [by vm_compute | by vm_compute | by vm_compute].
Defined.

(** The file "a", archived and extracted, the archive deleted. *)
Lemma archive_extract_files_roundtrip_witness :
  exists w1 w2 archive,
    command_archive_files "pub" (FileOptions false (Some "a") None) toy_files_world
    = (ExitSuccess, w1)
    /\ files w1 !! ("a" +:+ ".enchive") = Some archive
    /\ length archive = (72 + length [104; 105])%nat
    /\ files w1 !! "a" = Some [104; 105]
    /\ command_extract_files "sec" (FileOptions true (Some ("a" +:+ ".enchive")) None) w1
       = (ExitSuccess, w2)
    /\ files w2 !! "a" = Some [104; 105]
    /\ files w2 !! ("a" +:+ ".enchive") = None.
Proof.
  apply (archive_extract_files_roundtrip "pub" "sec" "a" toy_sec [104; 105] false true
           toy_files_world (repeat 0 8) 0 0 (repeat 0 20) []
           toy_sha256_sized toy_chacha_sized toy_chacha_lockstep toy_donna_sized
           toy_donna_agree);
    [simpl; lia | by vm_compute | reflexivity | reflexivity | by vm_compute
    | by vm_compute | by vm_compute | by vm_compute | discriminate | discriminate
    | simpl; lia].
Defined.

(** The protection taken off the key of the instance. *)
Lemma command_keygen_edit_keeps_key_witness :
  exists s w1,
    load_seckey "sec" (toy_extract_world 3 []) = (Done s, w1)
    /\ load_seckey "sec" (command_keygen toy_edit_options (toy_extract_world 3 [])).2
       = (Done s, (command_keygen toy_edit_options (toy_extract_world 3 [])).2)
    /\ load_pubkey "pub" (command_keygen toy_edit_options (toy_extract_world 3 [])).2
       = (Done (compute_public s),
          (command_keygen toy_edit_options (toy_extract_world 3 [])).2).
Proof.
  apply (command_keygen_edit_keeps_key toy_edit_options (toy_extract_world 3 [])
           (command_keygen toy_edit_options (toy_extract_world 3 [])).2
           toy_chacha_sized toy_donna_sized);
    [simpl; lia | reflexivity | reflexivity | discriminate | by vm_compute].
Defined.

(** A key pair derived from "password". *)
Lemma command_keygen_derive_is_reproducible_witness :
  exists w',
    command_keygen toy_derive_options toy_keygen_world = (Done tt, w')
    /\ urandom w' = urandom toy_keygen_world
    /\ load_seckey "sec" w' = (Done (clamp (key_derive toy_passphrase 5 None)), w')
    /\ load_pubkey "pub" w'
       = (Done (compute_public (clamp (key_derive toy_passphrase 5 None))), w').
Proof.
  apply (command_keygen_derive_is_reproducible toy_derive_options toy_keygen_world
           toy_typed toy_typed toy_passphrase [] toy_sha256_sized toy_donna_sized);
    [simpl; lia | simpl; lia | simpl; lia | reflexivity | reflexivity | reflexivity
    | discriminate | right; by vm_compute | reflexivity | by vm_compute
    | by vm_compute].
Defined.

(** The archive of "hi", of version 3, under a program of version 4. *)
Lemma command_extract_refuses_other_version_witness :
  exists w',
    @command_extract (with_version 4) "sec" (toy_extract_world 4 toy_archive)
    = (Fatal ErrInvalidMasterKey, w')
    /\ fd_out w' = fd_out (toy_extract_world 4 toy_archive).
Proof.
  apply (command_extract_refuses_other_version 4 "sec" (toy_extract_world 4 toy_archive)
           toy_sec (toy_extract_world 4 toy_archive) (take 32 (drop 8 toy_archive))
           [104; 105] toy_sha256_sized);
    [intros Heq; vm_compute in Heq; discriminate Heq | by vm_compute | by vm_compute
    | by vm_compute].
Defined.

(** Five bytes read in pieces of 1, 2 and 1 bytes. *)
Lemma full_read_loop_gathers_pieces_witness :
  full_read_loop [1; 2; 1; 5]%nat [1; 2; 3; 4; 5] [] 0 4 = ([1; 2; 3; 4], [5]).
Proof.
  exact (proj1 (full_read_loop_gathers_pieces [1; 2; 1; 5]%nat [1; 2; 3; 4; 5] 4
                  ltac:(repeat constructor) ltac:(simpl; lia))).
Defined.

(** The archive of "hi" with zeros for its MAC, again. *)
Lemma command_extract_any_input_witness :
  exists r w',
    command_extract "sec" (toy_extract_world 3 toy_tampered_archive) = (r, w')
    /\ (((r = Done tt \/ r = Fatal ErrChecksumMismatch)
         /\ (72 <= length (fd_in (toy_extract_world 3 toy_tampered_archive)))%nat
         /\ length (fd_out w')
            = (length (fd_out (toy_extract_world 3 toy_tampered_archive))
               + (length (fd_in (toy_extract_world 3 toy_tampered_archive)) - 72))%nat)
        \/ ((r = Fatal ErrReadIV \/ r = Fatal ErrReadEphemeral
             \/ r = Fatal ErrInvalidMasterKey \/ r = Fatal ErrCiphertextTooShort)
            /\ fd_out w' = fd_out (toy_extract_world 3 toy_tampered_archive))).
Proof.
  apply (command_extract_any_input "sec" (toy_extract_world 3 toy_tampered_archive)
           toy_sec (toy_extract_world 3 toy_tampered_archive) toy_chacha_sized);
    [simpl; lia | by vm_compute].
Defined.

(** The model runs on the new parts as well: the key id of the instance, the
    socket of its agent, a passphrase entered with a carriage return, and the
    names of the output files. *)
Example toy_fingerprint :
  print_fingerprint_text (compute_public toy_sec)
  = "7213b556-f8993bdc-7e1fc162-04a547e8".
Proof. vm_compute. reflexivity. Qed.

Example toy_agent_addr :
  agent_addr (fun _ => None) 108 toy_salt = Some "/tmp/0001020304050607".
Proof. vm_compute. reflexivity. Qed.

Example toy_passphrase_crlf :
  get_passphrase_buf (repeat 0 16) (toy_passphrase ++ [13; 10])
  = Buffer (toy_passphrase ++ [0; 10; 0; 0; 0; 0; 0; 0]).
Proof. vm_compute. reflexivity. Qed.

Example toy_outfiles :
  archive_outfile (Some "notes.txt") None = Some "notes.txt.enchive"
  /\ extract_outfile (Some "notes.txt.enchive") None = OutputName (Some "notes.txt")
  /\ extract_outfile (Some ".enchive") None = CouldNotDetermine ".enchive".
Proof. repeat split; vm_compute; reflexivity. Qed.

(** The default public key file of a user whose home is /home/u. *)
Lemma default_key_files_witness :
  exists config,
    config = "/home/u" +:+ "/.config"
    /\ String.substring 0 1 config = "/"
    /\ "/home/u/.config/enchive/enchive.pub" = config +:+ "/enchive/enchive.pub"
    /\ default_secfile toy_getenv = inr (config +:+ "/enchive/enchive.sec")
    /\ "/home/u/.config/enchive/enchive.pub" <> config +:+ "/enchive/enchive.sec"
    /\ storage_directory_dirs "/home/u/.config/enchive/enchive.pub"
       = storage_directory_dirs config ++ [config; config +:+ "/enchive"]
    /\ storage_directory_dirs (config +:+ "/enchive/enchive.sec")
       = storage_directory_dirs config ++ [config; config +:+ "/enchive"].
Proof.
  apply (default_key_files toy_getenv "/home/u/.config/enchive/enchive.pub").
  reflexivity.
Defined.

Example toy_storage_directory_dirs :
  storage_directory_dirs "/home/u/.config/enchive/enchive.pub"
  = ["/home"; "/home/u"; "/home/u/.config"; "/home/u/.config/enchive"].
Proof. reflexivity. Qed.

(** The layout of the archive of "hi". *)
Lemma command_archive_layout_witness :
  exists w',
    command_archive "pub" (toy_archive_world [104; 105]) = (Done tt, w')
    /\ fd_out w' = toy_archive.
Proof.
  destruct (command_archive_layout "pub" (toy_archive_world [104; 105])
              (compute_public toy_sec) toy_sha256_sized toy_chacha_sized
              toy_donna_sized)
    as (w' & Hrun & _);
    [simpl; lia | reflexivity | by vm_compute | simpl; lia |].
  exists w'. split; [exact Hrun |]. unfold toy_archive. by rewrite Hrun.
Defined.

(** The layout of the key file written under "password". *)
Lemma write_seckey_protected_layout_witness :
  exists w',
    write_seckey "sec" toy_sec 5 toy_keygen_world = (Done tt, w')
    /\ files w' !! "sec"
       = Some (take 8 (urandom toy_keygen_world)
               ++ [5; ENCHIVE_FORMAT_VERSION; 0; 0]
               ++ take 20 (SHA256 (key_derive toy_passphrase 5
                                     (Some (take 8 (urandom toy_keygen_world)))))
               ++ (chacha_encrypt_bytes
                     (chacha_ivsetup
                        (chacha_keysetup
                           (key_derive toy_passphrase 5
                              (Some (take 8 (urandom toy_keygen_world)))) 256)
                        (take 8 (urandom toy_keygen_world))) toy_sec).2
               ++ drop 64 (default [] (files toy_keygen_world !! "sec")))
    /\ length (take 8 (urandom toy_keygen_world)
               ++ [5; ENCHIVE_FORMAT_VERSION; 0; 0]
               ++ take 20 (SHA256 (key_derive toy_passphrase 5
                                     (Some (take 8 (urandom toy_keygen_world)))))
               ++ (chacha_encrypt_bytes
                     (chacha_ivsetup
                        (chacha_keysetup
                           (key_derive toy_passphrase 5
                              (Some (take 8 (urandom toy_keygen_world)))) 256)
                        (take 8 (urandom toy_keygen_world))) toy_sec).2) = 64%nat
    /\ forall other, other <> "sec" -> files w' !! other = files toy_keygen_world !! other.
Proof.
  apply (write_seckey_protected_layout "sec" toy_sec 5 toy_keygen_world toy_typed
           toy_typed toy_passphrase [] toy_sha256_sized toy_chacha_sized);
    [simpl; lia | simpl; lia | lia | reflexivity | reflexivity | by vm_compute
    | by vm_compute | discriminate | simpl; lia].
Defined.

End Instances.
